(** * alex.components.asr.utterance: word sequences and word confusion networks

    A shallow embedding of [Utterance], [UtteranceConfusionNetwork] and the two
    feature extractors of [alex/components/asr/utterance.py], followed by the
    properties established about them.

    Conventions of the embedding.
    - Python [int] is [Z]; list indexing and slicing follow Python (negative
      indices count from the end, slices clamp, item access raises
      [IndexError]).
    - A call either returns, raises, or exhausts the step budget of the model:
      [result].  [OutOfFuel] is not a Python outcome; every statement below
      that says a call returns or raises excludes it.
    - Probabilities are Python floats.  The code is written once over an
      arithmetic interface [Arith] and read at two instances: exact rationals
      [Q] and IEEE binary64 [float].
    - Generators are modelled by the finite list of the values they yield.
    - Text is unicode, as the module reads and writes it.  A [string] is a
      sequence of characters, each an [ascii] standing for the code point of
      that number; the model covers text whose characters lie below U+0100,
      and white space is the unicode white space of that range. *)

From Stdlib Require Import ZArith QArith Floats Lia Ascii String.
From stdpp Require Import base tactics option list gmap strings sets sorting.

Open Scope Z_scope.

(** ** Outcomes of a call *)

Inductive exn : Set :=
  | ValueError
  | AssertionError
  | IndexError
  | TypeError
  | ZeroDivisionError
  | NotImplementedError
  | UnboundLocalError
  | UtteranceConfusionNetworkException.

Inductive result (A : Type) : Type :=
  | Ok (a : A)
  | Raise (e : exn)
  | OutOfFuel.

Arguments Ok {A} a.
Arguments Raise {A} e.
Arguments OutOfFuel {A}.

#[global] Instance result_ret : MRet result := fun A a => Ok a.
#[global] Instance result_bind : MBind result := fun A B f m =>
  match m with
  | Ok a => f a
  | Raise e => Raise e
  | OutOfFuel => OutOfFuel
  end.

(** A [for] loop whose body may [return]: the body either continues with a new
    loop state or leaves the enclosing function with a value. *)
Inductive ctl (S A : Type) : Type :=
  | Continue (s : S)
  | Return (a : A).

Arguments Continue {S A} s.
Arguments Return {S A} a.

Fixpoint for_each {X S A} (xs : list X) (s : S)
    (body : X -> S -> result (ctl S A)) : result (ctl S A) :=
  match xs with
  | [] => Ok (Continue s)
  | x :: xs' =>
      c ← body x s;
      match c with
      | Continue s' => for_each xs' s' body
      | Return a => Ok (Return a)
      end
  end.

(** ** Python sequences *)

Definition len {A} (l : list A) : Z := Z.of_nat (length l).

(** [l[i]] *)
Definition getitem {A} (l : list A) (i : Z) : result A :=
  let j := if i <? 0 then i + len l else i in
  if (0 <=? j) && (j <? len l)
  then match l !! Z.to_nat j with Some x => Ok x | None => Raise IndexError end
  else Raise IndexError.

(** [l[i] = x] *)
Definition setitem {A} (l : list A) (i : Z) (x : A) : result (list A) :=
  let j := if i <? 0 then i + len l else i in
  if (0 <=? j) && (j <? len l)
  then Ok (<[Z.to_nat j := x]> l)
  else Raise IndexError.

(** [del l[i]] *)
Definition delitem {A} (l : list A) (i : Z) : result (list A) :=
  let j := if i <? 0 then i + len l else i in
  if (0 <=? j) && (j <? len l)
  then Ok (delete (Z.to_nat j) l)
  else Raise IndexError.

(** A slice bound, clamped into [0 .. len]. *)
Definition slice_bound (n b : Z) : Z :=
  if b <? 0 then Z.max 0 (n + b) else Z.min b n.

(** [l[lo:hi]], either bound possibly omitted. *)
Definition slice {A} (l : list A) (lo hi : option Z) : list A :=
  let s := match lo with None => 0 | Some b => slice_bound (len l) b end in
  let e := match hi with None => len l | Some b => slice_bound (len l) b end in
  take (Z.to_nat (e - s)) (drop (Z.to_nat s) l).

(** [xrange(lo, hi)] *)
Definition xrange (lo hi : Z) : list Z := seqZ lo (hi - lo).

(** [enumerate(l, start)] *)
Definition enumerate {A} (start : Z) (l : list A) : list (Z * A) :=
  imap (fun k x => (start + Z.of_nat k, x)) l.

(** ** Words *)

Abbreviation word := string (only parsing).

Definition SENTENCE_START : word := "<s>"%string.
Definition SENTENCE_END : word := "</s>"%string.

(** [ch.isspace()] for a unicode character, which is what [split()] and
    [strip()] break at: the characters U+0009 to U+000D, U+001C to U+001F,
    U+0020, U+0085 and U+00A0 are the white space below U+0100. *)
Definition is_space (c : ascii) : bool :=
  let n := nat_of_ascii c in
  ((9 <=? n) && (n <=? 13))%nat || ((28 <=? n) && (n <=? 32))%nat
  || (n =? 133)%nat || (n =? 160)%nat.

(** [split()] with no separator: maximal runs of characters that are no
    white space.
    [cur] holds the run being read, in reverse. *)
Fixpoint split_go (s : string) (cur : list ascii) : list string :=
  let flush := match cur with
               | [] => []
               | _ => [string_of_list_ascii (rev cur)]
               end in
  match s with
  | EmptyString => flush
  | String c s' =>
      if is_space c then flush ++ split_go s' [] else split_go s' (c :: cur)
  end.

Definition split (s : string) : list word := split_go s [].

(** [sep.join(ws)] *)
Fixpoint str_join (sep : string) (ws : list string) : string :=
  match ws with
  | [] => ""
  | [w] => w
  | w :: ws' => w ++ sep ++ str_join sep ws'
  end%string.

(** [s.lstrip()], on the characters of the string. *)
Fixpoint lstrip (s : list ascii) : list ascii :=
  match s with
  | [] => []
  | c :: s' => if is_space c then lstrip s' else s
  end.

(** [s.strip()]: white space removed at both ends. *)
Definition str_strip (s : string) : string :=
  string_of_list_ascii (rev (lstrip (rev (lstrip (list_ascii_of_string s))))).

(** [all(word in wordset for word in phrase)] *)
Definition all_in_wordset (wordset : gset word) (phrase : list word) : bool :=
  forallb (fun w => bool_decide (w ∈ wordset)) phrase.

(** ** Utterance *)

Module Utterance.

Record t : Type := mk {
  _utterance : list word;
  _wordset : gset word
}.

(** [Utterance.__init__] *)
Definition init (surface : string) : t :=
  let ws := split surface in
  {| _utterance := ws; _wordset := list_to_set ws |}.

(** The [utterance] setter. *)
Definition set_utterance (utt : list word) : t :=
  {| _utterance := utt; _wordset := list_to_set utt |}.

(** The class invariant every constructor and mutator establishes. *)
Definition wf (u : t) : Prop := _wordset u = list_to_set (_utterance u).

Definition isempty (u : t) : bool := bool_decide (length (_utterance u) = 0%nat).

(** The maximal skip in case of an incomplete match: the position of the next
    occurrence of the initial word inside the phrase, or the phrase length. *)
Fixpoint next_occurrence (initial : word) (rest : list word) (word_count : Z)
    : option Z :=
  match rest with
  | [] => None
  | w :: rest' =>
      if bool_decide (w = initial) then Some word_count
      else next_occurrence initial rest' (word_count + 1)
  end.

Definition max_skip (phrase : list word) : Z :=
  match phrase with
  | [] => 0
  | initial :: rest =>
      match next_occurrence initial rest 1 with
      | Some k => k
      | None => len phrase
      end
  end.

(** The inner [for phrase_idx in xrange(1, len(phrase))]: the first index at
    which the utterance and the phrase differ, or [None] when the loop runs
    to its [else]. *)
Fixpoint first_mismatch (utt phrase : list word) (match_idx : Z)
    (idxs : list Z) : option Z :=
  match idxs with
  | [] => None
  | phrase_idx :: idxs' =>
      if bool_decide (utt !! Z.to_nat (match_idx + phrase_idx)
                      = phrase !! Z.to_nat phrase_idx)
      then first_mismatch utt phrase match_idx idxs'
      else Some phrase_idx
  end.

(** The [while match_idx <= last_idx] loop. *)
Fixpoint find_loop (fuel : nat) (utt phrase : list word) (initial : word)
    (max_skip last_idx match_idx : Z) : result Z :=
  match fuel with
  | O => OutOfFuel
  | S fuel' =>
      if match_idx <=? last_idx then
        if bool_decide (utt !! Z.to_nat match_idx = Some initial) then
          match first_mismatch utt phrase match_idx (xrange 1 (len phrase)) with
          | None => Ok match_idx
          | Some phrase_idx =>
              find_loop fuel' utt phrase initial max_skip last_idx
                (match_idx + Z.min max_skip phrase_idx)
          end
        else
          find_loop fuel' utt phrase initial max_skip last_idx (match_idx + 1)
      else Ok (-1)
  end.

(** [Utterance.find] *)
Definition find (u : t) (phrase : list word) : result Z :=
  match phrase with
  | [] => Raise AssertionError
  | initial :: _ =>
      if negb (all_in_wordset (_wordset u) phrase) then Ok (-1)
      else
        find_loop (S (length (_utterance u))) (_utterance u) phrase initial
          (max_skip phrase) (len (_utterance u) - len phrase) 0
  end.

(** [Utterance.index] *)
Definition index (u : t) (phrase : list word) : result Z :=
  index ← find u phrase;
  if index =? -1 then Raise ValueError else Ok index.

(** [Utterance.iter_ngrams]: the windows in the order they are yielded. *)
Definition iter_ngrams (u : t) (n : Z) (with_boundaries : bool)
    : list (list word) :=
  let utt := _utterance u in
  let min_len := n - (if with_boundaries then 1 else 0) * 2 in
  if len utt <=? min_len then
    if len utt =? min_len then
      if with_boundaries then [[SENTENCE_START] ++ utt ++ [SENTENCE_END]]
      else [slice utt None None]
    else []
  else
    (if with_boundaries && (min_len <? len utt)
     then [[SENTENCE_START] ++ slice utt None (Some (n - 1))]
     else [])
    ++ map (fun start_idx => slice utt (Some start_idx) (Some (start_idx + n)))
         (xrange 0 (len utt - n + 1))
    ++ (if with_boundaries
        then [slice utt (Some (- (n - 1))) None ++ [SENTENCE_END]]
        else []).

(** [phrase in self] *)
Definition __contains__ (u : t) (phrase : list word) : result bool :=
  r ← find u phrase;
  Ok (negb (r =? -1)).

(** What an utterance may be compared with. *)
Inductive operand : Type :=
  | OUtterance (o : t)
  | OString (s : string)
  | OList (l : list word).

(** [self == other] *)
Definition __eq__ (self : t) (other : operand) : bool :=
  match other with
  | OUtterance o => bool_decide (_utterance self = _utterance o)
  | OString s => bool_decide (_utterance self = split s)
  | OList _ => false
  end.

(** [self != other]: [not self.__eq__(other.utterance)] *)
Definition __ne__ (self other : t) : bool :=
  negb (__eq__ self (OList (_utterance other))).

(** [replace] with [return_startidx=True]; without it the caller gets the
    first component only.  When [orig] does not occur the utterance returned
    is the receiver itself. *)
Definition replace (u : t) (orig replacement : list word) : result (t * Z) :=
  orig_pos ← find u orig;
  if orig_pos =? -1 then Ok (u, orig_pos)
  else
    Ok (set_utterance (slice (_utterance u) None (Some orig_pos)
                       ++ replacement
                       ++ slice (_utterance u) (Some (orig_pos + len orig)) None),
        orig_pos).

(** [iter_with_boundaries] *)
Definition iter_with_boundaries (u : t) : list word :=
  [SENTENCE_START] ++ _utterance u ++ [SENTENCE_END].

End Utterance.

(** ** AbstractedUtterance *)

Module AbstractedUtterance.

(** An utterance together with the positions of its abstracted words. *)
Record t : Type := mk {
  base : Utterance.t;
  _abstr_idxs : list Z
}.

(** [from_utterance] *)
Definition from_utterance (utterance : Utterance.t) : t :=
  {| base := Utterance.set_utterance (Utterance._utterance utterance);
     _abstr_idxs := [] |}.

(** One round of [for idx in self._abstr_idxs]; the state is the list built
    in [ab_replaced._abstr_idxs] and the flag [inserted_new]. *)
Definition shift_idx (startidx len_orig shift : Z) (st : list Z * bool) (idx : Z)
    : list Z * bool :=
  if startidx <=? idx then
    let st1 := if st.2 then st else (st.1 ++ [startidx], true) in
    if startidx + len_orig <? idx then (st1.1 ++ [idx + shift], st1.2) else st1
  else (st.1 ++ [idx], st.2).

(** [replace]: the receiver as the call leaves it, and the object returned.
    When nothing is replaced the object returned is the receiver; otherwise
    the receiver gets the new index list and keeps its words. *)
Definition replace (self : t) (orig replacement : list word) : result (t * t) :=
  out ← Utterance.replace (base self) orig replacement;
  let replaced := out.1 in
  let startidx := out.2 in
  if startidx =? -1 then Ok (self, self)
  else
    let ab_replaced := from_utterance replaced in
    let shift := 1 - len orig in
    let st := fold_left (shift_idx startidx (len orig) shift) (_abstr_idxs self)
                (_abstr_idxs ab_replaced, false) in
    let idxs := if st.2 then st.1 else st.1 ++ [startidx] in
    Ok ({| base := base self; _abstr_idxs := idxs |},
        {| base := base ab_replaced; _abstr_idxs := idxs |}).

End AbstractedUtterance.

(** ** Utterances and the lists they hold

    [Utterance.lower] rewrites the word list of an utterance in place, and
    the [utterance] setter keeps the very list it is given, so
    [from_utterance] makes two utterances hold one list.  To follow what one
    object sees of a change made through another, word lists live in a store
    here, at addresses, and an utterance holds the address of its list. *)

Module UtteranceInPlace.

Abbreviation lists := (gmap nat (list word)) (only parsing).

Record t : Type := mk {
  (** the address of the word list *)
  _utterance : nat;
  _wordset : gset word;
  (** of an [AbstractedUtterance]; a plain [Utterance] has none *)
  _abstr_idxs : list Z
}.

(** [__init__]: the words go to a list of their own. *)
Definition init (surface : string) (st : lists) : lists * t :=
  let l := fresh (dom st) in
  (<[l := split surface]> st,
   {| _utterance := l; _wordset := list_to_set (split surface);
      _abstr_idxs := [] |}).

(** The [utterance] setter, handed the list at address [utt].  An address
    outside the store denotes no list; no call starts from one, and the
    model stops there. *)
Definition set_utterance (self : t) (utt : nat) (st : lists) : result t :=
  match st !! utt with
  | Some ws =>
      Ok {| _utterance := utt; _wordset := list_to_set ws;
            _abstr_idxs := _abstr_idxs self |}
  | None => OutOfFuel
  end.

(** [AbstractedUtterance.from_utterance]: [AbstractedUtterance('')], then
    [abutt.utterance = utterance.utterance]. *)
Definition from_utterance (utterance : t) (st : lists) : lists * result t :=
  let out := init "" st in
  (out.1, set_utterance out.2 (_utterance utterance) out.1).

(** What the methods that only read an utterance see of it: the words its
    list holds now, and its own word set. *)
Definition view (self : t) (st : lists) : option Utterance.t :=
  match st !! _utterance self with
  | Some ws =>
      Some {| Utterance._utterance := ws; Utterance._wordset := _wordset self |}
  | None => None
  end.

(** [find] *)
Definition find (self : t) (phrase : list word) (st : lists) : result Z :=
  match view self st with
  | Some u => Utterance.find u phrase
  | None => OutOfFuel
  end.

Section Lower.
(** [str_lower w] stands for [w.lower()]. *)
Variable str_lower : word -> word.

(** [for widx, word in enumerate(self._utterance):
       self._utterance[widx] = word.lower()] *)
Definition lower_items (ws : list word) : list word :=
  fold_left (fun l widx =>
               match l !! widx with
               | Some w => <[widx := str_lower w]> l
               | None => l
               end)
            (seq 0 (length ws)) ws.

(** [lower]: the list is rewritten where it is, the word set is computed
    anew, and the receiver is returned. *)
Definition lower (self : t) (st : lists) : lists * result t :=
  match st !! _utterance self with
  | Some ws =>
      let ws' := lower_items ws in
      (<[_utterance self := ws']> st,
       Ok {| _utterance := _utterance self; _wordset := list_to_set ws';
             _abstr_idxs := _abstr_idxs self |})
  | None => (st, OutOfFuel)
  end.

End Lower.

End UtteranceInPlace.

(** ** Float arithmetic, as an interface *)

Class Arith (R : Type) : Type := {
  r_zero : R;
  r_one : R;
  r_add : R -> R -> R;
  r_sub : R -> R -> R;
  r_mul : R -> R -> R;
  (** applied to a non-zero divisor only, see [py_div] *)
  r_div : R -> R -> R;
  r_eqb : R -> R -> bool;
  r_ltb : R -> R -> bool
}.

(** Exact arithmetic. *)
#[global] Instance Q_arith : Arith Q := {|
  r_zero := 0%Q;
  r_one := 1%Q;
  r_add := Qplus;
  r_sub := Qminus;
  r_mul := Qmult;
  r_div := Qdiv;
  r_eqb := Qeq_bool;
  r_ltb := fun a b => negb (Qle_bool b a)
|}.

(** IEEE 754 binary64, the arithmetic of a Python float. *)
#[global] Instance float_arith : Arith float := {|
  r_zero := 0%float;
  r_one := 1%float;
  r_add := PrimFloat.add;
  r_sub := PrimFloat.sub;
  r_mul := PrimFloat.mul;
  r_div := PrimFloat.div;
  r_eqb := PrimFloat.eqb;
  r_ltb := PrimFloat.ltb
|}.

Section PyArith.
Context {R : Type} `{Arith R}.

(** [sum(l)]: left to right, from [0]. *)
Definition py_sum (l : list R) : R := fold_left r_add l r_zero.

(** [a / b] *)
Definition py_div (a b : R) : result R :=
  if r_eqb b r_zero then Raise ZeroDivisionError else Ok (r_div a b).

End PyArith.

(** Item access at an index known to be a natural number. *)
Definition getnat {A} (l : list A) (i : nat) : result A :=
  match l !! i with
  | Some x => Ok x
  | None => Raise IndexError
  end.

Definition nonempty {A} (l : list A) : bool :=
  match l with
  | [] => false
  | _ => true
  end.

(** ** UtteranceConfusionNetwork *)

Module UtteranceConfusionNetwork.

(** A position inside a long link: (start slot, link number, hop). *)
Abbreviation link_idx := (nat * nat * nat)%type.

Section Confnet.
Context {R : Type} `{Arith R}.

(** [LongLink = namedtuple('LongLink', ['end', 'orig_probs', 'hyp'])].
    Phrases are word lists; the source also lets a tuple stand for one. *)
Record LongLink : Type := mkLongLink {
  end_ : Z;
  orig_probs : list R;
  hyp : R * list word
}.

Record t : Type := mk {
  _abstr_idxs : list (Z * Z);
  _cn : list (list (R * word));
  _wordset : gset word;
  _long_links : list (list LongLink)
}.

(** [UtteranceConfusionNetwork.__init__] *)
Definition init : t :=
  {| _abstr_idxs := []; _cn := []; _wordset := ∅; _long_links := [] |}.

Definition set_cn (self : t) (cn : list (list (R * word))) : t :=
  {| _abstr_idxs := _abstr_idxs self; _cn := cn;
     _wordset := _wordset self; _long_links := _long_links self |}.

Definition set_long_links (self : t) (ll : list (list LongLink)) : t :=
  {| _abstr_idxs := _abstr_idxs self; _cn := _cn self;
     _wordset := _wordset self; _long_links := ll |}.

Definition set_wordset (self : t) (ws : gset word) : t :=
  {| _abstr_idxs := _abstr_idxs self; _cn := _cn self;
     _wordset := ws; _long_links := _long_links self |}.

Definition set_orig_probs (link : LongLink) (ps : list R) : LongLink :=
  {| end_ := end_ link; orig_probs := ps; hyp := hyp link |}.

(** [isempty]: [not self._cn and not any(self._long_links)] *)
Definition isempty (self : t) : bool :=
  negb (nonempty (_cn self)) && negb (existsb nonempty (_long_links self)).

(** [add] *)
Definition add (self : t) (hyps : list (R * word)) : result t :=
  normaliser ← py_div r_one (py_sum (map fst hyps));
  Ok {| _abstr_idxs := _abstr_idxs self;
        _cn := _cn self ++ [map (fun hyp => (r_mul hyp.1 normaliser, hyp.2)) hyps];
        _wordset := _wordset self ∪ list_to_set (map snd hyps);
        _long_links := _long_links self ++ [[]] |}.

(** *** Phrase search *)

(** An index triple [(word index, alternative index, offset in the link)]. *)
Definition idx : Type := Z * Z * Z.

Section PhraseIdxs.
(** [sub p s e] stands for the recursive call
    [self.get_phrase_idxs(p, s, e, start_in_midlinks=False)]. *)
Variable sub : list word -> Z -> Z -> result (list idx).
Variable self : t.
Variable phrase : list word.
Variable word0 : word.
Variable endw : Z.

(** The one-word arcs starting at [start_idx]. *)
Definition match_arcs (start_idx : Z) : result (option (list idx)) :=
  alts ← getitem (_cn self) start_idx;
  let matching_hyps :=
    filter (fun aidx_hyp : Z * (R * word) => aidx_hyp.2.2 = word0)
           (enumerate 0 alts) in
  match matching_hyps with
  | [] => Ok None
  | (aidx, _) :: _ =>
      if len phrase =? 1 then Ok (Some [(start_idx, aidx, 0)])
      else
        sub_find ← sub (drop 1 phrase) (start_idx + 1) endw;
        if nonempty sub_find
        then Ok (Some ((start_idx, aidx, 0) :: sub_find))
        else Ok None
  end.

(** The long links starting at [start_idx].  The loop state is the Python
    variable [l_idx], which outlives the loop. *)
Definition match_links (start_idx : Z) (l_idx0 : option Z)
    : result (ctl (option Z) (list idx)) :=
  links ← getitem (_long_links self) start_idx;
  for_each (enumerate 0 links) l_idx0 (fun l_idx_link _ =>
    let l_idx := l_idx_link.1 in
    let link := l_idx_link.2 in
    let l_len := len (hyp link).2 in
    if l_len =? len phrase then
      if bool_decide ((hyp link).2 = phrase)
      then Ok (Return [(- start_idx, l_idx, 0)])
      else Ok (Continue (Some l_idx))
    else if l_len <? len phrase then
      if (end_ link <=? endw)
         && bool_decide ((hyp link).2 = take (Z.to_nat l_len) phrase)
      then
        sub_find ← sub (drop (Z.to_nat l_len) phrase) (end_ link) endw;
        if nonempty sub_find
        then Ok (Return ((- start_idx, l_idx, 0) :: sub_find))
        else Ok (Continue (Some l_idx))
      else Ok (Continue (Some l_idx))
    else Ok (Continue (Some l_idx))).

(** The main loop [for start_idx in xrange(start, end)]. *)
Definition match_from (start : Z) : result (ctl (option Z) (list idx)) :=
  for_each (xrange start endw) None (fun start_idx l_idx =>
    arcs ← match_arcs start_idx;
    match arcs with
    | Some found => Ok (Return found)
    | None => match_links start_idx l_idx
    end).

(** The long links that belong to the range searched. *)
Definition phrase_links (start : Z) : list (Z * LongLink) :=
  flat_map (fun start_idx_links : Z * list LongLink =>
              map (fun link => (start_idx_links.1, link))
                  (filter (fun link => start < end_ link) start_idx_links.2))
           (enumerate start (slice (_long_links self) (Some start) (Some endw))).

(** Phrase starts in the middle of a long link.  [l_idx] is whatever the main
    loop left in that variable. *)
Definition match_midlinks (start : Z) (l_idx : option Z)
    : result (ctl unit (list idx)) :=
  for_each (phrase_links start) tt (fun start_idx_link _ =>
    let start_idx := start_idx_link.1 in
    let link := start_idx_link.2 in
    let link_phr := (hyp link).2 in
    for_each (xrange 1 (len link_phr)) tt (fun link_start_idx _ =>
      let l_suffix := drop (Z.to_nat link_start_idx) link_phr in
      let l_len := len l_suffix in
      if bool_decide (l_suffix = take (Z.to_nat l_len) phrase) then
        sub_find ← sub (drop (Z.to_nat l_len) phrase) (end_ link) endw;
        if nonempty sub_find then
          match l_idx with
          | Some l => Ok (Return ((- start_idx, l, link_start_idx) :: sub_find))
          | None => Raise UnboundLocalError
          end
        else Ok (Continue tt)
      else Ok (Continue tt))).

End PhraseIdxs.

(** [get_phrase_idxs].  [depth] bounds the nesting of recursive calls. *)
Fixpoint get_phrase_idxs (depth : nat) (self : t) (phrase : list word)
    (start : Z) (end_ : option Z) (start_in_midlinks : bool)
    : result (list idx) :=
  let sub := fun p s e =>
    match depth with
    | O => OutOfFuel
    | S depth' => get_phrase_idxs depth' self p s (Some e) false
    end in
  match phrase with
  | [] => Ok [(start, 0, 0)]
  | word0 :: _ =>
      let endw := match end_ with None => len (_cn self) | Some e => e end in
      if endw <=? start then Ok []
      else if negb (all_in_wordset (_wordset self) phrase) then Ok []
      else
        c ← match_from sub self phrase word0 endw start;
        match c with
        | Return found => Ok found
        | Continue l_idx =>
            if start_in_midlinks then
              c' ← match_midlinks sub self phrase endw start l_idx;
              match c' with
              | Return found => Ok found
              | Continue _ => Ok []
              end
            else Ok []
        end
  end.

(** [find] *)
Definition find (depth : nat) (self : t) (phrase : list word)
    (start : Z) (end_ : option Z) : result Z :=
  idxs ← get_phrase_idxs depth self phrase start end_ true;
  match idxs with
  | i :: _ => Ok (Z.abs i.1.1)
  | [] => Ok (-1)
  end.

(** [index]; its [start] and [end] are not passed on. *)
Definition index (depth : nat) (self : t) (phrase : list word)
    (start : Z) (end_ : option Z) : result Z :=
  index ← find depth self phrase 0 None;
  if index =? -1 then Raise ValueError else Ok index.

(** *** Normalisation *)

(** [self._long_links[widx][aidx].orig_probs[lidx]] *)
Definition link_prob (ll : list (list LongLink)) (i : link_idx) : result R :=
  links ← getnat ll i.1.1;
  link ← getnat links i.1.2;
  getnat (orig_probs link) i.2.

(** Move indices into long links one word forward. *)
Fixpoint advance_links (ll : list (list LongLink)) (link_idxs : list link_idx)
    : result (list link_idx) :=
  match link_idxs with
  | [] => Ok []
  | i :: rest =>
      links ← getnat ll i.1.1;
      link ← getnat links i.1.2;
      let new_lidx := S i.2 in
      rest' ← advance_links ll rest;
      if bool_decide (new_lidx < length (orig_probs link))%nat
      then Ok ((i.1.1, i.1.2, new_lidx) :: rest')
      else Ok rest'
  end.

(** [self._long_links[widx][aidx].orig_probs[lidx] *= normaliser] *)
Definition scale_link (normaliser : R) (ll : list (list LongLink))
    (i : link_idx) : result (list (list LongLink)) :=
  links ← getnat ll i.1.1;
  link ← getnat links i.1.2;
  p ← getnat (orig_probs link) i.2;
  let link' := set_orig_probs link (<[i.2 := r_mul p normaliser]> (orig_probs link)) in
  Ok (<[i.1.1 := <[i.1.2 := link']> links]> ll).

Fixpoint scale_links (normaliser : R) (ll : list (list LongLink))
    (link_idxs : list link_idx) : result (list (list LongLink)) :=
  match link_idxs with
  | [] => Ok ll
  | i :: rest =>
      ll' ← scale_link normaliser ll i;
      scale_links normaliser ll' rest
  end.

(** One round of the loop of [normalise], at slot [start_idx]. *)
Definition normalise_step (start_idx : nat) (st : list link_idx * t)
    : result (list link_idx * t) :=
  let self := st.2 in
  new_link_idxs ← advance_links (_long_links self) st.1;
  here ← getnat (_long_links self) start_idx;
  let link_idxs :=
    new_link_idxs ++ map (fun aidx => (start_idx, aidx, O)) (seq 0 (length here)) in
  alts ← getnat (_cn self) start_idx;
  link_probs ← mapM (link_prob (_long_links self)) link_idxs;
  let tot := r_add (py_sum (map fst alts)) (py_sum link_probs) in
  normaliser ← py_div r_one tot;
  let cn' := <[start_idx := map (fun hyp => (r_mul hyp.1 normaliser, hyp.2)) alts]>
               (_cn self) in
  ll' ← scale_links normaliser (_long_links self) link_idxs;
  Ok (link_idxs, set_long_links (set_cn self cn') ll').

Fixpoint normalise_loop (slots : list nat) (st : list link_idx * t)
    : result (list link_idx * t) :=
  match slots with
  | [] => Ok st
  | start_idx :: slots' =>
      st' ← normalise_step start_idx st;
      normalise_loop slots' st'
  end.

(** [normalise] *)
Definition normalise (self : t) (end_ : option Z) : result t :=
  let cn_iter :=
    match end_ with
    | None => _cn self
    | Some e => if len (_cn self) <=? e then _cn self
                else slice (_cn self) None (Some e)
    end in
  st ← normalise_loop (seq 0 (length cn_iter)) ([], self);
  Ok st.2.

(** *** Pruning *)

(** The body of the loop of [prune]: is the slot kept? *)
Definition prune_keeps (prune_prob : R) (alts : list (R * word)) : result bool :=
  first ← getitem alts 0;
  if bool_decide (first.2 = ""%string) && r_ltb (r_sub r_one prune_prob) first.1
  then Ok false
  else
    let pruned_alts :=
      filter (fun pw : R * word => r_ltb pw.1 prune_prob = false) alts in
    pfirst ← getitem pruned_alts 0;
    if bool_decide (pfirst.2 = ""%string) && (len pruned_alts =? 1)
    then Ok false
    else Ok true.

Fixpoint prune_loop (prune_prob : R) (cn : list (list (R * word)))
    : result (list (list (R * word))) :=
  match cn with
  | [] => Ok []
  | alts :: cn' =>
      keep ← prune_keeps prune_prob alts;
      pruned_cn ← prune_loop prune_prob cn';
      Ok (if keep : bool then alts :: pruned_cn else pruned_cn)
  end.

(** [set(hyp[1] for alts in cn for hyp in alts)] *)
Definition cn_words (cn : list (list (R * word))) : gset word :=
  list_to_set (map snd (concat cn)).

(** [prune] *)
Definition prune (self : t) (prune_prob : R) : result t :=
  pruned_cn ← prune_loop prune_prob (_cn self);
  Ok (set_wordset (set_cn self pruned_cn) (cn_words pruned_cn)).

(** *** N-best expansion *)

(** A hypothesis index vector: one alternative index per slot. *)
Definition hyp_index : Type := list Z.

Fixpoint get_prob_from (acc : R) (pairs : list (Z * list (R * word)))
    : result R :=
  match pairs with
  | [] => Ok acc
  | (altidx, alts) :: rest =>
      h ← getitem alts altidx;
      get_prob_from (r_mul acc h.1) rest
  end.

(** [get_prob]: [reduce(mul, ..., 1.)] over [izip(hyp_index, self._cn)] *)
Definition get_prob (self : t) (hi : hyp_index) : result R :=
  get_prob_from r_one (zip hi (_cn self)).

Definition next_worse_at (self : t) (hi : hyp_index) (i : nat)
    : result (list hyp_index) :=
  x ← getnat hi i;
  let wh := <[i := x + 1]> hi in
  alts ← getnat (_cn self) i;
  if len alts <=? x + 1 then Ok [] else Ok [wh].

(** [get_next_worse_candidates] *)
Definition get_next_worse_candidates (self : t) (hi : hyp_index)
    : result (list hyp_index) :=
  cands ← mapM (next_worse_at self hi) (seq 0 (length hi));
  Ok (concat cands).

(** [<] on tuples of ints. *)
Fixpoint hyp_ltb (a b : hyp_index) : bool :=
  match a, b with
  | [], [] => false
  | [], _ :: _ => true
  | _ :: _, [] => false
  | x :: a', y :: b' => if x =? y then hyp_ltb a' b' else x <? y
  end.

(** [<] on the pairs [(prob, hyp_index)] of the open list. *)
Definition open_ltb (a b : R * hyp_index) : bool :=
  if r_eqb a.1 b.1 then hyp_ltb a.2 b.2 else r_ltb a.1 b.1.

Fixpoint insert_reverse (x : R * hyp_index) (l : list (R * hyp_index))
    : list (R * hyp_index) :=
  match l with
  | [] => [x]
  | y :: l' => if open_ltb x y then y :: insert_reverse x l' else x :: y :: l'
  end.

(** [open_hyp.sort(reverse=True)] *)
Definition sort_reverse (l : list (R * hyp_index)) : list (R * hyp_index) :=
  foldr insert_reverse [] l.

(** [current_hyp_index in closed_hyp] *)
Definition is_closed (closed_hyp : list (hyp_index * R)) (hi : hyp_index) : bool :=
  bool_decide (hi ∈ map fst closed_hyp).

(** The [while open_hyp and i < n] loop; [todo] is [n - i].  [closed_hyp]
    lists the closed vectors in the order they were closed. *)
Fixpoint expand_loop (todo : nat) (self : t) (open_hyp : list (R * hyp_index))
    (closed_hyp : list (hyp_index * R)) : result (list (hyp_index * R)) :=
  match todo with
  | O => Ok closed_hyp
  | S todo' =>
      match open_hyp with
      | [] => Ok closed_hyp
      | (current_prob, current_hyp_index) :: open_hyp' =>
          if is_closed closed_hyp current_hyp_index
          then expand_loop todo' self open_hyp' closed_hyp
          else
            cands ← get_next_worse_candidates self current_hyp_index;
            new ← mapM (fun hi => prob ← get_prob self hi; Ok (prob, hi)) cands;
            expand_loop todo' self (sort_reverse (open_hyp' ++ new))
              (closed_hyp ++ [(current_hyp_index, current_prob)])
      end
  end.

(** The search of [get_utterance_nblist]: the table [closed_hyp] it ends
    with, in closing order.  The table is then handed to [UtteranceNBList],
    which is defined outside this module. *)
Definition get_utterance_nblist_closed (self : t) (n : Z)
    : result (list (hyp_index * R)) :=
  let best_hyp := replicate (length (_cn self)) 0 in
  best_prob ← get_prob self best_hyp;
  expand_loop (Z.to_nat n) self [(best_prob, best_hyp)] [].

(** *** Replacement

    [_replace] is the one method here that depends on object identity: it
    returns either its receiver or a [copy.deepcopy] of it.  Confusion
    networks therefore live in a store, at addresses; [deepcopy] allocates
    a new address holding an equal value that shares nothing with the old
    one.  A computation threads the store and keeps it when it raises. *)

Definition loc : Type := nat.
Definition heap : Type := gmap loc t.
Definition St (A : Type) : Type := heap -> heap * result A.

Definition st_ret {A} (a : A) : St A := fun h => (h, Ok a).

Definition st_bind {A B} (m : St A) (f : A -> St B) : St B := fun h =>
  match m h with
  | (h', Ok a) => f a h'
  | (h', Raise e) => (h', Raise e)
  | (h', OutOfFuel) => (h', OutOfFuel)
  end.

Definition lift {A} (r : result A) : St A := fun h => (h, r).

(** Read the object at an address.  An address outside the store denotes no
    object; no call starts from one, and the model stops there. *)
Definition load (l : loc) : St t := fun h =>
  match h !! l with
  | Some c => (h, Ok c)
  | None => (h, OutOfFuel)
  end.

(** Mutate the object at an address in place. *)
Definition modify (l : loc) (f : t -> result t) : St unit :=
  st_bind (load l) (fun c => fun h =>
    match f c with
    | Ok c' => (<[l := c']> h, Ok tt)
    | Raise e => (h, Raise e)
    | OutOfFuel => (h, OutOfFuel)
    end).

(** [copy.deepcopy(self)] *)
Definition deepcopy (l : loc) : St loc :=
  st_bind (load l) (fun c => fun h =>
    let l' := fresh (dom h) in (<[l' := c]> h, Ok l')).

Fixpoint fold_result {A X} (f : A -> X -> result A) (xs : list X) (a : A)
    : result A :=
  match xs with
  | [] => Ok a
  | x :: xs' => a' ← f a x; fold_result f xs' a'
  end.

(** [del replaced._cn[widx][aidx]] *)
Definition del_alternative (c : t) (widx aidx : Z) : result t :=
  alts ← getitem (_cn c) widx;
  alts' ← delitem alts aidx;
  cn' ← setitem (_cn c) widx alts';
  Ok (set_cn c cn').

(** [del replaced._long_links[widx][aidx]] *)
Definition del_link (c : t) (widx aidx : Z) : result t :=
  links ← getitem (_long_links c) widx;
  links' ← delitem links aidx;
  ll' ← setitem (_long_links c) widx links';
  Ok (set_long_links c ll').

(** Slice deletion or slice assignment on
    [replaced._long_links[widx][aidx]]: the link is a named tuple, which
    supports neither. *)
Definition edit_link_slice (c : t) (widx aidx : Z) : result t :=
  links ← getitem (_long_links c) widx;
  _ ← getitem links aidx;
  Raise TypeError.

(** The body of the deletion case. *)
Definition delete_piece (c : t) (i : idx) : result t :=
  let widx := i.1.1 in
  let aidx := i.1.2 in
  let lsidx := i.2 in
  if 0 <=? widx then del_alternative c widx aidx
  else if lsidx =? 0 then del_link c (- widx) aidx
  else edit_link_slice c (- widx) aidx.

(** Removing the old hypothesis in the general case. *)
Definition remove_piece (c : t) (i : idx) : result t :=
  let widx := i.1.1 in
  let aidx := i.1.2 in
  if 0 <=? widx then del_alternative c widx aidx
  else del_link c (- widx) aidx.

(** Substituting in place. *)
Definition substitute_inplace (keep : bool) (replacement : list word)
    (i : idx) (c : t) : result t :=
  let widx := i.1.1 in
  let aidx := i.1.2 in
  alts ← getitem (_cn c) widx;
  h ← getitem alts aidx;
  w ← getitem replacement 0;
  let repl_hyp := (h.1, w) in
  alts' ← (if keep then Ok (alts ++ [repl_hyp]) else setitem alts aidx repl_hyp);
  cn' ← setitem (_cn c) widx alts';
  Ok (set_cn c cn').

(** The probability of one matched piece. *)
Definition piece_prob (c : t) (i : idx) : result R :=
  let widx := i.1.1 in
  let aidx := i.1.2 in
  if 0 <=? widx then
    alts ← getitem (_cn c) widx;
    h ← getitem alts aidx;
    Ok h.1
  else
    links ← getitem (_long_links c) (- widx);
    link ← getitem links aidx;
    Ok (hyp link).1.

(** The general case: a new long link over the matched span. *)
Definition substitute_link (keep : bool) (replacement : list word)
    (idxs : list idx) (start_widx : Z) (last_idx : idx) (c : t) : result t :=
  let end_widx := last_idx.1.1 in
  orig_probs ← mapM (piece_prob c) idxs;
  let prob := fold_left r_mul orig_probs r_one in
  let new_hyp := (prob, replacement) in
  endw ← (if 0 <=? end_widx then Ok (end_widx + 1)
          else
            links ← getitem (_long_links c) (- end_widx);
            link ← getitem links last_idx.1.2;
            Ok (end_ link));
  let new_link := mkLongLink endw orig_probs new_hyp in
  links ← getitem (_long_links c) start_widx;
  ll' ← setitem (_long_links c) start_widx (links ++ [new_link]);
  let c' := set_long_links c ll' in
  if keep then Ok c' else fold_result remove_piece idxs c'.

(** The word set of a confusion network, recomputed. *)
Definition all_words (c : t) : gset word :=
  cn_words (_cn c)
  ∪ list_to_set (flat_map (fun link => (hyp link).2) (concat (_long_links c))).

(** The [while idxs] loop.  [fuel] bounds its rounds and the recursion of
    [get_phrase_idxs]. *)
Fixpoint replace_loop (fuel : nat) (replaced : loc) (phrase replacement : list word)
    (keep : bool) (idxs repl_idxs : list idx) (do_normalise update_wordset : bool)
    : St (list idx * bool * bool) :=
  match idxs with
  | [] => st_ret (repl_idxs, do_normalise, update_wordset)
  | first_idx :: _ =>
      match fuel with
      | O => lift OutOfFuel
      | S fuel' =>
          let start_widx := Z.abs first_idx.1.1 in
          let last_idx := List.last idxs first_idx in
          let end_lsidx := last_idx.2 in
          let repl_idxs := repl_idxs ++ idxs in
          st_bind
            (if len replacement =? 0 then
               if keep then st_ret (do_normalise, update_wordset)
               else
                 st_bind (modify replaced (fold_result delete_piece idxs))
                   (fun _ => st_ret (true, true))
             else if (len idxs =? len replacement) && (len replacement =? 1)
                     && (0 <=? first_idx.1.1) then
               st_bind (modify replaced (substitute_inplace keep replacement first_idx))
                 (fun _ => st_ret (do_normalise, true))
             else if negb (end_lsidx =? 0) then
               if len idxs =? 1 then
                 st_bind (modify replaced
                            (fun c => edit_link_slice c (- last_idx.1.1) last_idx.1.2))
                   (fun _ => st_ret (do_normalise, true))
               else lift (Raise AssertionError)
             else
               st_bind (modify replaced
                          (substitute_link keep replacement idxs start_widx last_idx))
                 (fun _ => st_ret (true, true)))
            (fun flags =>
               st_bind (load replaced) (fun c =>
               st_bind (lift (get_phrase_idxs fuel c phrase (start_widx + 1) None true))
                 (fun idxs' =>
                    replace_loop fuel' replaced phrase replacement keep
                      idxs' repl_idxs flags.1 flags.2)))
      end
  end.

(** The rest of [_replace], once the first search is over and [replaced]
    is bound: the loop, then [normalise] and the word set if asked for. *)
Definition replace_rest (fuel : nat) (replaced : loc)
    (phrase replacement : list word) (keep : bool) (idxs : list idx)
    : St (loc * list idx) :=
  st_bind (replace_loop fuel replaced phrase replacement keep idxs [] false false)
    (fun out =>
       st_bind (if out.1.2
                then modify replaced (fun c => normalise c None)
                else st_ret tt) (fun _ =>
       st_bind (if out.2
                then modify replaced (fun c => Ok (set_wordset c (all_words c)))
                else st_ret tt) (fun _ =>
       st_ret (replaced, out.1.1)))).

(** [_replace]: the object returned and the indices replaced. *)
Definition _replace (fuel : nat) (self : loc) (phrase replacement : list word)
    (keep : bool) : St (loc * list idx) :=
  st_bind (load self) (fun c =>
  st_bind (lift (get_phrase_idxs fuel c phrase 0 None true)) (fun idxs =>
  st_bind (if nonempty idxs then deepcopy self else st_ret self) (fun replaced =>
  replace_rest fuel replaced phrase replacement keep idxs))).

(** [replace] *)
Definition replace (fuel : nat) (self : loc) (phrase replacement : list word)
    : St loc :=
  st_bind (_replace fuel self phrase replacement false) (fun out => st_ret out.1).

(** *** N-grams over long links *)

Definition start_is_none (start : option Z) : bool :=
  match start with
  | None => true
  | Some _ => false
  end.

(** [iter_ngrams]: the n-gram hypotheses in the order they are yielded.
    [depth] bounds the nesting of recursive calls. *)
Fixpoint iter_ngrams (depth : nat) (self : t) (n : Z) (with_boundaries : bool)
    (start : option Z) : result (list (R * list word)) :=
  let sub := fun n' s =>
    match depth with
    | O => OutOfFuel
    | S depth' => iter_ngrams depth' self n' with_boundaries (Some s)
    end in
  let start_iter :=
    match start with
    | Some s =>
        if s <? len (_cn self) then Some [s]
        else if (s =? len (_cn self)) && with_boundaries then Some []
        else None
    | None => Some (xrange 0 (len (_cn self)))
    end in
  match start_iter with
  | None => Ok []
  | Some start_iter =>
      if n =? 1 then
        let first := if with_boundaries && start_is_none start
                     then [(r_one, [SENTENCE_START])] else [] in
        body ← mapM (fun start_idx =>
          alts ← getitem (_cn self) start_idx;
          links ← getitem (_long_links self) start_idx;
          of_links ← mapM (fun link : LongLink =>
            if len (hyp link).2 =? 1 then Ok [hyp link]
            else if negb (start_is_none start) then
              w ← getitem (hyp link).2 0;
              Ok [((hyp link).1, [w])]
            else Ok (map (fun w => ((hyp link).1, [w])) (hyp link).2)) links;
          Ok (map (fun h : R * word => (h.1, [h.2])) alts ++ concat of_links))
          start_iter;
        let last := if with_boundaries && start_is_none start
                       || bool_decide (start = Some (len (_cn self)))
                    then [(r_one, [SENTENCE_END])] else [] in
        Ok (first ++ concat body ++ last)
      else if 1 <? n then
        first ← (if with_boundaries && start_is_none start then
                   subs ← sub (n - 1) 0;
                   Ok (map (fun s : R * list word => (s.1, SENTENCE_START :: s.2)) subs)
                 else Ok []);
        body ← mapM (fun start_idx =>
          here_hyps ← getitem (_cn self) start_idx;
          sub_hyps ← sub (n - 1) (start_idx + 1);
          let prods :=
            flat_map (fun h : R * word =>
                        map (fun s : R * list word => (r_mul s.1 h.1, h.2 :: s.2))
                            sub_hyps) here_hyps in
          links ← getitem (_long_links self) start_idx;
          of_links ← mapM (fun link : LongLink =>
            let l_phrase := (hyp link).2 in
            let l_len := len l_phrase in
            let prob := (hyp link).1 in
            let fits :=
              map (fun lsidx => (prob, slice l_phrase (Some lsidx) (Some (lsidx + n))))
                  (xrange 0 (l_len - n + 1)) in
            let min_startidx := if l_len =? n then 1 else Z.max 0 (l_len - n) in
            let end_startidx := if start_is_none start then l_len else 1 in
            later ← mapM (fun lsidx =>
              let len_prefix := l_len - lsidx in
              let phr_prefix := slice l_phrase (Some lsidx) None in
              subs ← sub (n - len_prefix) (end_ link);
              Ok (map (fun s : R * list word => (r_mul prob s.1, phr_prefix ++ s.2)) subs))
              (xrange min_startidx end_startidx);
            Ok (fits ++ concat later)) links;
          Ok (prods ++ concat of_links)) start_iter;
        Ok (first ++ concat body)
      else Ok []
  end.

(** *** Search that ignores long links *)

(** The inner loop of [find_unaware]: [for phr_widx, state in
    enumerate(states)]. *)
Definition advance_states (phrase : list word) (alt_words : list word)
    (states : list bool) : result (list bool) :=
  fold_result (fun new_states (ps : Z * bool) =>
      if ps.2 then
        w ← getitem phrase ps.1;
        if bool_decide (w ∈ alt_words)
        then setitem new_states (ps.1 + 1) true
        else Ok new_states
      else Ok new_states)
    (enumerate 0 states) (true :: replicate (length phrase) false).

(** [find_unaware] *)
Definition find_unaware (self : t) (phrase : list word) (start : Z)
    (end_ : option Z) : result Z :=
  if negb (all_in_wordset (_wordset self) phrase) then Ok (-1)
  else
    let endw := match end_ with None => len (_cn self) | Some e => e end in
    c ← for_each (enumerate start (slice (_cn self) (Some start) (Some endw)))
          (true :: replicate (length phrase) false)
          (fun widx_alts states =>
             let widx := widx_alts.1 in
             let alts := widx_alts.2 in
             new_states ← advance_states phrase (map snd alts) states;
             last ← getitem new_states (-1);
             if last : bool then Ok (Return (widx - len phrase + 1))
             else Ok (Continue new_states));
    match c with
    | Return r => Ok r
    | Continue states =>
        last ← getitem states (-1);
        if last : bool then Ok (endw - len phrase) else Ok (-1)
    end.

(** *** The best hypothesis *)

(** The loop shared by [get_best_utterance] and [get_best_hyp]: the first
    word of every slot, and the product of their probabilities. *)
Definition best_path (self : t) : result (list word * R) :=
  fold_result (fun (st : list word * R) (alts : list (R * word)) =>
      h ← getitem alts 0;
      Ok (st.1 ++ [h.2], r_mul st.2 h.1))
    (_cn self) ([], r_one).

(** [get_best_utterance] *)
Definition get_best_utterance (self : t) : result string :=
  st ← best_path self;
  Ok (str_strip (str_join " " st.1)).

(** [get_best_hyp] *)
Definition get_best_hyp (self : t) : result (R * Utterance.t) :=
  st ← best_path self;
  Ok (st.2, Utterance.init (str_strip (str_join " " st.1))).

(** [get_hyp_index_utterence] *)
Definition get_hyp_index_utterence (self : t) (hi : hyp_index)
    : result Utterance.t :=
  s ← mapM (fun i_alts : Z * list (R * word) =>
              h ← getitem i_alts.2 i_alts.1; Ok h.2)
           (zip hi (_cn self));
  Ok (Utterance.init (str_join " " s)).

(** *** Sorting *)

(** [<] on the pairs [(prob, word)]. *)
Definition alt_ltb (a b : R * word) : bool :=
  if r_eqb a.1 b.1 then String.ltb a.2 b.2 else r_ltb a.1 b.1.

Fixpoint insert_alt (x : R * word) (l : list (R * word)) : list (R * word) :=
  match l with
  | [] => [x]
  | y :: l' => if alt_ltb x y then y :: insert_alt x l' else x :: y :: l'
  end.

(** [alts.sort(reverse=True)]: the largest first, equal pairs in the order
    they had. *)
Definition sort_alts (alts : list (R * word)) : list (R * word) :=
  foldr insert_alt [] alts.

(** [sort] *)
Definition sort (self : t) : t := set_cn self (map sort_alts (_cn self)).

(** *** N-grams that ignore long links *)

(** [itertools.product], applied to the pools. *)
Fixpoint product {A} (pools : list (list A)) : list (list A) :=
  match pools with
  | [] => [[]]
  | pool :: pools' => flat_map (fun x => map (cons x) (product pools')) pool
  end.

(** [iter_ngrams_fromto] *)
Definition iter_ngrams_fromto (self : t) (from_ to : option Z)
    : result (list (R * list word)) :=
  let cn_splice := slice (_cn self) from_ to in
  let options := map (fun alts : list (R * word) => xrange 0 (len alts)) cn_splice in
  mapM (fun option_seq =>
          hyp_seq ← mapM (fun ao : list (R * word) * Z => getitem ao.1 ao.2)
                      (zip cn_splice option_seq);
          Ok (fold_left r_mul (map fst hyp_seq) r_one, map snd hyp_seq))
       (product options).

(** [iter_ngrams_unaware] *)
Definition iter_ngrams_unaware (self : t) (n : Z) (with_boundaries : bool)
    : result (list (R * list word)) :=
  let min_len := n - (if with_boundaries then 1 else 0) * 2 in
  if len (_cn self) <=? min_len then
    if len (_cn self) =? min_len then
      hyps ← iter_ngrams_fromto self None None;
      if with_boundaries
      then Ok (map (fun pn : R * list word =>
                      (pn.1, [SENTENCE_START] ++ pn.2 ++ [SENTENCE_END])) hyps)
      else Ok hyps
    else Ok []
  else
    first ← (if with_boundaries && (min_len <? len (_cn self)) then
               hyps ← iter_ngrams_fromto self (Some 0) (Some (n - 1));
               Ok (map (fun pn : R * list word =>
                          (pn.1, [SENTENCE_START] ++ pn.2)) hyps)
             else Ok []);
    body ← mapM (fun start_idx =>
                   iter_ngrams_fromto self (Some start_idx) (Some (start_idx + n)))
                (xrange 0 (len (_cn self) - n + 1));
    last ← (if with_boundaries then
              hyps ← iter_ngrams_fromto self (Some (- (n - 1))) None;
              Ok (map (fun pn : R * list word => (pn.1, pn.2 ++ [SENTENCE_END])) hyps)
            else Ok []);
    Ok (first ++ concat body ++ last).

(** *** Lowercasing *)

Section Lower.
(** [str_lower w] stands for [w.lower()]. *)
Variable str_lower : word -> word.

(** [lower]; the phrases of the long links stay as they are. *)
Definition lower (self : t) : t :=
  set_wordset
    (set_cn self (map (map (fun hyp : R * word => (hyp.1, str_lower hyp.2)))
                      (_cn self)))
    (set_map str_lower (_wordset self)).

End Lower.

End Confnet.

Arguments LongLink R : clear implicits.
Arguments t R : clear implicits.
Arguments heap R : clear implicits.

End UtteranceConfusionNetwork.

(** ** Feature vectors *)

(** A feature key: a plain name (['__empty__']) or a tuple of words. *)
Inductive feature : Set :=
  | FName (s : string)
  | FTuple (ws : list word).

#[global] Instance feature_eq_dec : EqDecision feature.
Proof. solve_decision. Defined.

#[global] Instance feature_countable : Countable feature.
Proof.
  refine (inj_countable'
    (fun f => match f with FName s => inl s | FTuple ws => inr ws end)
    (fun x => match x with inl s => FName s | inr ws => FTuple ws end) _).
  intros []; reflexivity.
Defined.

Section Features.
Context {R : Type} `{Arith R}.

(** Modelled from the spec: the mapping [features] of the base class
    [Features] (alex.ml.features), a sparse mapping from feature keys to
    weights in which an absent key weighs 0 and accumulation is addition. *)
Definition incr (k : feature) (v : R) (m : gmap feature R) : gmap feature R :=
  <[k := r_add (default r_zero (m !! k)) v]> m.

End Features.

Module UtteranceFeatures.
Section Parse.
Context {R : Type} `{Arith R}.

Record t : Type := mk {
  type : string;
  size : Z;
  features : gmap feature R
}.

Definition set_features (self : t) (m : gmap feature R) : t :=
  {| type := type self; size := size self; features := m |}.

(** [for ngram in utterance.iter_ngrams(n, ...): body] *)
Definition each_ngram (u : Utterance.t) (n : Z) (with_boundaries : bool)
    (body : gmap feature R -> list word -> result (gmap feature R))
    (m : gmap feature R) : result (gmap feature R) :=
  UtteranceConfusionNetwork.fold_result body
    (Utterance.iter_ngrams u n with_boundaries) m.

(** [parse] *)
Definition parse (self : t) (utterance : Utterance.t) (with_boundaries : bool)
    : result t :=
  if Utterance.isempty utterance then
    Ok (set_features self (incr (FName "__empty__") r_one (features self)))
  else if bool_decide (type self = "ngram"%string) then
    let m1 := fold_left (fun m w => incr (FTuple [w]) r_one m)
                (Utterance._utterance utterance) (features self) in
    m2 ← (if 2 <=? size self then
            each_ngram utterance 2 with_boundaries
              (fun m ngram => Ok (incr (FTuple ngram) r_one m)) m1
          else Ok m1);
    m3 ← (if 3 <=? size self then
            each_ngram utterance 3 with_boundaries
              (fun m ngram =>
                 let m' := incr (FTuple ngram) r_one m in
                 a ← getitem ngram 0;
                 b ← getitem ngram 2;
                 Ok (incr (FTuple [a; "*1"%string; b]) r_one m')) m2
          else Ok m2);
    m4 ← (if 4 <=? size self then
            each_ngram utterance 4 with_boundaries
              (fun m ngram =>
                 let m' := incr (FTuple ngram) r_one m in
                 a ← getitem ngram 0;
                 b ← getitem ngram 3;
                 Ok (incr (FTuple [a; "*2"%string; b]) r_one m')) m3
          else Ok m3);
    m5 ← UtteranceConfusionNetwork.fold_result
           (fun m length =>
              each_ngram utterance length with_boundaries
                (fun m ngram => Ok (incr (FTuple ngram) r_one m)) m)
           (xrange 5 (size self + 1)) m4;
    Ok (set_features self m5)
  else Raise NotImplementedError.

End Parse.
Arguments t R : clear implicits.
End UtteranceFeatures.

Module UtteranceConfusionNetworkFeatures.
Section Parse.
Context {R : Type} `{Arith R}.

(** [root k p] stands for the float power [p ** (1. / k)], which the
    arithmetic interface does not provide. *)
Variable root : Z -> R -> R.

Record t : Type := mk {
  type : string;
  size : Z;
  features : gmap feature R
}.

Definition set_features (self : t) (m : gmap feature R) : t :=
  {| type := type self; size := size self; features := m |}.

(** [for prob, ngram in confnet.iter_ngrams(n, with_boundaries=True): body] *)
Definition each_ngram (depth : nat) (confnet : UtteranceConfusionNetwork.t R)
    (n : Z)
    (body : gmap feature R -> R * list word -> result (gmap feature R))
    (m : gmap feature R) : result (gmap feature R) :=
  ngrams ← UtteranceConfusionNetwork.iter_ngrams depth confnet n true None;
  UtteranceConfusionNetwork.fold_result body ngrams m.

(** [parse] *)
Definition parse (depth : nat) (self : t)
    (confnet : UtteranceConfusionNetwork.t R) : result t :=
  m ← (if UtteranceConfusionNetwork.isempty confnet then
         Ok (incr (FName "__empty__") r_one (features self))
       else if bool_decide (type self = "ngram"%string) then
         let m1 := fold_left (fun m (h : R * word) => incr (FTuple [h.2]) h.1 m)
                     (concat (UtteranceConfusionNetwork._cn confnet))
                     (features self) in
         m2 ← (if 2 <=? size self then
                 each_ngram depth confnet 2
                   (fun m pn => Ok (incr (FTuple pn.2) (root 2 pn.1) m)) m1
               else Ok m1);
         m3 ← (if 3 <=? size self then
                 each_ngram depth confnet 3
                   (fun m pn =>
                      let m' := incr (FTuple pn.2) (root 3 pn.1) m in
                      a ← getitem pn.2 0;
                      b ← getitem pn.2 2;
                      Ok (incr (FTuple [a; "*1"%string; b]) (root 2 pn.1) m')) m2
               else Ok m2);
         m4 ← (if 4 <=? size self then
                 each_ngram depth confnet 4
                   (fun m pn =>
                      let m' := incr (FTuple pn.2) (root 4 pn.1) m in
                      a ← getitem pn.2 0;
                      b ← getitem pn.2 3;
                      Ok (incr (FTuple [a; "*2"%string; b]) (root 2 pn.1) m')) m3
               else Ok m3);
         UtteranceConfusionNetwork.fold_result
           (fun m length =>
              each_ngram depth confnet length
                (fun m pn => Ok (incr (FTuple pn.2) (root length pn.1) m)) m)
           (xrange 5 (size self + 1)) m4
       else Raise NotImplementedError);
  if bool_decide (base.size m = 0%nat)
  then Raise UtteranceConfusionNetworkException
  else Ok (set_features self m).

End Parse.
Arguments t R : clear implicits.
End UtteranceConfusionNetworkFeatures.

(** * Specifications *)

Import UtteranceConfusionNetwork.

(** ** Phrase search *)

(** The phrase [p] occurs in [utt] at position [i]. *)
Definition occurs_at (utt p : list word) (i : nat) : Prop :=
  take (length p) (drop i utt) = p.

(** What a search for [p] in [utt] has to return. *)
Definition leftmost (utt p : list word) (r : Z) : Prop :=
  (r = -1 /\ forall i, ~ occurs_at utt p i)
  \/ (0 <= r /\ occurs_at utt p (Z.to_nat r)
      /\ forall j, (j < Z.to_nat r)%nat -> ~ occurs_at utt p j).

(** A call that does not fail with [ValueError]. *)
Definition no_ValueError {A} (r : result A) : Prop := r <> Raise ValueError.

(** ** Stores and link tables *)

Section Specs.
Context {R : Type} `{Arith R}.

(** A computation that writes to the store at address [l] only, and leaves
    [l] allocated. *)
Definition touches_only {A} (l : loc) (m : St A) : Prop :=
  forall h : heap R,
    (forall a, a <> l -> (m h).1 !! a = h !! a)
    /\ (is_Some (h !! l) -> is_Some ((m h).1 !! l)).

(** [ll[s][a].orig_probs[k]], when there is such an entry. *)
Definition entry (ll : list (list (LongLink R))) (i : link_idx) : option R :=
  links ← ll !! i.1.1;
  link ← links !! i.1.2;
  orig_probs link !! i.2.

(** The long-link hops that lie over slot [i]: link [a] of slot [s] covers
    the slots [s], [s + 1], ... with the successive entries of its
    [orig_probs]. *)
Definition covering (ll : list (list (LongLink R))) (i : nat) : list link_idx :=
  s ← seq 0 (S i);
  a ← seq 0 (length (default [] (ll !! s)));
  match entry ll (s, a, (i - s)%nat) with
  | Some _ => [(s, a, (i - s)%nat)]
  | None => []
  end.

(** The total mass at slot [i]: its alternatives and the hops over it. *)
Definition slot_mass (c : UtteranceConfusionNetwork.t R) (i : nat) : R :=
  r_add (py_sum (map fst (default [] (_cn c !! i))))
        (py_sum (omap (entry (_long_links c)) (covering (_long_links c) i))).

(** The two lists of a confusion network run in parallel, and a long link
    carries at least one hop. *)
Definition links_wf (cn : list (list (R * word))) (ll : list (list (LongLink R)))
    : Prop :=
  length ll = length cn
  /\ forall s a links link,
       ll !! s = Some links -> links !! a = Some link -> orig_probs link <> [].

Definition wf (c : UtteranceConfusionNetwork.t R) : Prop :=
  links_wf (_cn c) (_long_links c).

(** The statement of C1 over an arithmetic. *)
Definition normalise_exact : Prop :=
  forall c : UtteranceConfusionNetwork.t R,
    wf c ->
    (forall i, (i < length (_cn c))%nat -> r_ltb r_zero (slot_mass c i) = true) ->
    exists c',
      normalise c None = Ok c'
      /\ forall i, (i < length (_cn c))%nat -> r_eqb (slot_mass c' i) r_one = true.

(** Two link tables of the same shape: the same lists of the same lengths,
    entries aside. *)
Definition same_shape (ll ll' : list (list (LongLink R))) : Prop :=
  length ll' = length ll
  /\ (forall s, length (default [] (ll' !! s)) = length (default [] (ll !! s)))
  /\ (forall x, is_Some (entry ll' x) <-> is_Some (entry ll x)).

(** What a long link is apart from the values of its hops: its end, its
    phrase with the probability of the phrase, and the number of hops. *)
Definition link_frame (link : LongLink R) : Z * (R * list word) * nat :=
  (end_ link, hyp link, length (orig_probs link)).

(** What a confusion network is apart from the probabilities in it. *)
Definition frame (c : UtteranceConfusionNetwork.t R)
    : list (list word) * list (list (Z * (R * list word) * nat))
      * gset word * list (Z * Z) :=
  (map (map snd) (_cn c), map (map link_frame) (_long_links c),
   _wordset c, _abstr_idxs c).

(** The phrase laid over the slots from slot [i] on: each of its words is
    among the alternatives of the slot it falls on. *)
Definition fits_at (cn : list (list (R * word))) (phrase : list word) (i : nat)
    : Prop :=
  forall m w, phrase !! m = Some w ->
    exists alts, cn !! (i + m)%nat = Some alts /\ w ∈ map snd alts.

(** The first [j] words of the phrase fit the [j] slots before slot [k]. *)
Definition prefix_fits (cn : list (list (R * word))) (phrase : list word)
    (k j : nat) : Prop :=
  (j <= k)%nat /\ fits_at cn (take j phrase) (k - j).

(** One round of [find_unaware] in closed form: a prefix one word longer
    ends at a slot when the prefix ended before it and the slot offers the
    next word. *)
Definition step_states (phrase : list word) (alt_words : list word)
    (states : list bool) : list bool :=
  true :: zip_with (fun (s : bool) w => s && bool_decide (w ∈ alt_words))
            states phrase.

(** Slot [i] offers the word [w] among its alternatives. *)
Definition slot_offers (cn : list (list (R * word))) (i : nat) (w : word) : Prop :=
  exists alts, cn !! i = Some alts /\ w ∈ map snd alts.

(** The words of the phrase are offered, in their order, by slots at
    increasing positions from [start] on; the slots need not be adjacent. *)
Fixpoint embeds (cn : list (list (R * word))) (phrase : list word) (start : nat)
    : Prop :=
  match phrase with
  | [] => True
  | w :: rest =>
      exists i, (start <= i)%nat /\ slot_offers cn i w /\ embeds cn rest (S i)
  end.

(** The first word of every slot. *)
Definition first_words (cn : list (list (R * word))) : list word :=
  omap (fun alts : list (R * word) => snd <$> head alts) cn.

(** The hypothesis made of one alternative per slot: the product of the
    probabilities, multiplied up from 1 in the order of the slots, and the
    words. *)
Definition path_hyp (hyp_seq : list (R * word)) : R * list word :=
  (fold_left r_mul (map fst hyp_seq) r_one, map snd hyp_seq).

(** Every long link has a first hop. *)
Definition first_hops (ll : list (list (LongLink R))) : Prop :=
  forall s a, (a < length (default [] (ll !! s)))%nat -> is_Some (entry ll (s, a, O)).

(** The link indices the loop holds before it handles slot [i]. *)
Definition held_before (ll : list (list (LongLink R))) (i : nat) : list link_idx :=
  match i with
  | O => []
  | S j => covering ll j
  end.

End Specs.

(** ** The n-best search *)

(** The precondition of the n-best search: in every slot the probabilities
    are non-negative and come in non-increasing order. *)
Definition slot_sorted (alts : list (Q * word)) : Prop :=
  forall (i j : nat) (p q : Q * word),
    (i <= j)%nat -> alts !! i = Some p -> alts !! j = Some q -> (q.1 <= p.1)%Q.

Definition slot_nonneg (alts : list (Q * word)) : Prop :=
  forall pw, pw ∈ alts -> (0 <= pw.1)%Q.

Definition sorted_confnet (c : UtteranceConfusionNetwork.t Q) : Prop :=
  Forall (fun alts => slot_sorted alts /\ slot_nonneg alts) (_cn c).

(** An index vector that picks an existing alternative in every slot. *)
Definition valid_index (c : UtteranceConfusionNetwork.t Q) (hi : hyp_index) : Prop :=
  Forall2 (fun x (alts : list (Q * word)) => 0 <= x < len alts) hi (_cn c).

(** Non-increasing probability, on the open list and on the closed table. *)
Definition open_desc (a b : Q * hyp_index) : Prop := (b.1 <= a.1)%Q.

Definition closed_desc (a b : hyp_index * Q) : Prop := (b.2 <= a.2)%Q.

(** An entry of the open list: a valid vector with its probability. *)
Definition entry_ok (c : UtteranceConfusionNetwork.t Q) (ph : Q * hyp_index) : Prop :=
  valid_index c ph.2 /\ get_prob c ph.2 = Ok ph.1.

(** The invariant of the search loop. *)
Record search_inv (c : UtteranceConfusionNetwork.t Q)
    (open_hyp : list (Q * hyp_index))
    (closed_hyp : list (hyp_index * Q)) : Prop := {
  inv_open : Forall (entry_ok c) open_hyp;
  inv_open_sorted : StronglySorted open_desc open_hyp;
  inv_closed : Forall (fun hp => get_prob c hp.1 = Ok hp.2) closed_hyp;
  inv_closed_sorted : StronglySorted closed_desc closed_hyp;
  inv_bound : forall hp ph, hp ∈ closed_hyp -> ph ∈ open_hyp -> (ph.1 <= hp.2)%Q
}.

(** A decision procedure for the precondition, for concrete networks. *)
Fixpoint probs_desc (ps : list Q) : bool :=
  match ps with
  | [] => true
  | p :: ps' => forallb (fun q => Qle_bool q p) ps' && probs_desc ps'
  end.

Definition slot_sortedb (alts : list (Q * word)) : bool :=
  probs_desc (map fst alts) && forallb (fun pw : Q * word => Qle_bool 0 pw.1) alts.

(** ** Sample confusion networks *)

(** A confusion network with the single slot [(0.0005, "a")], pruned at the
    default [0.001]. *)
Definition faint_confnet : UtteranceConfusionNetwork.t Q :=
  {| _abstr_idxs := []; _cn := [[(5 # 10000, "a"%string)]];
     _wordset := {["a"%string]}; _long_links := [[]] |}.

(** Two slots, "a" or "b" followed by "x" or "y". *)
Definition two_slots : UtteranceConfusionNetwork.t Q :=
  {| _abstr_idxs := [];
     _cn := [[(6 # 10, "a"); (4 # 10, "b")]; [(7 # 10, "x"); (3 # 10, "y")]]%string;
     _wordset := {["a"; "b"; "x"; "y"]}%string;
     _long_links := [[]; []] |}.

(** The one-slot confusion network whose only alternative is "a". *)
Definition only_a : UtteranceConfusionNetwork.t Q :=
  {| _abstr_idxs := []; _cn := [[(1%Q, "a"%string)]];
     _wordset := {["a"%string]}; _long_links := [[]] |}.


(** Two slots crossed by one long link, masses 2 and 4. *)
Definition linked : UtteranceConfusionNetwork.t Q :=
  {| _abstr_idxs := [];
     _cn := [[(1%Q, "b")]; [(3%Q, "y")]]%string;
     _wordset := {["b"; "y"; "ax"]}%string;
     _long_links :=
       [[{| end_ := 2; orig_probs := [1%Q; 1%Q]; hyp := (1%Q, ["ax"%string]) |}]; []] |}.

(** Three slots with one word each, "a b c". *)
Definition three_words : UtteranceConfusionNetwork.t Q :=
  {| _abstr_idxs := [];
     _cn := [[(1%Q, "a")]; [(1%Q, "b")]; [(1%Q, "c")]]%string;
     _wordset := {["a"; "b"; "c"]}%string;
     _long_links := [[]; []; []] |}.

(** One slot holding the smallest positive binary64 number. *)
Definition tiny_mass : UtteranceConfusionNetwork.t float :=
  {| _abstr_idxs := [];
     _cn := [[(0x1p-1074%float, "a"%string)]];
     _wordset := {["a"%string]};
     _long_links := [[]] |}.

(** One slot holding 2^1023 twice. *)
Definition huge_mass : UtteranceConfusionNetwork.t float :=
  {| _abstr_idxs := [];
     _cn := [[(0x1p1023%float, "a"); (0x1p1023%float, "b")]]%string;
     _wordset := {["a"; "b"]}%string;
     _long_links := [[]] |}.

(** Two slots, "a" or "b" followed by "x" or "y", with the probabilities
    given. *)
Definition crossing {R : Type} (a b x y : R) : UtteranceConfusionNetwork.t R :=
  {| _abstr_idxs := [];
     _cn := [[(a, "a"); (b, "b")]; [(x, "x"); (y, "y")]]%string;
     _wordset := {["a"; "b"; "x"; "y"]}%string;
     _long_links := [[]; []] |}.

(** The probabilities (1 + 2^-52)/2 and 1/2, then 1/2 and (1 - 2^-53)/2: the
    products for "a y" and "b x" differ by less than binary64 can tell. *)
Definition near_tie_exact : UtteranceConfusionNetwork.t Q :=
  crossing (4503599627370497 # 9007199254740992) (1 # 2)
           (1 # 2) (9007199254740991 # 18014398509481984).

Definition near_tie_float : UtteranceConfusionNetwork.t float :=
  crossing 0x1.0000000000001p-1%float 0x1p-1%float
           0x1p-1%float 0x1.fffffffffffffp-2%float.

(** A long link that carries the phrase "New York" over two slots. *)
Definition capital_link : UtteranceConfusionNetwork.t Q :=
  {| _abstr_idxs := [];
     _cn := [[(1 # 2, "in")]; [(1 # 2, "a")]]%string;
     _wordset := {["in"; "a"; "New"; "York"]}%string;
     _long_links :=
       [[{| end_ := 2; orig_probs := [1 # 2; 1 # 2];
            hyp := (1 # 2, ["New"; "York"]%string) |}]; []] |}.

(** A stand-in for [lower()] that knows the words "New" and "York". *)
Definition lower_new_york (w : word) : word :=
  if String.eqb w "New" then "new"%string
  else if String.eqb w "York" then "york"%string
  else w.

(** The utterance "New York", its list at address 0. *)
Definition new_york_lists : UtteranceInPlace.lists :=
  {[0%nat := ["New"; "York"]%string]}.

Definition new_york : UtteranceInPlace.t :=
  {| UtteranceInPlace._utterance := 0%nat;
     UtteranceInPlace._wordset := list_to_set ["New"; "York"]%string;
     UtteranceInPlace._abstr_idxs := [] |}.

(** One slot with the weights 1 and 5, in binary64. *)
Definition one_to_five : UtteranceConfusionNetwork.t float :=
  {| _abstr_idxs := [];
     _cn := [[(1%float, "a"); (5%float, "b")]]%string;
     _wordset := {["a"; "b"]}%string;
     _long_links := [[]] |}.

(** ** Words and white space *)

(** A word that [split] hands back as it is: not empty, and free of white
    space ([is_space]). *)
Definition plain_word (w : word) : Prop :=
  w <> ""%string /\ Forall (fun ch => is_space ch = false) (list_ascii_of_string w).

(** ** Shared word lists *)

(** The word set of an utterance is the set of the words its list holds. *)
Definition in_step (st : UtteranceInPlace.lists) (u : UtteranceInPlace.t) : Prop :=
  exists ws,
    st !! UtteranceInPlace._utterance u = Some ws
    /\ UtteranceInPlace._wordset u = list_to_set ws.

(** ** Abstracted indices *)

(** The indices behind a replaced phrase, moved to where the words they
    point to went. *)
Definition shifted (startidx len_orig : Z) (idxs : list Z) : list Z :=
  map (fun i => i + (1 - len_orig)) (filter (fun i => startidx + len_orig < i) idxs).

(** What [AbstractedUtterance.replace] makes of an increasing index list when
    it replaces [len_orig] words at [startidx]. *)
Definition collapsed (startidx len_orig : Z) (idxs : list Z) : list Z :=
  filter (fun i => i < startidx) idxs ++ [startidx] ++ shifted startidx len_orig idxs.

(** * Properties *)

(** ** The error monad *)

Lemma bind_Ok {A B} (a : A) (f : A -> result B) : (Ok a ≫= f) = f a.
Proof. reflexivity. Qed.

Lemma bind_Raise {A B} (e : exn) (f : A -> result B) : (Raise e ≫= f) = Raise e.
Proof. reflexivity. Qed.

Lemma bind_OutOfFuel {A B} (f : A -> result B) : (OutOfFuel ≫= f) = OutOfFuel.
Proof. reflexivity. Qed.

Lemma bind_Ok_inv {A B} (m : result A) (f : A -> result B) (b : B) :
  (m ≫= f) = Ok b -> exists a, m = Ok a /\ f a = Ok b.
Proof. destruct m; simpl; intros E; try discriminate. eauto. Qed.

Ltac simpl_result :=
  repeat (first [rewrite bind_Ok | rewrite bind_Raise | rewrite bind_OutOfFuel];
          cbv beta zeta).

(** ** Python sequences *)

Lemma len_nonneg {A} (l : list A) : 0 <= len l.
Proof. unfold len. lia. Qed.

Lemma len_cons {A} (x : A) (l : list A) : len (x :: l) = len l + 1.
Proof. unfold len. simpl. lia. Qed.

Lemma getitem_nil {A} (i : Z) : getitem (@nil A) i = Raise IndexError.
Proof.
  unfold getitem. by destruct (_ && _).
Qed.

Lemma getitem_0_cons {A} (x : A) (l : list A) : getitem (x :: l) 0 = Ok x.
Proof.
  unfold getitem. rewrite len_cons. simpl.
  pose proof (len_nonneg l).
  replace (0 <? len l + 1) with true by lia. reflexivity.
Qed.

Lemma getitem_outcome {A} (l : list A) (i : Z) :
  (exists x, getitem l i = Ok x /\ x ∈ l) \/ getitem l i = Raise IndexError.
Proof.
  unfold getitem.
  destruct ((0 <=? _) && _); [|by right].
  destruct (l !! _) eqn:E; [|by right].
  left. eexists. split; [reflexivity|]. by eapply list_elem_of_lookup_2.
Qed.

(** ** [Utterance.find] *)

Example split_example :
  split "book a table  for two " = ["book"; "a"; "table"; "for"; "two"]%string.
Proof. reflexivity. Qed.

(** ** [prune] *)

Section Prune.
Context {R : Type} `{Arith R}.

Lemma prune_keeps_outcome (prune_prob : R) (alts : list (R * word)) :
  (exists b, prune_keeps prune_prob alts = Ok b)
  \/ prune_keeps prune_prob alts = Raise IndexError.
Proof.
  unfold prune_keeps.
  destruct alts as [|first alts]; [right; by rewrite getitem_nil|].
  rewrite getitem_0_cons. simpl_result.
  destruct (_ && _); [left; eauto|].
  destruct (filter _ _) as [|pfirst pruned]; [right; by rewrite getitem_nil|].
  rewrite getitem_0_cons. simpl_result.
  destruct (_ && _); left; eauto.
Qed.

Lemma prune_keeps_all_below (prune_prob : R) (first : R * word)
    (alts : list (R * word)) :
  bool_decide (first.2 = ""%string) && r_ltb (r_sub r_one prune_prob) first.1 = false ->
  Forall (fun pw : R * word => r_ltb pw.1 prune_prob = true) (first :: alts) ->
  prune_keeps prune_prob (first :: alts) = Raise IndexError.
Proof.
  intros Hsil Hall. unfold prune_keeps.
  rewrite getitem_0_cons. simpl_result. rewrite Hsil.
  assert (filter (fun pw : R * word => r_ltb pw.1 prune_prob = false) (first :: alts) = [])
    as ->.
  { induction Hall as [|pw l Hpw _ IH]; [done|].
    rewrite filter_cons_False; [exact IH|]. congruence. }
  by rewrite getitem_nil.
Qed.

Lemma prune_loop_raises (prune_prob : R) (before after : list (list (R * word)))
    (alts : list (R * word)) :
  prune_keeps prune_prob alts = Raise IndexError ->
  prune_loop prune_prob (before ++ alts :: after) = Raise IndexError.
Proof.
  intros Halts. induction before as [|slot before IH]; simpl.
  - by rewrite Halts.
  - destruct (prune_keeps_outcome prune_prob slot) as [[b ->]| ->]; [|done].
    simpl_result. by rewrite IH.
Qed.

End Prune.

(** C10.  [prune] is not total.  Whenever some slot has a first alternative
    that is not high-probability silence and every alternative of the slot
    lies below [prune_prob], the filtered list of that slot is empty, the access
    to its first element is out of range, and the call fails with
    [IndexError] instead of returning. *)
Theorem prune_raises_IndexError {R : Type} `{Arith R}
    (self : UtteranceConfusionNetwork.t R) (prune_prob : R)
    (before after : list (list (R * word))) (first : R * word)
    (alts : list (R * word)) :
  _cn self = before ++ (first :: alts) :: after ->
  bool_decide (first.2 = ""%string) && r_ltb (r_sub r_one prune_prob) first.1 = false ->
  Forall (fun pw : R * word => r_ltb pw.1 prune_prob = true) (first :: alts) ->
  prune self prune_prob = Raise IndexError.
Proof.
  intros Hcn Hsil Hall. unfold prune. rewrite Hcn.
  rewrite prune_loop_raises; [done|].
  by apply prune_keeps_all_below.
Qed.

Lemma prune_raises_IndexError_witness :
  prune faint_confnet (1 # 1000) = Raise IndexError.
Proof.
  apply (prune_raises_IndexError faint_confnet (1 # 1000) [] []
           (5 # 10000, "a"%string) []).
  - reflexivity.
  - reflexivity.
  - repeat constructor.
Defined.

(** C5.  [prune] tests the filtered alternatives of a slot but appends the
    slot as it was: here the alternative [(0.0005, "b")], below the floor
    [0.001], is still in the pruned confusion network. *)
Theorem prune_keeps_low_alternative :
  exists c',
    prune {| _abstr_idxs := [];
             _cn := [[(9995 # 10000, "a"%string); (5 # 10000, "b"%string)]];
             _wordset := {["a"%string; "b"%string]};
             _long_links := [[]] |} (1 # 1000) = Ok c'
    /\ _cn c' = [[(9995 # 10000, "a"%string); (5 # 10000, "b"%string)]]
    /\ r_ltb (5 # 10000) (1 # 1000) = true.
Proof. eexists. split; [reflexivity|]. split; reflexivity. Qed.

(** C7.  Unigrams with boundaries: the closing window is the whole utterance
    followed by the end marker, three tokens instead of one. *)
Theorem iter_ngrams_unigram_with_boundaries :
  Utterance.iter_ngrams (Utterance.init "a b") 1 true
  = [["<s>"]; ["a"]; ["b"]; ["a"; "b"; "</s>"]]%string.
Proof. reflexivity. Qed.

(** ** Membership-set short circuit *)

Lemma all_in_wordset_true (wordset : gset word) (phrase : list word) :
  all_in_wordset wordset phrase = true <-> forall w, w ∈ phrase -> w ∈ wordset.
Proof.
  unfold all_in_wordset. rewrite forallb_forall. split.
  - intros Hall w Hw. apply list_elem_of_In in Hw.
    specialize (Hall w Hw). by apply bool_decide_eq_true in Hall.
  - intros Hall w Hw. apply bool_decide_eq_true, Hall. by apply list_elem_of_In.
Qed.

Lemma all_in_wordset_false (wordset : gset word) (phrase : list word) :
  (exists w, w ∈ phrase /\ w ∉ wordset) -> all_in_wordset wordset phrase = false.
Proof.
  intros (w & Hw & Hnot).
  destruct (all_in_wordset wordset phrase) eqn:E; [|done].
  exfalso. apply Hnot. by eapply all_in_wordset_true.
Qed.

(** C6, as the code has it.  [get_phrase_idxs] answers an empty phrase with
    the one-element result [[(start, 0, 0)]]; for a non-empty phrase it returns
    the empty result when [end <= start] or when a word of the phrase is
    missing from the word set.  [Utterance.find] returns [-1] for every
    non-empty phrase with a word outside the word set of the utterance. *)
Theorem get_phrase_idxs_fast_reject {R : Type} `{Arith R} (depth : nat)
    (self : UtteranceConfusionNetwork.t R) (phrase : list word)
    (start : Z) (end_ : option Z) (start_in_midlinks : bool) :
  (phrase = [] ->
     get_phrase_idxs depth self phrase start end_ start_in_midlinks
     = Ok [(start, 0, 0)])
  /\ (phrase <> [] ->
      default (len (_cn self)) end_ <= start
      \/ (exists w, w ∈ phrase /\ w ∉ _wordset self) ->
      get_phrase_idxs depth self phrase start end_ start_in_midlinks = Ok [])
  /\ (forall (u : Utterance.t) (p : list word),
        p <> [] ->
        (exists w, w ∈ p /\ w ∉ Utterance._wordset u) ->
        Utterance.find u p = Ok (-1)).
Proof.
  split; [|split].
  - intros ->. by destruct depth.
  - intros Hne Hcase. destruct phrase as [|word0 phrase]; [done|].
    destruct depth; cbn [get_phrase_idxs].
    all: destruct Hcase as [Hend|Hw];
      [ destruct end_ as [e|]; simpl in Hend;
          (destruct (_ <=? start) eqn:E; [done|lia])
      | rewrite (all_in_wordset_false _ _ Hw); simpl;
          by destruct (_ <=? start) ].
  - intros u p Hne Hw. destruct p as [|initial p]; [done|].
    unfold Utterance.find. by rewrite (all_in_wordset_false _ _ Hw).
Qed.

Lemma get_phrase_idxs_fast_reject_witness :
  get_phrase_idxs 0 two_slots [] 1 None true = Ok [(1, 0, 0)]
  /\ get_phrase_idxs 0 two_slots ["a"; "x"]%string 2 None true = Ok []
  /\ get_phrase_idxs 0 two_slots ["a"; "z"]%string 0 None true = Ok []
  /\ Utterance.find (Utterance.init "book a table") ["table"; "three"]%string = Ok (-1).
Proof.
  destruct (get_phrase_idxs_fast_reject 0 two_slots [] 1 None true) as (H1 & _ & _).
  destruct (get_phrase_idxs_fast_reject 0 two_slots ["a"; "x"]%string 2 None true)
    as (_ & H2 & _).
  destruct (get_phrase_idxs_fast_reject 0 two_slots ["a"; "z"]%string 0 None true)
    as (_ & H3 & H4).
  split; [by apply H1|].
  split; [apply H2; [done|left; vm_compute; discriminate]|].
  split.
  - apply H3; [done|]. right. exists "z"%string. split; [set_solver|].
    vm_compute. intros E. discriminate E.
  - apply H4; [done|]. exists "three"%string. split; [set_solver|].
    vm_compute. intros E. discriminate E.
Defined.

(** C6, as stated, fails: the result for the empty phrase is not empty. *)
Lemma get_phrase_idxs_empty_phrase_not_empty :
  ~ (forall (depth : nat) (self : UtteranceConfusionNetwork.t Q) (start : Z)
            (end_ : option Z) (start_in_midlinks : bool),
       get_phrase_idxs depth self [] start end_ start_in_midlinks = Ok []).
Proof.
  intros Hall. specialize (Hall O two_slots 0 None true). discriminate Hall.
Qed.

(** ** Feature extraction *)

(** C9, as the code has it.  With a feature type other than ['ngram'], [parse]
    fails with [NotImplementedError] on every non-empty utterance and on
    every non-empty confusion network; on an empty input it returns, having
    added 1.0 to the feature ['__empty__'], whatever the type. *)
Theorem parse_unsupported_type {R : Type} `{Arith R} (ty : string) :
  ty <> "ngram"%string ->
  (forall (self : UtteranceFeatures.t R) (u : Utterance.t) (with_boundaries : bool),
     UtteranceFeatures.type self = ty ->
     UtteranceFeatures.parse self u with_boundaries
     = if Utterance.isempty u
       then Ok (UtteranceFeatures.set_features self
                  (incr (FName "__empty__") r_one (UtteranceFeatures.features self)))
       else Raise NotImplementedError)
  /\ (forall (root : Z -> R -> R) (depth : nat)
             (self : UtteranceConfusionNetworkFeatures.t R)
             (confnet : UtteranceConfusionNetwork.t R),
        UtteranceConfusionNetworkFeatures.type self = ty ->
        UtteranceConfusionNetworkFeatures.parse root depth self confnet
        = if isempty confnet
          then Ok (UtteranceConfusionNetworkFeatures.set_features self
                     (incr (FName "__empty__") r_one
                        (UtteranceConfusionNetworkFeatures.features self)))
          else Raise NotImplementedError).
Proof.
  intros Hty. split.
  - intros self u wb <-. unfold UtteranceFeatures.parse.
    destruct (Utterance.isempty u); [done|].
    by rewrite bool_decide_eq_false_2.
  - intros root depth self confnet <-.
    unfold UtteranceConfusionNetworkFeatures.parse.
    destruct (isempty confnet).
    + simpl_result. rewrite bool_decide_eq_false_2; [done|].
      unfold incr. intros Hsize. apply map_size_empty_iff in Hsize.
      by apply insert_non_empty in Hsize.
    + by rewrite bool_decide_eq_false_2.
Qed.

Lemma parse_unsupported_type_witness :
  UtteranceFeatures.parse
    {| UtteranceFeatures.type := "bow"; UtteranceFeatures.size := 3;
       UtteranceFeatures.features := (∅ : gmap feature Q) |}
    (Utterance.init "book a table") true = Raise NotImplementedError
  /\ UtteranceConfusionNetworkFeatures.parse (fun _ p => p) 3
       {| UtteranceConfusionNetworkFeatures.type := "bow";
          UtteranceConfusionNetworkFeatures.size := 3;
          UtteranceConfusionNetworkFeatures.features := (∅ : gmap feature Q) |}
       two_slots = Raise NotImplementedError.
Proof.
  assert ("bow" <> "ngram")%string as Hty by discriminate.
  destruct (parse_unsupported_type (R:=Q) "bow" Hty) as [Hutt Hcn].
  split.
  - apply Hutt. reflexivity.
  - apply Hcn. reflexivity.
Defined.

(** C9, as stated, fails: an empty utterance is parsed without error
    whatever the feature type. *)
Lemma parse_empty_utterance_any_type :
  ~ (forall (self : UtteranceFeatures.t Q) (u : Utterance.t) (with_boundaries : bool),
       UtteranceFeatures.type self <> "ngram"%string ->
       UtteranceFeatures.parse self u with_boundaries = Raise NotImplementedError).
Proof.
  intros Hall.
  specialize (Hall {| UtteranceFeatures.type := "bow"; UtteranceFeatures.size := 3;
                      UtteranceFeatures.features := ∅ |}
                   (Utterance.init "") true).
  simpl in Hall. specialize (Hall ltac:(discriminate)).
  discriminate Hall.
Qed.

(** ** Leftmost occurrence *)

Lemma occurs_at_lookup (utt p : list word) (i : nat) :
  occurs_at utt p i <->
  forall k, (k < length p)%nat -> utt !! (i + k)%nat = p !! k.
Proof.
  unfold occurs_at. split.
  - intros E k Hk.
    transitivity (take (length p) (drop i utt) !! k); [|by rewrite E].
    rewrite lookup_take_lt by done. by rewrite lookup_drop.
  - intros Hall. apply list_eq. intros k.
    destruct (decide (k < length p)%nat) as [Hk|Hk].
    + rewrite lookup_take_lt by done. rewrite lookup_drop. by apply Hall.
    + rewrite lookup_take_ge by lia. symmetry. apply lookup_ge_None_2. lia.
Qed.

Lemma occurs_at_bound (utt p : list word) (i : nat) :
  p <> [] -> occurs_at utt p i -> (i + length p <= length utt)%nat.
Proof.
  unfold occurs_at. intros Hne E.
  assert (0 < length p)%nat by (destruct p; [done|simpl; lia]).
  assert (length (take (length p) (drop i utt)) = length p) as Hlen by by rewrite E.
  rewrite length_take, length_drop in Hlen. lia.
Qed.

Lemma occurs_at_words (utt p : list word) (i : nat) (w : word) :
  occurs_at utt p i -> w ∈ p -> w ∈ utt.
Proof.
  intros Hocc Hw. apply list_elem_of_lookup in Hw as [k Hk].
  pose proof (lookup_lt_Some _ _ _ Hk) as Hlt.
  rewrite occurs_at_lookup in Hocc. specialize (Hocc k Hlt).
  rewrite Hk in Hocc. by eapply list_elem_of_lookup_2.
Qed.

Lemma next_occurrence_None (initial : word) (rest : list word) (c : Z) :
  Utterance.next_occurrence initial rest c = None -> initial ∉ rest.
Proof.
  revert c. induction rest as [|w rest IH]; intros c; simpl.
  - intros _. apply not_elem_of_nil.
  - case_bool_decide; [done|]. intros E. apply not_elem_of_cons. split; [done|].
    by eapply IH.
Qed.

Lemma next_occurrence_Some (initial : word) (rest : list word) (c k : Z) :
  Utterance.next_occurrence initial rest c = Some k ->
  c <= k /\ forall j, (Z.of_nat j < k - c) -> rest !! j <> Some initial.
Proof.
  revert c. induction rest as [|w rest IH]; intros c; simpl; [done|].
  case_bool_decide as Hw.
  - intros [= <-]. split; [lia|]. intros j Hj. lia.
  - intros E. destruct (IH _ E) as [Hle Hbefore]. split; [lia|].
    intros [|j] Hj; simpl; [congruence|]. apply Hbefore. lia.
Qed.

(** Below [max_skip], the phrase does not repeat its initial word. *)
Lemma max_skip_spec (initial : word) (rest : list word) :
  1 <= Utterance.max_skip (initial :: rest)
  /\ forall j, (1 <= j)%nat -> Z.of_nat j < Utterance.max_skip (initial :: rest) ->
       (initial :: rest) !! j <> Some initial.
Proof.
  unfold Utterance.max_skip.
  destruct (Utterance.next_occurrence initial rest 1) as [k|] eqn:E.
  - apply next_occurrence_Some in E as [Hle Hbefore]. split; [done|].
    intros [|j] Hj1 Hj; [lia|]. simpl. apply Hbefore. lia.
  - apply next_occurrence_None in E. split; [rewrite len_cons; pose proof (len_nonneg rest); lia|].
    intros [|j] Hj1 _; [lia|]. simpl. intros Hj. apply E.
    by eapply list_elem_of_lookup_2.
Qed.

Lemma first_mismatch_None (utt p : list word) (m a : Z) (n : nat) :
  Utterance.first_mismatch utt p m (seqZ a (Z.of_nat n)) = None ->
  forall k, a <= k < a + Z.of_nat n ->
    utt !! Z.to_nat (m + k) = p !! Z.to_nat k.
Proof.
  revert a. induction n as [|n IH]; intros a; [intros _ k Hk; lia|].
  rewrite seqZ_cons by lia. simpl. case_bool_decide as Hhere; [|done].
  replace (Z.pred (Z.of_nat (S n))) with (Z.of_nat n) by lia.
  intros E k Hk. destruct (decide (k = a)) as [->|Hne]; [done|].
  apply (IH _ E). lia.
Qed.

Lemma first_mismatch_Some (utt p : list word) (m a : Z) (n : nat) (k : Z) :
  Utterance.first_mismatch utt p m (seqZ a (Z.of_nat n)) = Some k ->
  a <= k < a + Z.of_nat n
  /\ utt !! Z.to_nat (m + k) <> p !! Z.to_nat k
  /\ forall k', a <= k' < k -> utt !! Z.to_nat (m + k') = p !! Z.to_nat k'.
Proof.
  revert a. induction n as [|n IH]; intros a; [done|].
  rewrite seqZ_cons by lia. simpl. case_bool_decide as Hhere.
  - replace (Z.pred (Z.of_nat (S n))) with (Z.of_nat n) by lia.
    intros E. destruct (IH _ E) as (Hk & Hmis & Hbefore).
    split; [lia|]. split; [done|].
    intros k' Hk'. destruct (decide (k' = a)) as [->|Hne]; [done|].
    apply Hbefore. lia.
  - intros [= <-]. split; [lia|]. split; [done|]. intros k' Hk'. lia.
Qed.

Section FindLoop.
Variable utt : list word.
Variable initial : word.
Variable rest : list word.

Let p := initial :: rest.
Let last_idx := len utt - len p.

Lemma xrange_phrase : xrange 1 (len p) = seqZ 1 (Z.of_nat (length rest)).
Proof. unfold xrange, p, len. simpl. f_equal. lia. Qed.

Lemma no_occurrence_past_last (m : Z) :
  0 <= m -> last_idx < m ->
  (forall j, (j < Z.to_nat m)%nat -> ~ occurs_at utt p j) ->
  forall i, ~ occurs_at utt p i.
Proof.
  intros Hm Hlast Hbefore i Hocc.
  destruct (decide (i < Z.to_nat m)%nat) as [Hi|Hi]; [by eapply Hbefore|].
  apply occurs_at_bound in Hocc; [|done]. unfold last_idx, len in Hlast. lia.
Qed.

Lemma no_occurrence_wrong_initial (m : nat) :
  utt !! m <> Some initial -> ~ occurs_at utt p m.
Proof.
  intros Hne Hocc. rewrite occurs_at_lookup in Hocc.
  specialize (Hocc 0%nat). rewrite Nat.add_0_r in Hocc.
  apply Hne, Hocc. simpl. lia.
Qed.

(** The skip after a partial match jumps over no occurrence. *)
Lemma no_occurrence_skipped (m phrase_idx : Z) (j : nat) :
  0 <= m ->
  1 <= phrase_idx < len p ->
  utt !! Z.to_nat (m + phrase_idx) <> p !! Z.to_nat phrase_idx ->
  (forall k', 1 <= k' < phrase_idx -> utt !! Z.to_nat (m + k') = p !! Z.to_nat k') ->
  (Z.to_nat m <= j)%nat ->
  Z.of_nat j < m + Z.min (Utterance.max_skip p) phrase_idx ->
  ~ occurs_at utt p j.
Proof.
  intros Hm Hidx Hmis Hbefore Hlo Hhi Hocc.
  destruct (decide (j = Z.to_nat m)) as [->|Hne].
  - rewrite occurs_at_lookup in Hocc.
    specialize (Hocc (Z.to_nat phrase_idx)).
    apply Hmis. replace (Z.to_nat (m + phrase_idx)) with (Z.to_nat m + Z.to_nat phrase_idx)%nat by lia.
    apply Hocc. unfold len in Hidx. lia.
  - set (d := (j - Z.to_nat m)%nat).
    destruct (max_skip_spec initial rest) as [_ Hskip].
    apply (Hskip d); [lia|fold p; lia|].
    fold p. specialize (Hbefore (Z.of_nat d) ltac:(lia)).
    rewrite Nat2Z.id in Hbefore. rewrite <- Hbefore.
    replace (Z.to_nat (m + Z.of_nat d)) with j by lia.
    rewrite occurs_at_lookup in Hocc. specialize (Hocc 0%nat).
    rewrite Nat.add_0_r in Hocc. apply Hocc. simpl. lia.
Qed.

Lemma find_loop_leftmost (fuel : nat) (m : Z) :
  0 <= m ->
  last_idx + 1 - m < Z.of_nat fuel ->
  (0 < fuel)%nat ->
  (forall j, (j < Z.to_nat m)%nat -> ~ occurs_at utt p j) ->
  exists r,
    Utterance.find_loop fuel utt p initial (Utterance.max_skip p) last_idx m = Ok r
    /\ leftmost utt p r.
Proof.
  revert m. induction fuel as [|fuel IH]; intros m Hm Hfuel Hpos Hbefore; [lia|].
  cbn [Utterance.find_loop]. destruct (m <=? last_idx) eqn:Hle.
  - apply Z.leb_le in Hle.
    case_bool_decide as Hinit.
    + destruct (Utterance.first_mismatch _ _ _ _) as [phrase_idx|] eqn:Hmm.
      * rewrite xrange_phrase in Hmm.
        apply first_mismatch_Some in Hmm as (Hidx & Hmis & Hmatched).
        destruct (max_skip_spec initial rest) as [Hskip1 _]. fold p in Hskip1.
        apply IH; [lia|lia|lia|].
        intros j Hj. destruct (decide (j < Z.to_nat m)%nat) as [Hlt|Hge].
        { by apply Hbefore. }
        apply (no_occurrence_skipped m phrase_idx); try done; try lia.
        unfold p. rewrite len_cons. unfold len. lia.
      * rewrite xrange_phrase in Hmm.
        exists m. split; [done|]. right. split; [done|]. split; [|done].
        apply occurs_at_lookup. intros [|k] Hk.
        { rewrite Nat.add_0_r. by rewrite Hinit. }
        pose proof (first_mismatch_None _ _ _ _ _ Hmm (Z.of_nat (S k))) as Hk'.
        rewrite Nat2Z.id in Hk'. rewrite <- Hk' by (simpl in Hk; lia).
        f_equal. lia.
    + apply IH; [lia|lia|lia|].
      intros j Hj. destruct (decide (j < Z.to_nat m)%nat) as [Hlt|Hge].
      { by apply Hbefore. }
      replace j with (Z.to_nat m) by lia.
      by apply no_occurrence_wrong_initial.
  - apply Z.leb_gt in Hle. exists (-1). split; [done|]. left. split; [done|].
    by apply (no_occurrence_past_last m).
Qed.

End FindLoop.

Lemma find_returns (u : Utterance.t) (p : list word) :
  p <> [] ->
  exists r, Utterance.find u p = Ok r
    /\ (all_in_wordset (Utterance._wordset u) p = false -> r = -1)
    /\ (all_in_wordset (Utterance._wordset u) p = true ->
        leftmost (Utterance._utterance u) p r).
Proof.
  intros Hne. destruct p as [|initial rest]; [done|].
  unfold Utterance.find.
  destruct (all_in_wordset _ _) eqn:Hall; simpl.
  - destruct (find_loop_leftmost (Utterance._utterance u) initial rest
                (S (length (Utterance._utterance u))) 0) as (r & Hr & Hspec).
    + lia.
    + rewrite len_cons. unfold len. lia.
    + lia.
    + intros j Hj. simpl in Hj. lia.
    + exists r. split; [exact Hr|]. split; [done|]. intros _. exact Hspec.
  - exists (-1). split; [done|]. split; [done|]. done.
Qed.


(** C4.  On an utterance whose word set is the set of its words,
    [find] returns the smallest position at which the phrase occurs, and
    [-1] when it occurs nowhere; the skip after a partial match changes
    nothing.  In particular the phrase "table for" is found at 2 in
    "book a table for two". *)
Theorem find_leftmost_occurrence (u : Utterance.t) (p : list word) :
  Utterance.wf u ->
  p <> [] ->
  (exists r, Utterance.find u p = Ok r /\ leftmost (Utterance._utterance u) p r)
  /\ Utterance.find (Utterance.init "book a table for two") ["table"; "for"]%string
     = Ok 2.
Proof.
  intros Hwf Hne. split; [|reflexivity].
  destruct (find_returns u p Hne) as (r & Hr & Hreject & Hscan).
  exists r. split; [exact Hr|].
  destruct (all_in_wordset (Utterance._wordset u) p) eqn:Hall; [by apply Hscan|].
  rewrite (Hreject eq_refl). left. split; [done|].
  intros i Hocc.
  assert (all_in_wordset (Utterance._wordset u) p = true) as Habs; [|congruence].
  apply all_in_wordset_true. intros w Hw. rewrite Hwf.
  apply elem_of_list_to_set. by eapply occurs_at_words.
Qed.

Lemma find_leftmost_occurrence_witness :
  (exists r, Utterance.find (Utterance.init "a b a b c") ["a"; "b"; "c"]%string = Ok r
     /\ leftmost ["a"; "b"; "a"; "b"; "c"]%string ["a"; "b"; "c"]%string r)
  /\ Utterance.find (Utterance.init "book a table for two") ["table"; "for"]%string
     = Ok 2.
Proof.
  apply (find_leftmost_occurrence (Utterance.init "a b a b c") ["a"; "b"; "c"]%string).
  - reflexivity.
  - discriminate.
Defined.

(** ** [index] and [find] *)

Lemma no_ValueError_Ok {A} (a : A) : no_ValueError (Ok a).
Proof. done. Qed.

Lemma no_ValueError_bind {A B} (m : result A) (f : A -> result B) :
  no_ValueError m -> (forall a, no_ValueError (f a)) -> no_ValueError (m ≫= f).
Proof.
  intros Hm Hf. destruct m as [a|e|]; simpl; [apply Hf| |done].
  intros [= ->]. by apply Hm.
Qed.

Lemma no_ValueError_getitem {A} (l : list A) (i : Z) : no_ValueError (getitem l i).
Proof.
  destruct (getitem_outcome l i) as [(x & -> & _)| ->]; done.
Qed.

Lemma no_ValueError_for_each {X S A} (xs : list X) (s : S)
    (body : X -> S -> result (ctl S A)) :
  (forall x s', no_ValueError (body x s')) ->
  no_ValueError (for_each xs s body).
Proof.
  intros Hbody. revert s. induction xs as [|x xs IH]; intros s; simpl; [done|].
  apply no_ValueError_bind; [apply Hbody|].
  intros [s'|a]; [apply IH|done].
Qed.

Ltac no_value_error :=
  repeat first
    [ apply no_ValueError_Ok
    | apply no_ValueError_getitem
    | apply no_ValueError_bind; [|intros ?]
    | apply no_ValueError_for_each; intros ? ?
    | match goal with
      | |- no_ValueError (if ?b then _ else _) => destruct b
      | |- no_ValueError (match ?x with _ => _ end) => destruct x
      end
    | done ].

Section NoValueError.
Context {R : Type} `{Arith R}.
Variable sub : list word -> Z -> Z -> result (list idx).
Hypothesis sub_ok : forall p s e, no_ValueError (sub p s e).

Lemma no_ValueError_match_from (self : UtteranceConfusionNetwork.t R)
    (phrase : list word) (word0 : word) (endw start : Z) :
  no_ValueError (match_from sub self phrase word0 endw start).
Proof.
  unfold match_from, match_arcs, match_links.
  no_value_error; apply sub_ok.
Qed.

Lemma no_ValueError_match_midlinks (self : UtteranceConfusionNetwork.t R)
    (phrase : list word) (endw start : Z) (l_idx : option Z) :
  no_ValueError (match_midlinks sub self phrase endw start l_idx).
Proof.
  unfold match_midlinks.
  no_value_error; apply sub_ok.
Qed.

End NoValueError.

Lemma no_ValueError_get_phrase_idxs {R : Type} `{Arith R} (depth : nat)
    (self : UtteranceConfusionNetwork.t R) (phrase : list word) (start : Z)
    (end_ : option Z) (start_in_midlinks : bool) :
  no_ValueError (get_phrase_idxs depth self phrase start end_ start_in_midlinks).
Proof.
  revert phrase start end_ start_in_midlinks.
  induction depth as [|depth IH]; intros phrase start end_ mid;
    cbn [get_phrase_idxs]; destruct phrase as [|word0 phrase]; try done.
  - destruct (_ <=? start); [done|]. destruct (negb _); [done|].
    apply no_ValueError_bind; [by apply no_ValueError_match_from|].
    intros [l_idx|found]; [|done]. destruct mid; [|done].
    apply no_ValueError_bind; [by apply no_ValueError_match_midlinks|].
    by intros [].
  - destruct (_ <=? start); [done|]. destruct (negb _); [done|].
    apply no_ValueError_bind.
    { apply no_ValueError_match_from. intros p s e. apply IH. }
    intros [l_idx|found]; [|done]. destruct mid; [|done].
    apply no_ValueError_bind.
    { apply no_ValueError_match_midlinks. intros p s e. apply IH. }
    by intros [].
Qed.

(** C8.  [Utterance.index] fails with [ValueError] exactly when
    [Utterance.find] returns [-1], and returns what [find] returns otherwise;
    [find] itself always returns.  The same holds between
    [UtteranceConfusionNetwork.index] (whatever [start] and [end] it is
    given) and [UtteranceConfusionNetwork.find] with its default bounds, and
    that [find] answers absence with [-1], never with [ValueError]. *)
Theorem index_raises_iff_find_fails {R : Type} `{Arith R}
    (u : Utterance.t) (p : list word) :
  p <> [] ->
  (exists r, Utterance.find u p = Ok r
     /\ (Utterance.index u p = Raise ValueError <-> r = -1)
     /\ (r <> -1 -> Utterance.index u p = Ok r))
  /\ (forall (depth : nat) (self : UtteranceConfusionNetwork.t R)
             (phrase : list word) (start : Z) (end_ : option Z),
        (index depth self phrase start end_ = Raise ValueError
         <-> find depth self phrase 0 None = Ok (-1))
        /\ (forall r, find depth self phrase 0 None = Ok r -> r <> -1 ->
              index depth self phrase start end_ = Ok r)
        /\ (get_phrase_idxs depth self phrase 0 None true = Ok [] ->
              find depth self phrase 0 None = Ok (-1))
        /\ find depth self phrase 0 None <> Raise ValueError).
Proof.
  intros Hne. split.
  - destruct (find_returns u p Hne) as (r & Hr & _).
    exists r. split; [exact Hr|]. unfold Utterance.index. rewrite Hr. simpl_result.
    destruct (r =? -1) eqn:E.
    + apply Z.eqb_eq in E. split; [done|]. intros Hr'. done.
    + apply Z.eqb_neq in E. split; [split; [done|done]|done].
  - intros depth self phrase start end_.
    assert (find depth self phrase 0 None <> Raise ValueError) as Hfind.
    { unfold find. apply no_ValueError_bind.
      - apply no_ValueError_get_phrase_idxs.
      - by intros [|i idxs]. }
    unfold index. split; [|split; [|split]].
    + destruct (find depth self phrase 0 None) as [r|e|] eqn:E; simpl_result.
      * destruct (r =? -1) eqn:Er.
        -- apply Z.eqb_eq in Er. by subst r.
        -- apply Z.eqb_neq in Er. split; [done|]. intros [= ->]. done.
      * split; [intros [= ->]; done|done].
      * done.
    + intros r -> Hr. simpl_result. apply Z.eqb_neq in Hr. by rewrite Hr.
    + unfold find. by intros ->.
    + exact Hfind.
Qed.

Lemma index_raises_iff_find_fails_witness :
  (exists r, Utterance.find (Utterance.init "book a table") ["a"; "chair"]%string = Ok r
     /\ (Utterance.index (Utterance.init "book a table") ["a"; "chair"]%string
         = Raise ValueError <-> r = -1)
     /\ (r <> -1 ->
         Utterance.index (Utterance.init "book a table") ["a"; "chair"]%string = Ok r))
  /\ index 2 two_slots ["b"; "y"]%string 0 None = Ok 0.
Proof.
  destruct (index_raises_iff_find_fails (R:=Q) (Utterance.init "book a table")
              ["a"; "chair"]%string ltac:(discriminate)) as [Hutt Hcn].
  split; [exact Hutt|].
  destruct (Hcn 2%nat two_slots ["b"; "y"]%string 0 None) as (_ & Hsame & _).
  apply Hsame; [reflexivity|discriminate].
Defined.

(** ** [replace] and object identity *)

Section Frame.
Context {R : Type} `{Arith R}.

Lemma touches_only_ret {A} (l : loc) (a : A) : touches_only (R:=R) l (st_ret a).
Proof. intros h. done. Qed.

Lemma touches_only_lift {A} (l : loc) (r : result A) : touches_only (R:=R) l (lift r).
Proof. intros h. done. Qed.

Lemma touches_only_load (l l' : loc) : touches_only (R:=R) l (load l').
Proof. intros h. unfold load. by destruct (h !! l'). Qed.

Lemma touches_only_bind {A B} (l : loc) (m : St A) (f : A -> St B) :
  touches_only (R:=R) l m -> (forall a, touches_only (R:=R) l (f a)) ->
  touches_only (R:=R) l (st_bind m f).
Proof.
  intros Hm Hf h. unfold st_bind.
  destruct (Hm h) as [Hm1 Hm2].
  destruct (m h) as [h1 [a|e|]]; [|done|done].
  destruct (Hf a h1) as [Hf1 Hf2]. simpl in *. split.
  - intros b Hb. rewrite Hf1 by done. by apply Hm1.
  - intros Hl. by apply Hf2, Hm2.
Qed.

Lemma touches_only_modify (l : loc) (f : UtteranceConfusionNetwork.t R -> result (UtteranceConfusionNetwork.t R)) :
  touches_only (R:=R) l (modify l f).
Proof.
  unfold modify. apply touches_only_bind; [apply touches_only_load|].
  intros c h. destruct (f c) as [c'|e|]; simpl; [|done|done].
  unfold heap, loc in *. split.
  - intros a Ha. by rewrite lookup_insert_ne.
  - intros _. rewrite lookup_insert_eq. by eexists.
Qed.

Lemma touches_only_replace_loop (fuel : nat) (replaced : loc)
    (phrase replacement : list word) (keep : bool) (idxs repl_idxs : list idx)
    (do_normalise update_wordset : bool) :
  touches_only (R:=R) replaced
    (replace_loop fuel replaced phrase replacement keep idxs repl_idxs
       do_normalise update_wordset).
Proof.
  revert idxs repl_idxs do_normalise update_wordset.
  induction fuel as [|fuel IH]; intros idxs repl_idxs dn uw;
    destruct idxs as [|first_idx idxs]; cbn [replace_loop];
    try apply touches_only_ret; try apply touches_only_lift.
  apply touches_only_bind.
  - repeat match goal with
           | |- touches_only _ (if ?b then _ else _) => destruct b
           | |- touches_only _ (st_bind _ _) => apply touches_only_bind; [|intros ?]
           | |- touches_only _ (modify _ _) => apply touches_only_modify
           | |- touches_only _ (st_ret _) => apply touches_only_ret
           | |- touches_only _ (lift _) => apply touches_only_lift
           end.
  - intros flags. apply touches_only_bind; [apply touches_only_load|].
    intros c. apply touches_only_bind; [apply touches_only_lift|].
    intros idxs'. apply IH.
Qed.

Lemma touches_only_replace_rest (fuel : nat) (replaced : loc)
    (phrase replacement : list word) (keep : bool) (idxs : list idx) :
  touches_only (R:=R) replaced (replace_rest fuel replaced phrase replacement keep idxs).
Proof.
  unfold replace_rest.
  apply touches_only_bind; [apply touches_only_replace_loop|]. intros out.
  apply touches_only_bind.
  { destruct out.1.2; [apply touches_only_modify|apply touches_only_ret]. }
  intros _. apply touches_only_bind.
  { destruct out.2; [apply touches_only_modify|apply touches_only_ret]. }
  intros _. apply touches_only_ret.
Qed.

Lemma replace_rest_returns (fuel : nat) (replaced : loc)
    (phrase replacement : list word) (keep : bool) (idxs : list idx)
    (h : heap R) (out : loc * list idx) :
  (replace_rest fuel replaced phrase replacement keep idxs h).2 = Ok out ->
  out.1 = replaced.
Proof.
  unfold replace_rest, st_bind.
  destruct (replace_loop _ _ _ _ _ _ _ _ _ h) as [h1 [o|e|]]; [|done|done].
  destruct o as [[repl_idxs do_normalise] update_wordset]. cbn [fst snd].
  destruct do_normalise.
  - destruct (modify _ _ h1) as [h2 [[]|e|]]; [|done|done].
    destruct update_wordset.
    + destruct (modify _ _ h2) as [h3 [[]|e|]]; [|done|done].
      simpl. by intros [= <-].
    + simpl. by intros [= <-].
  - unfold st_ret at 1. destruct update_wordset.
    + destruct (modify _ _ h1) as [h3 [[]|e|]]; [|done|done].
      simpl. by intros [= <-].
    + simpl. by intros [= <-].
Qed.

Lemma replace_unfold (fuel : nat) (self : loc) (phrase replacement : list word)
    (h : heap R) (c : UtteranceConfusionNetwork.t R) :
  h !! self = Some c ->
  replace fuel self phrase replacement h
  = match get_phrase_idxs fuel c phrase 0 None true with
    | Ok idxs =>
        let hl := if nonempty idxs
                  then (<[fresh (dom h) := c]> h, fresh (dom h))
                  else (h, self) in
        match replace_rest fuel hl.2 phrase replacement false idxs hl.1 with
        | (h', Ok out) => (h', Ok out.1)
        | (h', Raise e) => (h', Raise e)
        | (h', OutOfFuel) => (h', OutOfFuel)
        end
    | Raise e => (h, Raise e)
    | OutOfFuel => (h, OutOfFuel)
    end.
Proof.
  intros Hself. unfold replace, _replace.
  unfold st_bind at 1 2 3. unfold load at 1. rewrite Hself.
  unfold lift at 1.
  destruct (get_phrase_idxs fuel c phrase 0 None true) as [idxs|e|]; [|done|done].
  destruct idxs as [|i idxs]; cbn [nonempty].
  - unfold st_bind at 1. unfold st_ret at 1. cbv zeta. cbn [fst snd].
    fold (replace_rest fuel self phrase replacement false []).
    by destruct (replace_rest _ _ _ _ _ _ h) as [h' [out|e|]].
  - unfold st_bind at 1. unfold deepcopy, st_bind at 1. unfold load at 1.
    rewrite Hself. cbv zeta. cbn [fst snd].
    fold (replace_rest fuel (fresh (dom h)) phrase replacement false (i :: idxs)).
    by destruct (replace_rest _ _ _ _ _ _ _) as [h' [out|e|]].
Qed.

End Frame.

(** C2, as the code has it.  [replace] never writes to an object that
    existed before the call, its receiver included, whether it returns,
    raises or is cut short.  When the phrase does not occur it returns the
    receiver itself and the store is untouched (no copy).  When the phrase
    occurs and the call returns, it returns an object allocated by the call
    (the deep copy), different from the receiver. *)
Theorem replace_frame {R : Type} `{Arith R} (fuel : nat) (h : heap R)
    (self : loc) (c : UtteranceConfusionNetwork.t R)
    (phrase replacement : list word) :
  h !! self = Some c ->
  let h' := (replace fuel self phrase replacement h).1 in
  let out := (replace fuel self phrase replacement h).2 in
  (forall a x, h !! a = Some x -> h' !! a = Some x)
  /\ (get_phrase_idxs fuel c phrase 0 None true = Ok [] ->
      out = Ok self /\ h' = h)
  /\ (forall i idxs r,
        get_phrase_idxs fuel c phrase 0 None true = Ok (i :: idxs) ->
        out = Ok r ->
        r <> self /\ h !! r = None /\ is_Some (h' !! r)).
Proof.
  intros Hself. cbv zeta. rewrite (replace_unfold _ _ _ _ _ _ Hself).
  destruct (get_phrase_idxs fuel c phrase 0 None true) as [[|i idxs]|e|].
  - cbn [nonempty]. cbv zeta. cbn [fst snd].
    assert (replace_rest fuel self phrase replacement false [] h = (h, Ok (self, [])))
      as -> by by destruct fuel.
    cbn. split; [done|]. split; [done|]. intros ? ? ? [=].
  - cbn [nonempty]. cbv zeta. cbn [fst snd].
    set (l' := fresh (dom h)).
    assert (h !! l' = None) as Hfresh.
    { unfold heap, loc in *. apply (not_elem_of_dom (D:=gset nat)). apply is_fresh. }
    set (h1 := <[l' := c]> h).
    pose proof (touches_only_replace_rest fuel l' phrase replacement false
                  (i :: idxs) h1) as [Hother Hcopy].
    pose proof (replace_rest_returns fuel l' phrase replacement false
                  (i :: idxs) h1) as Hret.
    assert (forall a x, h !! a = Some x ->
              (replace_rest fuel l' phrase replacement false (i :: idxs) h1).1 !! a
              = Some x) as Hframe.
    { intros a x Ha. rewrite Hother by congruence.
      unfold h1, heap, loc in *. rewrite lookup_insert_ne by congruence. done. }
    assert (is_Some ((replace_rest fuel l' phrase replacement false (i :: idxs) h1).1
                     !! l')) as Halloc.
    { apply Hcopy. unfold h1, heap, loc in *. rewrite lookup_insert_eq. by eexists. }
    destruct (replace_rest fuel l' phrase replacement false (i :: idxs) h1)
      as [h2 [out|e|]]; cbn [fst snd] in *.
    + split; [exact Hframe|]. split; [done|].
      intros i' idxs' r _ [= <-]. rewrite (Hret out eq_refl).
      split; [congruence|]. done.
    + split; [exact Hframe|]. split; [done|]. intros ? ? ? _ [=].
    + split; [exact Hframe|]. split; [done|]. intros ? ? ? _ [=].
  - cbn. split; [done|]. split; [done|]. intros ? ? ? [=].
  - cbn. split; [done|]. split; [done|]. intros ? ? ? [=].
Qed.

Lemma replace_frame_witness :
  ((forall a x, ({[0%nat := two_slots]} : heap Q) !! a = Some x ->
      (replace 3 0%nat ["a"; "x"]%string ["ax"]%string {[0%nat := two_slots]}).1 !! a
      = Some x)
   /\ (get_phrase_idxs 3 two_slots ["a"; "x"]%string 0 None true = Ok [] ->
       (replace 3 0%nat ["a"; "x"]%string ["ax"]%string {[0%nat := two_slots]}).2
       = Ok 0%nat
       /\ (replace 3 0%nat ["a"; "x"]%string ["ax"]%string {[0%nat := two_slots]}).1
          = {[0%nat := two_slots]})
   /\ (forall i idxs r,
         get_phrase_idxs 3 two_slots ["a"; "x"]%string 0 None true = Ok (i :: idxs) ->
         (replace 3 0%nat ["a"; "x"]%string ["ax"]%string {[0%nat := two_slots]}).2
         = Ok r ->
         r <> 0%nat
         /\ ({[0%nat := two_slots]} : heap Q) !! r = None
         /\ is_Some ((replace 3 0%nat ["a"; "x"]%string ["ax"]%string
                        {[0%nat := two_slots]}).1 !! r)))
  /\ (replace 3 0%nat ["a"; "x"]%string ["ax"]%string {[0%nat := two_slots]}).2
     = Ok 1%nat.
Proof.
  split.
  - apply (replace_frame 3 {[0%nat := two_slots]} 0%nat two_slots
             ["a"; "x"]%string ["ax"]%string).
    reflexivity.
  - vm_compute. reflexivity.
Defined.

(** C2, as stated, fails: a phrase can be found and [replace] still not
    return.  Deleting "a" from [only_a] empties the slot, and [normalise]
    divides by its zero mass. *)
Lemma replace_match_may_raise :
  ~ (forall (fuel : nat) (h : heap Q) (self : loc)
            (c : UtteranceConfusionNetwork.t Q) (phrase replacement : list word)
            (i : idx) (idxs : list idx),
       h !! self = Some c ->
       get_phrase_idxs fuel c phrase 0 None true = Ok (i :: idxs) ->
       exists r, (replace fuel self phrase replacement h).2 = Ok r /\ r <> self).
Proof.
  intros Hall.
  specialize (Hall 2%nat ({[0%nat := only_a]} : heap Q) 0%nat only_a
                ["a"%string] [] (0, 0, 0) []).
  destruct Hall as (r & Hr & _).
  - vm_compute. reflexivity.
  - reflexivity.
  - vm_compute in Hr. discriminate Hr.
Qed.

Example replace_only_a_raises :
  (replace 2 0%nat ["a"%string] [] {[0%nat := only_a]}).2 = Raise ZeroDivisionError.
Proof. vm_compute. reflexivity. Qed.

(** ** The order in which hypotheses are closed *)

Lemma getitem_in_range {A} (l : list A) (i : Z) :
  0 <= i < len l -> exists x, l !! Z.to_nat i = Some x /\ getitem l i = Ok x.
Proof.
  intros Hi. unfold getitem.
  replace (i <? 0) with false by lia.
  replace ((0 <=? i) && (i <? len l)) with true by lia.
  destruct (lookup_lt_is_Some_2 l (Z.to_nat i)) as [x Hx].
  { unfold len in Hi. lia. }
  exists x. by rewrite Hx.
Qed.

Lemma getitem_nonneg_Ok {A} (l : list A) (i : Z) (x : A) :
  0 <= i -> getitem l i = Ok x -> l !! Z.to_nat i = Some x.
Proof.
  intros Hi. unfold getitem. replace (i <? 0) with false by lia.
  destruct (_ && _); [|done]. destruct (l !! Z.to_nat i); [|done].
  by intros [= ->].
Qed.

Lemma getnat_Ok {A} (l : list A) (i : nat) (x : A) :
  l !! i = Some x -> getnat l i = Ok x.
Proof. unfold getnat. by intros ->. Qed.

Lemma mapM_Ok {A B} (f : A -> result B) (P : A -> B -> Prop) (l : list A) :
  Forall (fun x => exists y, f x = Ok y /\ P x y) l ->
  exists ys, mapM f l = Ok ys /\ Forall2 P l ys.
Proof.
  induction 1 as [|x l (y & Hy & HP) _ (ys & Hys & HPs)]; simpl.
  - exists []. split; [done|constructor].
  - exists (y :: ys). rewrite Hy. simpl_result. rewrite Hys. simpl_result.
    split; [done|by constructor].
Qed.

Lemma StronglySorted_lookup {A} (Rel : A -> A -> Prop) (l : list A)
    (i j : nat) (x y : A) :
  StronglySorted Rel l -> (i < j)%nat -> l !! i = Some x -> l !! j = Some y ->
  Rel x y.
Proof.
  intros Hl. revert i j. induction Hl as [|a l Hl IH Hall]; intros i j Hij Hi Hj.
  - done.
  - destruct j as [|j]; [lia|]. simpl in Hj. destruct i as [|i].
    + simpl in Hi. injection Hi as ->.
      rewrite Forall_lookup in Hall. by eapply Hall.
    + simpl in Hi. apply (IH i j); [lia|done|done].
Qed.

Lemma open_ltb_true (a b : Q * hyp_index) : open_ltb a b = true -> (a.1 <= b.1)%Q.
Proof.
  unfold open_ltb. simpl. destruct (Qeq_bool a.1 b.1) eqn:E.
  - intros _. apply Qeq_bool_iff in E. rewrite E. apply Qle_refl.
  - intros Hlt. apply negb_true_iff in Hlt.
    apply Qlt_le_weak, Qnot_le_lt. intros Hle.
    apply Qle_bool_iff in Hle. congruence.
Qed.

Lemma open_ltb_false (a b : Q * hyp_index) : open_ltb a b = false -> (b.1 <= a.1)%Q.
Proof.
  unfold open_ltb. simpl. destruct (Qeq_bool a.1 b.1) eqn:E.
  - intros _. apply Qeq_bool_iff in E. rewrite E. apply Qle_refl.
  - intros Hlt. apply negb_false_iff in Hlt. by apply Qle_bool_iff.
Qed.

Lemma insert_reverse_perm (x : Q * hyp_index) (l : list (Q * hyp_index)) :
  insert_reverse x l ≡ₚ x :: l.
Proof.
  induction l as [|y l IH]; simpl; [done|].
  destruct (open_ltb x y); [|done].
  rewrite IH. apply Permutation_swap.
Qed.

Lemma sort_reverse_perm (l : list (Q * hyp_index)) : sort_reverse l ≡ₚ l.
Proof.
  unfold sort_reverse. induction l as [|x l IH]; simpl; [done|].
  by rewrite insert_reverse_perm, IH.
Qed.

Lemma insert_reverse_sorted (x : Q * hyp_index) (l : list (Q * hyp_index)) :
  StronglySorted open_desc l -> StronglySorted open_desc (insert_reverse x l).
Proof.
  induction 1 as [|y l Hl IH Hall]; simpl.
  - repeat constructor.
  - destruct (open_ltb x y) eqn:E.
    + constructor; [exact IH|].
      rewrite insert_reverse_perm. constructor; [|exact Hall].
      by apply open_ltb_true.
    + apply open_ltb_false in E.
      constructor; [by constructor|]. constructor; [exact E|].
      eapply Forall_impl; [exact Hall|]. intros z Hz.
      unfold open_desc in *. by eapply Qle_trans.
Qed.

Lemma sort_reverse_sorted (l : list (Q * hyp_index)) :
  StronglySorted open_desc (sort_reverse l).
Proof.
  unfold sort_reverse. induction l as [|x l IH]; simpl; [constructor|].
  by apply insert_reverse_sorted.
Qed.

Section NBest.
Variable c : UtteranceConfusionNetwork.t Q.
Hypothesis c_sorted : sorted_confnet c.

Lemma get_prob_from_valid (cn : list (list (Q * word))) (hi : hyp_index) (acc : Q) :
  Forall (fun alts => slot_sorted alts /\ slot_nonneg alts) cn ->
  Forall2 (fun x (alts : list (Q * word)) => 0 <= x < len alts) hi cn ->
  (0 <= acc)%Q ->
  exists p, get_prob_from acc (zip hi cn) = Ok p /\ (0 <= p)%Q.
Proof.
  intros Hcn Hvalid. revert acc.
  induction Hvalid as [|x alts hi cn Hx _ IH]; intros acc Hacc; simpl.
  - by exists acc.
  - apply Forall_cons in Hcn as [[_ Hnonneg] Hcn].
    destruct (getitem_in_range alts x Hx) as (h & Hh & ->). simpl_result.
    apply IH; [done|]. apply Qmult_le_0_compat; [done|].
    apply Hnonneg. by eapply list_elem_of_lookup_2.
Qed.

Lemma get_prob_from_mono (cn : list (list (Q * word))) (hi hi' : hyp_index)
    (acc acc' p p' : Q) :
  Forall (fun alts => slot_sorted alts /\ slot_nonneg alts) cn ->
  Forall2 Z.le hi hi' ->
  Forall (Z.le 0) hi ->
  (0 <= acc')%Q -> (acc' <= acc)%Q ->
  get_prob_from acc (zip hi cn) = Ok p ->
  get_prob_from acc' (zip hi' cn) = Ok p' ->
  (p' <= p)%Q.
Proof.
  intros Hcn Hle. revert cn Hcn acc acc'.
  induction Hle as [|x x' hi hi' Hx _ IH]; intros cn Hcn acc acc' Hpos Hacc' Hacc;
    simpl.
  - intros [= <-] [= <-]. exact Hacc.
  - destruct cn as [|alts cn]; simpl; [intros [= <-] [= <-]; exact Hacc|].
    apply Forall_cons in Hcn as [[Hsorted Hnonneg] Hcn].
    apply Forall_cons in Hpos as [Hx0 Hpos].
    intros Hp Hp'.
    apply bind_Ok_inv in Hp as (h & Hh & Hp).
    apply bind_Ok_inv in Hp' as (h' & Hh' & Hp').
    apply getitem_nonneg_Ok in Hh; [|done].
    apply getitem_nonneg_Ok in Hh'; [|lia].
    assert (0 <= h'.1)%Q as Hh'0.
    { apply Hnonneg. by eapply list_elem_of_lookup_2. }
    assert (h'.1 <= h.1)%Q as Hhh'.
    { apply (Hsorted (Z.to_nat x) (Z.to_nat x')); [lia|done|done]. }
    apply (IH cn Hcn (acc * h.1)%Q (acc' * h'.1)%Q Hpos); [| |done|done].
    + by apply Qmult_le_0_compat.
    + by apply Qmult_le_compat_nonneg.
Qed.

Lemma valid_index_nonneg (hi : hyp_index) : valid_index c hi -> Forall (Z.le 0) hi.
Proof.
  unfold valid_index. induction 1; constructor; [lia|done].
Qed.

Lemma valid_index_prob (hi : hyp_index) :
  valid_index c hi -> exists p, get_prob c hi = Ok p /\ (0 <= p)%Q.
Proof.
  intros Hvalid. apply get_prob_from_valid; [exact c_sorted|exact Hvalid|done].
Qed.

(** Raising one index of a vector does not raise its probability. *)
Lemma get_prob_worse (hi hi' : hyp_index) (p p' : Q) :
  valid_index c hi -> Forall2 Z.le hi hi' ->
  get_prob c hi = Ok p -> get_prob c hi' = Ok p' -> (p' <= p)%Q.
Proof.
  intros Hvalid Hle. apply get_prob_from_mono; try done.
  by apply valid_index_nonneg.
Qed.

Lemma next_worse_at_valid (hi : hyp_index) (i : nat) :
  valid_index c hi -> (i < length hi)%nat ->
  exists cands, next_worse_at c hi i = Ok cands
    /\ Forall (fun hi' => valid_index c hi' /\ Forall2 Z.le hi hi') cands.
Proof.
  intros Hvalid Hi. unfold next_worse_at.
  destruct (lookup_lt_is_Some_2 hi i Hi) as [x Hx].
  rewrite (getnat_Ok _ _ _ Hx). simpl_result.
  destruct (Forall2_lookup_l _ _ _ _ _ Hvalid Hx) as (alts & Halts & Hrange).
  rewrite (getnat_Ok _ _ _ Halts). simpl_result.
  destruct (len alts <=? x + 1) eqn:E.
  - exists []. split; [done|constructor].
  - apply Z.leb_gt in E. eexists. split; [reflexivity|].
    constructor; [|constructor]. split.
    + unfold valid_index. rewrite <- (list_insert_id _ _ _ Halts).
      apply Forall2_insert; [exact Hvalid|lia].
    + rewrite <- (list_insert_id _ _ _ Hx) at 1.
      apply Forall2_insert; [|lia].
      apply Forall2_same_length_lookup_2; [done|].
      intros k a b Ha Hb. assert (a = b) by congruence. lia.
Qed.

Lemma get_next_worse_candidates_valid (hi : hyp_index) :
  valid_index c hi ->
  exists cands, get_next_worse_candidates c hi = Ok cands
    /\ Forall (fun hi' => valid_index c hi' /\ Forall2 Z.le hi hi') cands.
Proof.
  intros Hvalid. unfold get_next_worse_candidates.
  destruct (mapM_Ok (next_worse_at c hi)
              (fun _ cands => Forall (fun hi' => valid_index c hi' /\ Forall2 Z.le hi hi') cands)
              (seq 0 (length hi))) as (cs & -> & Hcs).
  { apply Forall_forall. intros i Hi. apply elem_of_seq in Hi.
    apply next_worse_at_valid; [done|lia]. }
  simpl_result. eexists. split; [reflexivity|].
  clear -Hcs. induction Hcs as [|i cands rest css Hc _ IH]; simpl; [constructor|].
  apply Forall_app. by split.
Qed.

Lemma new_entries (hi : hyp_index) (p : Q) (cands : list hyp_index) :
  valid_index c hi -> get_prob c hi = Ok p ->
  Forall (fun hi' => valid_index c hi' /\ Forall2 Z.le hi hi') cands ->
  exists new,
    mapM (fun hi' => prob ← get_prob c hi'; Ok (prob, hi')) cands = Ok new
    /\ Forall (fun ph => entry_ok c ph /\ (ph.1 <= p)%Q) new.
Proof.
  intros Hvalid Hp Hcands.
  destruct (mapM_Ok (fun hi' => prob ← get_prob c hi'; Ok (prob, hi'))
              (fun _ ph => entry_ok c ph /\ (ph.1 <= p)%Q) cands) as (new & -> & Hnew).
  { eapply Forall_impl; [exact Hcands|]. intros hi' [Hv' Hle].
    destruct (valid_index_prob hi' Hv') as (p' & Hp' & _).
    exists (p', hi'). rewrite Hp'. simpl_result. split; [done|].
    split; [by split|]. simpl. exact (get_prob_worse hi hi' p p' Hvalid Hle Hp Hp'). }
  exists new. split; [done|].
  clear -Hnew. induction Hnew; constructor; done.
Qed.

Lemma expand_loop_inv (todo : nat) (open_hyp : list (Q * hyp_index))
    (closed_hyp : list (hyp_index * Q)) :
  search_inv c open_hyp closed_hyp ->
  exists closed,
    expand_loop todo c open_hyp closed_hyp = Ok closed
    /\ Forall (fun hp => get_prob c hp.1 = Ok hp.2) closed
    /\ StronglySorted closed_desc closed.
Proof.
  revert open_hyp closed_hyp.
  induction todo as [|todo IH]; intros open_hyp closed_hyp Hinv; simpl.
  { exists closed_hyp. split; [done|]. split; apply Hinv. }
  destruct open_hyp as [|[p0 h0] open_hyp].
  { exists closed_hyp. split; [done|]. split; apply Hinv. }
  destruct Hinv as [Hopen Hsorted Hclosed Hcsorted Hbound].
  apply Forall_cons in Hopen as [[Hv0 Hp0] Hopen]. simpl in Hv0, Hp0.
  apply StronglySorted_cons in Hsorted as [Hhead Hsorted].
  destruct (is_closed closed_hyp h0).
  - apply IH. constructor; try done.
    intros hp ph Hhp Hph. apply Hbound; [done|]. by apply list_elem_of_further.
  - destruct (get_next_worse_candidates_valid h0 Hv0) as (cands & -> & Hcands).
    simpl_result.
    destruct (new_entries h0 p0 cands Hv0 Hp0 Hcands) as (new & -> & Hnew).
    simpl_result. apply IH.
    assert (Forall (fun ph : Q * hyp_index => entry_ok c ph /\ (ph.1 <= p0)%Q)
              (sort_reverse (open_hyp ++ new))) as Hall.
    { rewrite sort_reverse_perm. apply Forall_app. split; [|exact Hnew].
      apply Forall_forall. intros ph Hph. split.
      - rewrite Forall_forall in Hopen. by apply Hopen.
      - rewrite Forall_forall in Hhead. by apply Hhead. }
    constructor.
    + eapply Forall_impl; [exact Hall|]. by intros ph [Hok _].
    + apply sort_reverse_sorted.
    + apply Forall_app. split; [done|]. by constructor.
    + apply StronglySorted_app_2; [|done|repeat constructor].
      intros hp hp' Hhp Hhp'. apply list_elem_of_singleton in Hhp' as ->.
      unfold closed_desc. simpl.
      apply (Hbound hp (p0, h0)); [done|]. apply list_elem_of_here.
    + intros hp ph Hhp Hph.
      rewrite Forall_forall in Hall. destruct (Hall ph Hph) as [_ Hle].
      apply elem_of_app in Hhp as [Hhp|Hhp].
      * eapply Qle_trans; [exact Hle|].
        apply (Hbound hp (p0, h0)); [done|]. apply list_elem_of_here.
      * apply list_elem_of_singleton in Hhp as ->. done.
Qed.

End NBest.

Lemma best_hyp_valid (c : UtteranceConfusionNetwork.t Q) :
  Forall (fun alts => alts <> []) (_cn c) ->
  valid_index c (replicate (length (_cn c)) 0).
Proof.
  unfold valid_index. induction 1 as [|alts cn Halts _ IH]; simpl; constructor.
  - destruct alts; [done|]. rewrite len_cons. pose proof (len_nonneg alts). lia.
  - exact IH.
Qed.


Lemma probs_desc_sorted (alts : list (Q * word)) :
  probs_desc (map fst alts) = true -> slot_sorted alts.
Proof.
  induction alts as [|a alts IH]; simpl; intros Hdesc i j p q Hij Hi Hj; [done|].
  apply andb_true_iff in Hdesc as [Hhead Htail].
  destruct j as [|j].
  - assert (i = 0%nat) as -> by lia. simpl in *.
    assert (p = q) as -> by congruence. apply Qle_refl.
  - destruct i as [|i]; simpl in *.
    + injection Hi as <-. rewrite forallb_forall in Hhead.
      apply Qle_bool_iff, Hhead, in_map_iff. exists q. split; [done|].
      apply list_elem_of_In. by eapply list_elem_of_lookup_2.
    + apply (IH Htail i j); [lia|done|done].
Qed.

Lemma slot_sortedb_correct (alts : list (Q * word)) :
  slot_sortedb alts = true -> slot_sorted alts /\ slot_nonneg alts.
Proof.
  unfold slot_sortedb. intros Hb. apply andb_true_iff in Hb as [Hdesc Hpos].
  split; [by apply probs_desc_sorted|].
  intros pw Hpw. rewrite forallb_forall in Hpos.
  apply Qle_bool_iff, Hpos. by apply list_elem_of_In.
Qed.

Lemma sorted_confnetb_correct (c : UtteranceConfusionNetwork.t Q) :
  forallb slot_sortedb (_cn c) = true -> sorted_confnet c.
Proof.
  unfold sorted_confnet. intros Hb. rewrite forallb_forall in Hb.
  apply Forall_forall. intros alts Halts.
  apply slot_sortedb_correct, Hb. by apply list_elem_of_In.
Qed.


(** The scenario of the specification: the four vectors of [two_slots] are
    closed in the order 0.42, 0.28, 0.18, 0.12. *)
Example two_slots_closed :
  get_utterance_nblist_closed two_slots 4
  = Ok [([0; 0], 42 # 100); ([1; 0], 28 # 100);
        ([0; 1], 18 # 100); ([1; 1], 12 # 100)].
Proof. vm_compute. reflexivity. Qed.


(** ** Normalisation *)

Section Mass.
Context {R : Type} `{Arith R}.

Lemma link_prob_entry (ll : list (list (LongLink R))) (i : link_idx) :
  link_prob ll i = match entry ll i with
                   | Some q => Ok q
                   | None => Raise IndexError
                   end.
Proof.
  unfold link_prob, entry, getnat.
  destruct (ll !! i.1.1) as [links|]; simpl; [|done].
  destruct (links !! i.1.2) as [link|]; simpl; [|done].
  done.
Qed.

Lemma entry_Some (ll : list (list (LongLink R))) (s a k : nat) (q : R) :
  entry ll (s, a, k) = Some q <->
  exists links link,
    ll !! s = Some links /\ links !! a = Some link /\ orig_probs link !! k = Some q.
Proof.
  unfold entry. simpl. split.
  - intros Hq. destruct (ll !! s) as [links|] eqn:Hs; simpl in Hq; [|done].
    destruct (links !! a) as [link|] eqn:Ha; simpl in Hq; [|done].
    by exists links, link.
  - intros (links & link & -> & Ha & Hk). simpl. by rewrite Ha.
Qed.

Lemma elem_of_covering (ll : list (list (LongLink R))) (i : nat) (x : link_idx) :
  x ∈ covering ll i <-> (x.1.1 + x.2 = i)%nat /\ is_Some (entry ll x).
Proof.
  unfold covering. rewrite list_elem_of_bind. split.
  - intros (s & Hx & Hs). apply elem_of_seq in Hs.
    apply list_elem_of_bind in Hx as (a & Hx & Ha).
    destruct (entry ll (s, a, (i - s)%nat)) as [q|] eqn:E; [|by apply elem_of_nil in Hx].
    apply list_elem_of_singleton in Hx as ->. cbn [fst snd]. split; [lia|by eexists].
  - destruct x as [[s a] k]. cbn [fst snd]. intros [<- [q Hq]].
    exists s. split; [|apply elem_of_seq; lia].
    apply list_elem_of_bind. exists a.
    replace (s + k - s)%nat with k by lia. rewrite Hq.
    split; [apply list_elem_of_here|].
    apply entry_Some in Hq as (links & link & -> & Ha & _). simpl.
    apply elem_of_seq. apply lookup_lt_Some in Ha. lia.
Qed.

Lemma NoDup_covering (ll : list (list (LongLink R))) (i : nat) : NoDup (covering ll i).
Proof.
  unfold covering. apply NoDup_bind; [| |apply NoDup_seq].
  - intros s1 s2 x _ _ H1 H2.
    apply list_elem_of_bind in H1 as (a1 & H1 & _).
    apply list_elem_of_bind in H2 as (a2 & H2 & _).
    destruct (entry ll (s1, a1, _)); [|by apply elem_of_nil in H1].
    destruct (entry ll (s2, a2, _)); [|by apply elem_of_nil in H2].
    apply list_elem_of_singleton in H1, H2. congruence.
  - intros s _. apply NoDup_bind; [| |apply NoDup_seq].
    + intros a1 a2 x _ _ H1 H2.
      destruct (entry ll (s, a1, _)); [|by apply elem_of_nil in H1].
      destruct (entry ll (s, a2, _)); [|by apply elem_of_nil in H2].
      apply list_elem_of_singleton in H1, H2. congruence.
    + intros a _. destruct (entry ll _); [apply NoDup_singleton|apply NoDup_nil_2].
Qed.

End Mass.

Section Scaling.
Context {R : Type} `{Arith R}.

Lemma links_wf_first_hops (cn : list (list (R * word)))
    (ll : list (list (LongLink R))) :
  links_wf cn ll -> first_hops ll.
Proof.
  intros [_ Hne] s a Ha.
  destruct (ll !! s) as [links|] eqn:Hs; simpl in Ha; [|lia].
  destruct (lookup_lt_is_Some_2 links a Ha) as [link Hlink].
  specialize (Hne s a links link Hs Hlink).
  destruct (orig_probs link) as [|q qs] eqn:Hq; [done|].
  exists q. apply entry_Some. exists links, link. by rewrite Hq.
Qed.

Lemma same_shape_first_hops (ll ll' : list (list (LongLink R))) :
  same_shape ll ll' -> first_hops ll -> first_hops ll'.
Proof.
  intros (_ & Hlen & Hentry) Hhops s a Ha.
  apply Hentry, Hhops. by rewrite <- Hlen.
Qed.

Lemma same_shape_covering (ll ll' : list (list (LongLink R))) (i : nat) :
  same_shape ll ll' -> covering ll' i = covering ll i.
Proof.
  intros (_ & Hlen & Hentry). unfold covering.
  apply list_bind_ext; [|done]. intros s.
  apply list_bind_ext; [|by rewrite Hlen]. intros a.
  specialize (Hentry (s, a, (i - s)%nat)).
  destruct (entry ll' _), (entry ll _); try done.
  - destruct Hentry as [Hentry _]. by destruct Hentry.
  - destruct Hentry as [_ Hentry]. by destruct Hentry.
Qed.

Lemma scale_link_spec (normaliser : R) (ll : list (list (LongLink R)))
    (x : link_idx) (q : R) :
  entry ll x = Some q ->
  exists ll',
    scale_link normaliser ll x = Ok ll'
    /\ length ll' = length ll
    /\ (forall s, length (default [] (ll' !! s)) = length (default [] (ll !! s)))
    /\ (forall y, entry ll' y
                  = if decide (y = x) then Some (r_mul q normaliser) else entry ll y).
Proof.
  destruct x as [[s a] k]. intros Hq.
  apply entry_Some in Hq as (links & link & Hs & Ha & Hk).
  unfold scale_link. cbn [fst snd].
  rewrite (getnat_Ok _ _ _ Hs). simpl_result.
  rewrite (getnat_Ok _ _ _ Ha). simpl_result.
  rewrite (getnat_Ok _ _ _ Hk). simpl_result.
  eexists. split; [reflexivity|].
  pose proof (lookup_lt_Some _ _ _ Hs) as Hslt.
  pose proof (lookup_lt_Some _ _ _ Ha) as Halt.
  pose proof (lookup_lt_Some _ _ _ Hk) as Hklt.
  split; [by rewrite length_insert|]. split.
  - intros s'. destruct (decide (s' = s)) as [->|Hne].
    + rewrite list_lookup_insert_eq by done. rewrite Hs. simpl.
      by rewrite length_insert.
    + by rewrite list_lookup_insert_ne.
  - intros [[s' a'] k']. unfold entry at 1. cbn [fst snd].
    destruct (decide (s' = s)) as [->|Hs'].
    + rewrite list_lookup_insert_eq by done. simpl.
      destruct (decide (a' = a)) as [->|Ha'].
      * rewrite list_lookup_insert_eq by done. simpl.
        destruct (decide (k' = k)) as [->|Hk'].
        -- rewrite list_lookup_insert_eq by done.
           by rewrite decide_True.
        -- rewrite list_lookup_insert_ne by done.
           rewrite decide_False by congruence.
           unfold entry. cbn [fst snd]. rewrite Hs. simpl. by rewrite Ha.
      * rewrite list_lookup_insert_ne by done.
        rewrite decide_False by congruence.
        unfold entry. cbn [fst snd]. by rewrite Hs.
    + rewrite list_lookup_insert_ne by done.
      rewrite decide_False by congruence. done.
Qed.

Lemma scale_links_spec (normaliser : R) (xs : list link_idx)
    (ll : list (list (LongLink R))) :
  NoDup xs ->
  (forall x, x ∈ xs -> is_Some (entry ll x)) ->
  exists ll',
    scale_links normaliser ll xs = Ok ll'
    /\ same_shape ll ll'
    /\ (forall y, entry ll' y
                  = if decide (y ∈ xs)
                    then (fun q => r_mul q normaliser) <$> entry ll y
                    else entry ll y).
Proof.
  intros Hnodup. revert ll.
  induction Hnodup as [|x xs Hx Hnodup IH]; intros ll Hsome; cbn [scale_links].
  - exists ll. split; [done|]. split; [done|].
    intros y. rewrite decide_False; [done|]. apply not_elem_of_nil.
  - destruct (Hsome x (list_elem_of_here _ _)) as [q Hq].
    destruct (scale_link_spec normaliser ll x q Hq)
      as (ll1 & -> & Hlen1 & Hlens1 & Hentry1).
    simpl_result.
    destruct (IH ll1) as (ll' & -> & (Hlen & Hlens & Hsh) & Hentry).
    { intros y Hy. rewrite Hentry1. rewrite decide_False by (intros ->; done).
      apply Hsome. by apply list_elem_of_further. }
    exists ll'. split; [done|]. split.
    + split; [congruence|]. split.
      * intros s. by rewrite Hlens, Hlens1.
      * intros y. rewrite Hsh, Hentry1.
        destruct (decide (y = x)) as [->|_]; [|done].
        rewrite Hq. split; by eexists.
    + intros y. rewrite Hentry, Hentry1.
      destruct (decide (y = x)) as [->|Hne].
      * rewrite decide_False by done. rewrite decide_True by apply list_elem_of_here.
        by rewrite Hq.
      * destruct (decide (y ∈ xs)) as [Hin|Hnin].
        -- rewrite decide_True; [done|]. by apply list_elem_of_further.
        -- rewrite decide_False; [done|].
           intros Hin. apply elem_of_cons in Hin as [->|Hin]; done.
Qed.

Lemma mapM_link_prob (ll : list (list (LongLink R))) (xs : list link_idx) :
  (forall x, x ∈ xs -> is_Some (entry ll x)) ->
  mapM (link_prob ll) xs = Ok (omap (entry ll) xs).
Proof.
  induction xs as [|x xs IH]; intros Hsome; [done|].
  destruct (Hsome x (list_elem_of_here _ _)) as [q Hq].
  cbn [mapM omap list_omap]. rewrite link_prob_entry, Hq. simpl_result.
  change (mapM (link_prob ll) xs ≫= (fun k => mret (q :: k))
          = Ok (q :: omap (entry ll) xs)).
  rewrite IH; [done|]. intros y Hy. apply Hsome. by apply list_elem_of_further.
Qed.

Lemma advance_links_app (ll : list (list (LongLink R))) (xs ys : list link_idx)
    (xs' ys' : list link_idx) :
  advance_links ll xs = Ok xs' -> advance_links ll ys = Ok ys' ->
  advance_links ll (xs ++ ys) = Ok (xs' ++ ys').
Proof.
  revert xs'. induction xs as [|x xs IH]; intros xs'; simpl.
  - by intros [= <-].
  - intros Hx Hys.
    apply bind_Ok_inv in Hx as (links & -> & Hx). simpl_result.
    apply bind_Ok_inv in Hx as (link & -> & Hx). simpl_result.
    apply bind_Ok_inv in Hx as (rest & Hrest & Hx).
    rewrite (IH rest Hrest Hys). simpl_result.
    destruct (bool_decide _); injection Hx as <-; done.
Qed.

Lemma advance_links_bind {A} (ll : list (list (LongLink R))) (l : list A)
    (f g : A -> list link_idx) :
  (forall x, x ∈ l -> advance_links ll (f x) = Ok (g x)) ->
  advance_links ll (l ≫= f) = Ok (l ≫= g).
Proof.
  induction l as [|x l IH]; intros Hfg; [done|].
  rewrite !bind_cons. apply advance_links_app.
  - apply Hfg, list_elem_of_here.
  - apply IH. intros y Hy. apply Hfg. by apply list_elem_of_further.
Qed.

Lemma advance_covering (ll : list (list (LongLink R))) (i : nat) :
  advance_links ll (covering ll i)
  = Ok (s ← seq 0 (S i);
        a ← seq 0 (length (default [] (ll !! s)));
        match entry ll (s, a, (S i - s)%nat) with
        | Some _ => [(s, a, (S i - s)%nat)]
        | None => []
        end).
Proof.
  unfold covering. apply advance_links_bind. intros s Hs.
  apply elem_of_seq in Hs.
  apply advance_links_bind. intros a Ha.
  replace (S i - s)%nat with (S (i - s)) by lia.
  destruct (entry ll (s, a, (i - s)%nat)) as [q|] eqn:Hq.
  - apply entry_Some in Hq as (links & link & Hs' & Ha' & Hk).
    cbn [advance_links fst snd].
    rewrite (getnat_Ok _ _ _ Hs'). simpl_result.
    rewrite (getnat_Ok _ _ _ Ha'). simpl_result.
    unfold entry. cbn [fst snd]. rewrite Hs'. simpl. rewrite Ha'. simpl.
    case_bool_decide as Hlt.
    + destruct (lookup_lt_is_Some_2 _ _ Hlt) as [q' ->]. done.
    + rewrite lookup_ge_None_2 by lia. done.
  - assert (entry ll (s, a, S (i - s)) = None) as ->; [|done].
    destruct (entry ll (s, a, S (i - s))) as [q'|] eqn:Hq'; [|done].
    apply entry_Some in Hq' as (links & link & Hs' & Ha' & Hk).
    assert (is_Some (entry ll (s, a, (i - s)%nat))) as [q Hq2]; [|congruence].
    destruct (lookup_lt_is_Some_2 (orig_probs link) (i - s)) as [q Hq2].
    { apply lookup_lt_Some in Hk. lia. }
    exists q. apply entry_Some. by exists links, link.
Qed.

Lemma first_hops_here (ll : list (list (LongLink R))) (s : nat) :
  first_hops ll ->
  (a ← seq 0 (length (default [] (ll !! s)));
   match entry ll (s, a, O) with
   | Some _ => [(s, a, O)]
   | None => []
   end)
  = map (fun a => (s, a, O)) (seq 0 (length (default [] (ll !! s)))).
Proof.
  intros Hhops.
  assert (forall l : list nat,
            (forall a, a ∈ l -> (a < length (default [] (ll !! s)))%nat) ->
            (a ← l; match entry ll (s, a, O) with
                    | Some _ => [(s, a, O)]
                    | None => []
                    end)
            = map (fun a => (s, a, O)) l) as Hgen.
  { induction l as [|a l IH]; intros Hl; [done|].
    rewrite bind_cons. simpl.
    destruct (Hhops s a (Hl a (list_elem_of_here _ _))) as [q ->]. simpl.
    f_equal. apply IH. intros b Hb. apply Hl. by apply list_elem_of_further. }
  apply Hgen. intros a Ha. apply elem_of_seq in Ha. lia.
Qed.

(** The indices held once the loop has moved the old ones forward and added
    the links that start at slot [i]: exactly the hops over slot [i]. *)
Lemma held_at (ll : list (list (LongLink R))) (i : nat) (here : list (LongLink R)) :
  first_hops ll -> ll !! i = Some here ->
  exists adv,
    advance_links ll (held_before ll i) = Ok adv
    /\ adv ++ map (fun aidx => (i, aidx, O)) (seq 0 (length here)) = covering ll i.
Proof.
  intros Hhops Hi.
  pose proof (first_hops_here ll i Hhops) as Hhere.
  rewrite Hi in Hhere. simpl in Hhere.
  destruct i as [|i]; simpl.
  - exists []. split; [done|]. unfold covering.
    change (seq 0 1) with [0%nat]. rewrite bind_singleton.
    rewrite Hi. simpl. exact (eq_sym Hhere).
  - eexists. split; [apply advance_covering|].
    unfold covering. rewrite (seq_S (S i) 0). rewrite bind_app.
    f_equal. rewrite bind_singleton. simpl plus.
    rewrite Hi. cbn [default]. rewrite Nat.sub_diag. exact (eq_sym Hhere).
Qed.

End Scaling.

Section ExactNormalise.

Lemma omap_agree {A B} (f g : A -> option B) (l : list A) :
  (forall x, x ∈ l -> f x = g x) -> omap f l = omap g l.
Proof.
  intros Hfg. apply list_omap_ext. apply Forall2_same_length_lookup_2; [done|].
  intros i x y Hx Hy. assert (x = y) as -> by congruence.
  apply Hfg. by eapply list_elem_of_lookup_2.
Qed.

Lemma omap_scaled {A B} (f f' : A -> option B) (g : B -> B) (l : list A) :
  (forall x, x ∈ l -> f' x = g <$> f x) -> omap f' l = map g (omap f l).
Proof.
  induction l as [|x l IH]; intros Hf; [done|].
  cbn [omap list_omap]. rewrite (Hf x (list_elem_of_here _ _)).
  rewrite IH by (intros y Hy; apply Hf; by apply list_elem_of_further).
  by destruct (f x).
Qed.

Lemma fold_sum_scaled (n : Q) (l : list Q) (a b : Q) :
  (b == a * n)%Q ->
  (fold_left Qplus (map (fun q => q * n)%Q l) b == fold_left Qplus l a * n)%Q.
Proof.
  revert a b. induction l as [|q l IH]; intros a b Hb; simpl; [done|].
  apply IH. rewrite Hb. ring.
Qed.

Lemma py_sum_scaled (n : Q) (l : list Q) :
  (py_sum (map (fun q => q * n)%Q l) == py_sum l * n)%Q.
Proof. unfold py_sum. apply fold_sum_scaled. simpl. ring. Qed.

(** One round of the loop: slot [i] gets mass 1, the other slots keep
    theirs, and nothing changes shape. *)
Lemma normalise_step_spec (c : UtteranceConfusionNetwork.t Q) (i : nat) :
  length (_long_links c) = length (_cn c) ->
  first_hops (_long_links c) ->
  (i < length (_cn c))%nat ->
  ~ (slot_mass c i == 0)%Q ->
  exists c',
    normalise_step i (held_before (_long_links c) i, c)
    = Ok (held_before (_long_links c') (S i), c')
    /\ length (_cn c') = length (_cn c)
    /\ same_shape (_long_links c) (_long_links c')
    /\ (slot_mass c' i == 1)%Q
    /\ forall j, j <> i -> slot_mass c' j = slot_mass c j.
Proof.
  intros Hlen Hhops Hi Hmass.
  destruct (lookup_lt_is_Some_2 (_long_links c) i) as [here Hhere]; [lia|].
  destruct (lookup_lt_is_Some_2 (_cn c) i Hi) as [alts Halts].
  destruct (held_at (_long_links c) i here Hhops Hhere) as (adv & Hadv & Hheld).
  unfold normalise_step. cbn [fst snd].
  rewrite Hadv. simpl_result.
  rewrite (getnat_Ok _ _ _ Hhere). simpl_result.
  rewrite (getnat_Ok _ _ _ Halts). simpl_result.
  rewrite Hheld.
  assert (forall x, x ∈ covering (_long_links c) i -> is_Some (entry (_long_links c) x))
    as Hsome.
  { intros x Hx. by apply elem_of_covering in Hx as [_ Hx]. }
  rewrite (mapM_link_prob _ _ Hsome). simpl_result.
  assert (r_add (py_sum (map fst alts))
            (py_sum (omap (entry (_long_links c)) (covering (_long_links c) i)))
          = slot_mass c i) as Htot.
  { unfold slot_mass. by rewrite Halts. }
  rewrite Htot. unfold py_div.
  assert (r_eqb (slot_mass c i) r_zero = false) as ->.
  { destruct (r_eqb (slot_mass c i) r_zero) eqn:E; [|done].
    apply Qeq_bool_iff in E. done. }
  simpl_result.
  set (normaliser := r_div r_one (slot_mass c i)).
  destruct (scale_links_spec normaliser (covering (_long_links c) i) (_long_links c)
              (NoDup_covering _ _) Hsome) as (ll' & -> & Hshape & Hentry).
  simpl_result.
  exists (set_long_links
            (set_cn c (<[i := map (fun hyp0 : Q * word =>
                                     (r_mul hyp0.1 normaliser, hyp0.2)) alts]>
                         (_cn c))) ll').
  split; [|split; [|split; [|split]]].
  - cbn [held_before _long_links set_long_links set_cn].
    by rewrite (same_shape_covering _ _ _ Hshape).
  - cbn [_cn set_long_links set_cn]. by rewrite length_insert.
  - exact Hshape.
  - unfold slot_mass at 1. cbn [_cn _long_links set_long_links set_cn].
    rewrite list_lookup_insert_eq by done. cbn [default].
    rewrite (same_shape_covering _ _ _ Hshape).
    rewrite (omap_scaled (entry (_long_links c)) (entry ll')
               (fun q => q * normaliser)%Q).
    2:{ intros x Hx. rewrite Hentry. by rewrite decide_True. }
    assert (map fst (map (fun hyp0 : Q * word => (r_mul hyp0.1 normaliser, hyp0.2)) alts)
            = map (fun q => q * normaliser)%Q (map fst alts)) as Hfst.
    { rewrite !map_map. reflexivity. }
    unfold id. rewrite Hfst.
    change (py_sum (map (fun q => q * normaliser) (map fst alts))
            + py_sum (map (fun q => q * normaliser)
                        (omap (entry (_long_links c)) (covering (_long_links c) i)))
            == 1)%Q.
    rewrite !py_sum_scaled.
    rewrite <- Qmult_plus_distr_l.
    change (r_add (py_sum (map fst alts))
              (py_sum (omap (entry (_long_links c)) (covering (_long_links c) i)))
            * normaliser == 1)%Q.
    rewrite Htot. unfold normaliser.
    change (slot_mass c i * (1 / slot_mass c i) == 1)%Q.
    by apply Qmult_div_r.
  - intros j Hj. unfold slot_mass. cbn [_cn _long_links set_long_links set_cn].
    rewrite list_lookup_insert_ne by done.
    rewrite (same_shape_covering _ _ _ Hshape).
    f_equal. f_equal. apply omap_agree. intros x Hx.
    rewrite Hentry. rewrite decide_False; [done|].
    intros Hx'. apply elem_of_covering in Hx as [Hx _].
    apply elem_of_covering in Hx' as [Hx' _]. lia.
Qed.

Lemma normalise_loop_spec (k i : nat) (c : UtteranceConfusionNetwork.t Q) :
  (i + k)%nat = length (_cn c) ->
  length (_long_links c) = length (_cn c) ->
  first_hops (_long_links c) ->
  (forall j, (i <= j < length (_cn c))%nat -> ~ (slot_mass c j == 0)%Q) ->
  (forall j, (j < i)%nat -> (slot_mass c j == 1)%Q) ->
  exists st,
    normalise_loop (seq i k) (held_before (_long_links c) i, c) = Ok st
    /\ length (_cn st.2) = length (_cn c)
    /\ forall j, (j < length (_cn c))%nat -> (slot_mass st.2 j == 1)%Q.
Proof.
  revert i c. induction k as [|k IH]; intros i c Hik Hlen Hhops Hpos Hdone.
  - eexists. split; [reflexivity|]. split; [done|].
    intros j Hj. apply Hdone. lia.
  - cbn [seq normalise_loop].
    destruct (normalise_step_spec c i Hlen Hhops)
      as (c' & -> & Hcn & Hshape & Hone & Hother); [lia|apply Hpos; lia|].
    simpl_result.
    destruct (IH (S i) c') as (st & -> & Hcn' & Hall).
    + lia.
    + destruct Hshape as [Hl _]. congruence.
    + by eapply same_shape_first_hops.
    + intros j Hj. rewrite Hother by lia. apply Hpos. lia.
    + intros j Hj. destruct (decide (j = i)) as [->|Hne]; [done|].
      rewrite Hother by done. apply Hdone. lia.
    + exists st. split; [done|]. split; [congruence|].
      intros j Hj. apply Hall. lia.
Qed.

End ExactNormalise.

(** C1, in exact arithmetic.  For a confusion network whose two lists run
    in parallel, whose long links carry at least one hop each, and whose
    mass is positive at every slot, [normalise()] returns, and afterwards the
    alternatives of every slot and the hops of the long links over it add
    up to exactly 1. *)
Theorem normalise_unit_mass (c : UtteranceConfusionNetwork.t Q) :
  wf c ->
  (forall i, (i < length (_cn c))%nat -> (0 < slot_mass c i)%Q) ->
  exists c',
    normalise c None = Ok c'
    /\ length (_cn c') = length (_cn c)
    /\ forall i, (i < length (_cn c))%nat -> (slot_mass c' i == 1)%Q.
Proof.
  intros Hwf Hpos. unfold normalise.
  destruct (normalise_loop_spec (length (_cn c)) 0 c) as (st & Hst & Hlen & Hall).
  - done.
  - apply Hwf.
  - eapply links_wf_first_hops, Hwf.
  - intros j Hj Hzero. specialize (Hpos j ltac:(lia)).
    rewrite Hzero in Hpos. by apply Qlt_irrefl in Hpos.
  - intros j Hj. lia.
  - simpl in Hst. rewrite Hst. simpl_result. by exists st.2.
Qed.

Lemma normalise_unit_mass_witness :
  exists c',
    normalise linked None = Ok c'
    /\ length (_cn c') = length (_cn linked)
    /\ forall i, (i < length (_cn linked))%nat -> (slot_mass c' i == 1)%Q.
Proof.
  apply (normalise_unit_mass linked).
  - split; [reflexivity|].
    intros [|[|s]] a links link Hs Ha; simpl in Hs; try discriminate;
      injection Hs as <-; destruct a as [|a]; simpl in Ha; try discriminate.
    by injection Ha as <-.
  - intros [|[|i]] Hi; [reflexivity|reflexivity|simpl in Hi; lia].
Defined.

Example linked_normalised :
  (c ← normalise linked None; Ok (_cn c, map (map orig_probs) (_long_links c)))
  = Ok ([[(1 * (1 / (0 + 1 + (0 + 1))), "b")]; [(3 * (1 / (0 + 3 + (0 + 1))), "y")]]%string,
        [[[1 * (1 / (0 + 1 + (0 + 1))); 1 * (1 / (0 + 3 + (0 + 1)))]]; []])%Q.
Proof. reflexivity. Qed.

(** C1, as stated, fails in the arithmetic of the code: after [normalise()]
    the two alternatives of [one_to_five] are 1 * (1 / 6) and 5 * (1 / 6) in
    binary64, and their sum is the float just below 1. *)
Lemma normalise_float_mass_not_one : ~ normalise_exact (R := float).
Proof.
  intros Hexact.
  destruct (Hexact one_to_five) as (c' & Hc' & Hone).
  - split; [reflexivity|].
    intros [|[|s]] a links link Hs Ha; simpl in Hs; try discriminate.
    injection Hs as <-. by destruct a.
  - intros [|i] Hi; [reflexivity|simpl in Hi; lia].
  - vm_compute in Hc'. injection Hc' as <-.
    specialize (Hone 0%nat ltac:(simpl; lia)).
    vm_compute in Hone. discriminate Hone.
Qed.

(** ** What [prune] and [iter_ngrams] do deliver *)

Section PruneSlots.
Context {R : Type} `{Arith R}.

(** [prune] removes slots only: every slot it keeps is a slot of the
    original, with all of its alternatives. *)
Lemma prune_keeps_whole_slots (self : UtteranceConfusionNetwork.t R)
    (prune_prob : R) (c' : UtteranceConfusionNetwork.t R) :
  prune self prune_prob = Ok c' -> sublist (_cn c') (_cn self).
Proof.
  unfold prune. intros Hrun.
  apply bind_Ok_inv in Hrun as (pruned_cn & Hloop & [= <-]).
  cbn [_cn set_wordset set_cn]. revert pruned_cn Hloop.
  induction (_cn self) as [|alts cn IH]; intros pruned_cn; simpl.
  - by intros [= <-].
  - intros Hloop.
    apply bind_Ok_inv in Hloop as (keep & _ & Hloop).
    apply bind_Ok_inv in Hloop as (rest & Hrest & [= <-]).
    destruct keep; [apply sublist_skip|apply sublist_cons]; by apply IH.
Qed.

(** A slot whose sole alternative is the empty word, with probability above
    [1 - prune_prob], is removed. *)
Lemma prune_drops_silence (prune_prob p : R) :
  r_ltb (r_sub r_one prune_prob) p = true ->
  prune_keeps prune_prob [(p, ""%string)] = Ok false.
Proof.
  intros Hp. unfold prune_keeps. rewrite getitem_0_cons. simpl_result.
  cbn [fst snd]. rewrite Hp. by rewrite bool_decide_eq_true_2.
Qed.

End PruneSlots.

Lemma length_slice {A} (l : list A) (lo hi : Z) :
  0 <= lo -> lo <= hi -> hi <= len l ->
  len (slice l (Some lo) (Some hi)) = hi - lo.
Proof.
  intros Hlo Hhi Hlen. unfold slice, slice_bound, len in *.
  rewrite length_take, length_drop.
  destruct (Z.ltb_spec lo 0), (Z.ltb_spec hi 0); lia.
Qed.

(** With [n >= 2], or [n >= 1] and no boundaries, every window of
    [Utterance.iter_ngrams] has exactly [n] tokens, and an utterance no
    longer than the effective window yields at most one window. *)
Lemma iter_ngrams_windows (u : Utterance.t) (n : Z) (with_boundaries : bool) :
  (if with_boundaries then 2 <= n else 1 <= n) ->
  Forall (fun w => len w = n) (Utterance.iter_ngrams u n with_boundaries)
  /\ (len (Utterance._utterance u) <= n - (if with_boundaries then 2 else 0) ->
      (length (Utterance.iter_ngrams u n with_boundaries) <= 1)%nat).
Proof.
  intros Hn. unfold Utterance.iter_ngrams.
  set (utt := Utterance._utterance u).
  pose proof (len_nonneg utt) as Hutt.
  assert (forall lo hi, len (slice utt lo hi)
            = Z.of_nat (length (slice utt lo hi))) as Hlenslice by done.
  destruct with_boundaries; cbn [andb].
  - destruct (Z.leb_spec (len utt) (n - 1 * 2)) as [Hshort|Hlong].
    + split.
      * destruct (Z.eqb_spec (len utt) (n - 1 * 2)); repeat constructor.
        unfold len in *. rewrite !length_app. simpl. lia.
      * intros _. destruct (_ =? _); simpl; lia.
    + split; [|lia].
      replace (n - 1 * 2 <? len utt) with true by lia.
      apply Forall_app. split; [|apply Forall_app; split].
      * repeat constructor. unfold len. rewrite length_app. simpl.
        unfold slice, slice_bound. rewrite length_take, length_drop.
        unfold len in *. destruct (Z.ltb_spec (n - 1) 0); lia.
      * apply Forall_forall. intros w Hw.
        apply list_elem_of_In, in_map_iff in Hw as (start_idx & <- & Hin).
        apply list_elem_of_In, elem_of_seqZ in Hin.
        replace n with (start_idx + n - start_idx) at 2 by lia.
        apply length_slice; lia.
      * repeat constructor. unfold len. rewrite length_app. simpl.
        unfold slice, slice_bound. rewrite length_take, length_drop.
        unfold len in *. destruct (Z.ltb_spec (- (n - 1)) 0); lia.
  - destruct (Z.leb_spec (len utt) (n - 0 * 2)) as [Hshort|Hlong].
    + split.
      * destruct (Z.eqb_spec (len utt) (n - 0 * 2)); repeat constructor.
        unfold slice. rewrite Z.sub_0_r. unfold len in *.
        rewrite length_take, length_drop. lia.
      * intros _. destruct (_ =? _); simpl; lia.
    + split; [|lia]. simpl. rewrite app_nil_r.
      apply Forall_forall. intros w Hw.
      apply list_elem_of_In, in_map_iff in Hw as (start_idx & <- & Hin).
      apply list_elem_of_In, elem_of_seqZ in Hin.
      replace n with (start_idx + n - start_idx) at 2 by lia.
      apply length_slice; lia.
Qed.

(** * Further properties *)

(** ** Slices *)

Lemma slice_prefix {A} (l : list A) (r : Z) :
  0 <= r -> slice l None (Some r) = take (Z.to_nat r) l.
Proof.
  intros Hr. unfold slice, slice_bound, len.
  change (Z.to_nat 0) with 0%nat. rewrite drop_0.
  replace (r <? 0) with false by lia. rewrite Z.sub_0_r.
  destruct (Z.le_ge_cases r (Z.of_nat (length l))) as [Hle|Hge].
  - by rewrite Z.min_l.
  - rewrite Z.min_r by done.
    rewrite !take_ge; [done|lia|lia].
Qed.

Lemma slice_suffix {A} (l : list A) (a : Z) :
  0 <= a -> slice l (Some a) None = drop (Z.to_nat a) l.
Proof.
  intros Ha. unfold slice, slice_bound, len.
  replace (a <? 0) with false by lia.
  destruct (Z.le_ge_cases a (Z.of_nat (length l))) as [Hle|Hge].
  - rewrite Z.min_l by done. apply take_ge. rewrite length_drop. lia.
  - rewrite Z.min_r by done.
    rewrite !drop_ge; [by rewrite take_nil|lia|lia].
Qed.

Lemma slice_window {A} (l : list A) (i n : Z) :
  0 <= i -> 0 <= n ->
  slice l (Some i) (Some (i + n)) = take (Z.to_nat n) (drop (Z.to_nat i) l).
Proof.
  intros Hi Hn. unfold slice, slice_bound.
  replace (i <? 0) with false by lia. replace (i + n <? 0) with false by lia.
  unfold len. 
  destruct (Z.le_ge_cases i (Z.of_nat (length l))) as [Hle|Hge].
  - rewrite (Z.min_l i) by done.
    destruct (Z.le_ge_cases (i + n) (Z.of_nat (length l))) as [Hle'|Hge'].
    + rewrite Z.min_l by done. f_equal. lia.
    + rewrite Z.min_r by done.
      rewrite !take_ge; [done| |]; rewrite length_drop; lia.
  - rewrite !Z.min_r by lia. rewrite !drop_ge by lia. by rewrite !take_nil.
Qed.

(** ** [Utterance]: membership, replacement and n-grams *)

Lemma find_wf_leftmost (u : Utterance.t) (p : list word) :
  Utterance.wf u -> p <> [] ->
  exists r, Utterance.find u p = Ok r /\ leftmost (Utterance._utterance u) p r.
Proof.
  intros Hwf Hne.
  destruct (find_returns u p Hne) as (r & Hr & Hreject & Hscan).
  exists r. split; [exact Hr|].
  destruct (all_in_wordset (Utterance._wordset u) p) eqn:Hall; [by apply Hscan|].
  rewrite (Hreject eq_refl). left. split; [done|].
  intros i Hocc.
  assert (all_in_wordset (Utterance._wordset u) p = true) as Habs; [|congruence].
  apply all_in_wordset_true. intros w Hw. rewrite Hwf.
  apply elem_of_list_to_set. by eapply occurs_at_words.
Qed.

Lemma leftmost_found (utt p : list word) (r : Z) :
  leftmost utt p r -> (r <> -1 <-> exists i, occurs_at utt p i).
Proof.
  intros [[-> Hnone]|(Hr & Hocc & _)].
  - split; [done|]. intros [i Hi]. by destruct (Hnone i).
  - split; [eauto|]. intros _. lia.
Qed.

(** X1.  On an utterance whose word set is the set of its words,
    [phrase in utterance] is true exactly when the non-empty phrase occurs
    at some position; for the empty phrase the test raises
    [AssertionError]. *)
Theorem contains_iff_occurs (u : Utterance.t) (p : list word) :
  Utterance.wf u ->
  p <> [] ->
  (exists b, Utterance.__contains__ u p = Ok b
     /\ (b = true <-> exists i, occurs_at (Utterance._utterance u) p i))
  /\ Utterance.__contains__ u [] = Raise AssertionError.
Proof.
  intros Hwf Hne. split; [|reflexivity].
  destruct (find_wf_leftmost u p Hwf Hne) as (r & Hr & Hleft).
  unfold Utterance.__contains__. rewrite Hr. simpl_result.
  eexists. split; [reflexivity|].
  rewrite <- (leftmost_found _ _ _ Hleft).
  rewrite negb_true_iff, Z.eqb_neq. done.
Qed.

Lemma contains_iff_occurs_witness :
  (exists b, Utterance.__contains__ (Utterance.init "a b a b c") ["b"; "c"]%string = Ok b
     /\ (b = true <->
         exists i, occurs_at ["a"; "b"; "a"; "b"; "c"]%string ["b"; "c"]%string i))
  /\ Utterance.__contains__ (Utterance.init "a b a b c") [] = Raise AssertionError.
Proof.
  apply (contains_iff_occurs (Utterance.init "a b a b c") ["b"; "c"]%string).
  - reflexivity.
  - discriminate.
Defined.

Lemma occurs_at_split (utt p : list word) (i : nat) :
  occurs_at utt p i ->
  utt = take i utt ++ p ++ drop (i + length p) utt.
Proof.
  unfold occurs_at. intros E.
  rewrite <- (take_drop i utt) at 1. f_equal.
  rewrite <- (take_drop (length p) (drop i utt)) at 1.
  rewrite E. f_equal. rewrite drop_drop. done.
Qed.

Lemma occurs_at_middle (pre p post : list word) :
  occurs_at (pre ++ p ++ post) p (length pre).
Proof.
  unfold occurs_at. rewrite drop_app_length. by rewrite take_app_length.
Qed.

Lemma replace_returns (u : Utterance.t) (orig replacement : list word) :
  Utterance.wf u -> orig <> [] ->
  exists u' r,
    Utterance.replace u orig replacement = Ok (u', r)
    /\ leftmost (Utterance._utterance u) orig r
    /\ (r = -1 -> u' = u)
    /\ (0 <= r ->
        u' = Utterance.set_utterance
               (take (Z.to_nat r) (Utterance._utterance u)
                ++ replacement
                ++ drop (Z.to_nat r + length orig) (Utterance._utterance u))).
Proof.
  intros Hwf Hne.
  destruct (find_wf_leftmost u orig Hwf Hne) as (r & Hr & Hleft).
  unfold Utterance.replace. rewrite Hr. simpl_result.
  destruct (Z.eqb_spec r (-1)) as [->|Hfound].
  - exists u, (-1). repeat split; try done.
  - eexists _, r. split; [reflexivity|]. split; [done|]. split; [done|].
    intros Hpos. f_equal.
    rewrite slice_prefix by done. rewrite slice_suffix by (unfold len; lia).
    do 3 f_equal. unfold len. lia.
Qed.



(** X3.  After a replacement that took place, the non-empty replacement is
    found in the result, at the position replaced or before it. *)
Theorem replace_then_find (u u' : Utterance.t) (orig replacement : list word)
    (r : Z) :
  Utterance.wf u ->
  orig <> [] ->
  replacement <> [] ->
  Utterance.replace u orig replacement = Ok (u', r) ->
  0 <= r ->
  exists r', Utterance.find u' replacement = Ok r' /\ 0 <= r' <= r.
Proof.
  intros Hwf Hne Hrep Hrun Hr.
  destruct (replace_returns u orig replacement Hwf Hne)
    as (u1 & r1 & Hrun1 & Hleft & _ & Hhit).
  rewrite Hrun in Hrun1. injection Hrun1 as <- <-.
  specialize (Hhit Hr).
  assert (Utterance.wf u') as Hwf' by by rewrite Hhit.
  destruct (find_wf_leftmost u' replacement Hwf' Hrep) as (r' & Hr' & Hleft').
  exists r'. split; [done|].
  assert (occurs_at (Utterance._utterance u') replacement (Z.to_nat r)) as Hocc.
  { rewrite Hhit. cbn [Utterance._utterance Utterance.set_utterance].
    destruct Hleft as [[-> _]|(_ & Horig & _)]; [lia|].
    pose proof (occurs_at_bound _ _ _ Hne Horig) as Hbound.
    replace (Z.to_nat r) with
      (length (take (Z.to_nat r) (Utterance._utterance u))) at 3
      by (rewrite length_take; lia).
    apply occurs_at_middle. }
  destruct Hleft' as [[-> Hnone]|(Hpos & _ & Hmin)].
  - by destruct (Hnone (Z.to_nat r)).
  - split; [done|].
    destruct (decide (r' <= r)) as [|Hgt]; [done|].
    destruct (Hmin (Z.to_nat r)); [lia|done].
Qed.

Lemma replace_then_find_witness :
  exists r', Utterance.find (Utterance.set_utterance ["x"; "a"; "b"; "c"]%string)
               ["x"]%string = Ok r' /\ 0 <= r' <= 0.
Proof.
  apply (replace_then_find (Utterance.init "a b a b c")
           (Utterance.set_utterance ["x"; "a"; "b"; "c"]%string)
           ["a"; "b"]%string ["x"]%string 0).
  - reflexivity.
  - discriminate.
  - discriminate.
  - reflexivity.
  - lia.
Defined.

(** X4.  Replacing a phrase by itself changes nothing: the utterance
    returned equals the receiver, whether the phrase occurs or not. *)
Theorem replace_by_itself (u : Utterance.t) (p : list word) :
  Utterance.wf u ->
  p <> [] ->
  exists r, Utterance.replace u p p = Ok (u, r).
Proof.
  intros Hwf Hne.
  destruct (replace_returns u p p Hwf Hne) as (u' & r & Hrun & Hleft & Hmiss & Hhit).
  exists r. rewrite Hrun. do 2 f_equal.
  destruct Hleft as [[-> _]|(Hpos & Hocc & _)]; [by apply Hmiss|].
  rewrite (Hhit Hpos). rewrite <- (occurs_at_split _ _ _ Hocc).
  destruct u as [utt ws]. unfold Utterance.wf in Hwf. simpl in *.
  unfold Utterance.set_utterance. by rewrite Hwf.
Qed.

Lemma replace_by_itself_witness :
  exists r, Utterance.replace (Utterance.init "a b a b c") ["b"; "a"]%string
              ["b"; "a"]%string
            = Ok (Utterance.init "a b a b c", r).
Proof.
  apply (replace_by_itself (Utterance.init "a b a b c") ["b"; "a"]%string).
  - reflexivity.
  - discriminate.
Defined.

Lemma iter_ngrams_plain (u : Utterance.t) (n : Z) :
  1 <= n ->
  Utterance.iter_ngrams u n false
  = map (fun i => take (Z.to_nat n) (drop i (Utterance._utterance u)))
        (seq 0 (S (length (Utterance._utterance u)) - Z.to_nat n)).
Proof.
  intros Hn. unfold Utterance.iter_ngrams.
  set (utt := Utterance._utterance u). cbn [andb].
  rewrite Z.mul_0_l, Z.sub_0_r.
  destruct (Z.leb_spec (len utt) n) as [Hshort|Hlong].
  - destruct (Z.eqb_spec (len utt) n) as [Heq|Hlt].
    + replace (S (length utt) - Z.to_nat n)%nat with 1%nat by (unfold len in *; lia).
      simpl. rewrite drop_0. unfold slice. rewrite Z.sub_0_r.
      change (Z.to_nat 0) with 0%nat. rewrite drop_0.
      by replace (Z.to_nat (len utt)) with (Z.to_nat n) by lia.
    + by replace (S (length utt) - Z.to_nat n)%nat with 0%nat
        by (unfold len in *; lia).
  - rewrite app_nil_l, app_nil_r. unfold xrange, seqZ.
    rewrite <- list_fmap_compose.
    replace (Z.to_nat (len utt - n + 1 - 0))
      with (S (length utt) - Z.to_nat n)%nat by (unfold len in *; lia).
    apply map_ext. intros i. unfold compose.
    rewrite Z.add_0_r. rewrite slice_window by lia.
    by rewrite Nat2Z.id.
Qed.

(** X5.  Without boundary marks, the [n]-grams of an utterance are exactly
    the phrases of [n] words that occur in it, one for each position: there
    are [len - n + 1] of them, none when the utterance is shorter than
    [n]. *)
Theorem iter_ngrams_are_occurrences (u : Utterance.t) (n : Z) :
  1 <= n ->
  (forall w, w ∈ Utterance.iter_ngrams u n false <->
             len w = n /\ exists i, occurs_at (Utterance._utterance u) w i)
  /\ len (Utterance.iter_ngrams u n false)
     = Z.max 0 (len (Utterance._utterance u) - n + 1).
Proof.
  intros Hn. rewrite iter_ngrams_plain by done.
  set (utt := Utterance._utterance u). split.
  - intros w. rewrite list_elem_of_fmap. split.
    + intros (i & -> & Hi). apply elem_of_seq in Hi.
      assert (length (take (Z.to_nat n) (drop i utt)) = Z.to_nat n) as Hlen.
      { rewrite length_take, length_drop. lia. }
      split; [unfold len; lia|].
      exists i. unfold occurs_at. by rewrite Hlen.
    + intros (Hlen & i & Hocc). exists i.
      assert (w <> []) as Hne by (intros ->; unfold len in Hlen; simpl in Hlen; lia).
      pose proof (occurs_at_bound _ _ _ Hne Hocc) as Hbound.
      unfold occurs_at in Hocc. unfold len in Hlen.
      split.
      * rewrite <- Hocc at 1. do 2 f_equal. lia.
      * apply elem_of_seq. lia.
  - unfold len. rewrite length_map, length_seq. lia.
Qed.

Lemma iter_ngrams_are_occurrences_witness :
  (forall w, w ∈ Utterance.iter_ngrams (Utterance.init "a b a b c") 2 false <->
             len w = 2 /\ exists i,
               occurs_at (Utterance._utterance (Utterance.init "a b a b c")) w i)
  /\ len (Utterance.iter_ngrams (Utterance.init "a b a b c") 2 false)
     = Z.max 0 (len (Utterance._utterance (Utterance.init "a b a b c")) - 2 + 1).
Proof.
  apply (iter_ngrams_are_occurrences (Utterance.init "a b a b c") 2). lia.
Defined.

(** X6.  [!=] is not the negation of [==]: [__ne__] hands the word list of
    its argument to [__eq__], which accepts utterances and strings only, so
    any two utterances are unequal by [!=], an utterance and itself
    included, while [==] compares the words. *)
Theorem ne_always_true (u v : Utterance.t) :
  Utterance.__ne__ u v = true
  /\ (Utterance.__eq__ u (Utterance.OUtterance v) = true
      <-> Utterance._utterance u = Utterance._utterance v).
Proof.
  split; [reflexivity|]. simpl. apply bool_decide_eq_true.
Qed.

(** ** [AbstractedUtterance.replace] *)


Section ShiftIdxs.
Variables startidx len_orig : Z.
Hypothesis len_orig_nonneg : 0 <= len_orig.

Lemma shift_idx_inserted (idxs out : list Z) :
  Forall (fun i => startidx <= i) idxs ->
  fold_left (AbstractedUtterance.shift_idx startidx len_orig (1 - len_orig)) idxs
    (out, true)
  = (out ++ shifted startidx len_orig idxs, true).
Proof.
  revert out. induction idxs as [|idx idxs IH]; intros out Hall; simpl.
  - unfold shifted. simpl. by rewrite app_nil_r.
  - apply Forall_cons in Hall as [Hidx Hall].
    unfold AbstractedUtterance.shift_idx at 2. cbn [fst snd].
    replace (startidx <=? idx) with true by lia.
    unfold shifted. destruct (Z.ltb_spec (startidx + len_orig) idx) as [Hlt|Hge].
    + rewrite filter_cons_True by done. cbn [fst snd map]. rewrite IH by done.
      unfold shifted. by rewrite <- app_assoc.
    + rewrite filter_cons_False by lia. by rewrite IH.
Qed.

Lemma shift_idx_first (out : list Z) (idx : Z) :
  AbstractedUtterance.shift_idx startidx len_orig (1 - len_orig) (out, false) idx
  = if idx <? startidx then (out ++ [idx], false)
    else (out ++ [startidx] ++ shifted startidx len_orig [idx], true).
Proof.
  unfold AbstractedUtterance.shift_idx, shifted. cbn [fst snd].
  destruct (Z.leb_spec startidx idx), (Z.ltb_spec idx startidx); try lia; [|done].
  destruct (Z.ltb_spec (startidx + len_orig) idx).
  - rewrite filter_cons_True by done. cbn [fst snd]. by rewrite <- app_assoc.
  - rewrite filter_cons_False by lia. cbn [fst snd]. simpl. done.
Qed.

Lemma shift_idx_sorted (idxs out : list Z) :
  StronglySorted Z.lt idxs ->
  exists st,
    fold_left (AbstractedUtterance.shift_idx startidx len_orig (1 - len_orig))
      idxs (out, false) = st
    /\ (if st.2 then st.1 else st.1 ++ [startidx])
       = out ++ collapsed startidx len_orig idxs.
Proof.
  unfold collapsed.
  revert out. induction idxs as [|idx idxs IH]; intros out Hsorted.
  - eexists. split; [reflexivity|]. done.
  - apply StronglySorted_inv in Hsorted as [Hsorted Hidx].
    cbn [fold_left]. rewrite shift_idx_first.
    destruct (Z.ltb_spec idx startidx) as [Hlt|Hge].
    + destruct (IH (out ++ [idx]) Hsorted) as (st & Hrun & Hst).
      exists st. split; [done|]. rewrite Hst.
      rewrite filter_cons_True by done.
      replace (shifted startidx len_orig (idx :: idxs))
        with (shifted startidx len_orig idxs)
        by (unfold shifted; by rewrite filter_cons_False by lia).
      by rewrite <- !app_assoc.
    + assert (Forall (fun i => startidx <= i) idxs) as Hall.
      { eapply Forall_impl; [exact Hidx|]. simpl. lia. }
      rewrite shift_idx_inserted by done.
      eexists. split; [reflexivity|]. cbn [fst snd].
      rewrite filter_cons_False by lia.
      replace (filter (fun i => i < startidx) idxs) with (@nil Z).
      2:{ symmetry. clear -Hall. induction Hall as [|i l Hi _ IH]; [done|].
          rewrite filter_cons_False by lia. done. }
      rewrite <- !app_assoc. rewrite app_nil_l. do 2 f_equal.
      unfold shifted. rewrite <- map_app. f_equal.
      destruct (decide (startidx + len_orig < idx)).
      * by rewrite !filter_cons_True by done.
      * by rewrite !filter_cons_False by done.
Qed.


End ShiftIdxs.

Lemma abstracted_replace_returns (self : AbstractedUtterance.t)
    (orig replacement : list word) :
  Utterance.wf (AbstractedUtterance.base self) ->
  orig <> [] ->
  StronglySorted Z.lt (AbstractedUtterance._abstr_idxs self) ->
  exists r,
    leftmost (Utterance._utterance (AbstractedUtterance.base self)) orig r
    /\ (r = -1 -> AbstractedUtterance.replace self orig replacement = Ok (self, self))
    /\ (0 <= r ->
        let idxs := collapsed r (len orig) (AbstractedUtterance._abstr_idxs self) in
        AbstractedUtterance.replace self orig replacement
        = Ok ({| AbstractedUtterance.base := AbstractedUtterance.base self;
                 AbstractedUtterance._abstr_idxs := idxs |},
              {| AbstractedUtterance.base :=
                   Utterance.set_utterance
                     (take (Z.to_nat r)
                        (Utterance._utterance (AbstractedUtterance.base self))
                      ++ replacement
                      ++ drop (Z.to_nat r + length orig)
                           (Utterance._utterance (AbstractedUtterance.base self)));
                 AbstractedUtterance._abstr_idxs := idxs |})).
Proof.
  intros Hwf Hne Hsorted.
  destruct (replace_returns (AbstractedUtterance.base self) orig replacement Hwf Hne)
    as (u' & r & Hrun & Hleft & Hmiss & Hhit).
  exists r. split; [done|].
  unfold AbstractedUtterance.replace. rewrite Hrun. simpl_result. cbn [fst snd].
  split.
  - intros ->. reflexivity.
  - intros Hr. replace (r =? -1) with false by lia.
    rewrite (Hhit Hr).
    destruct (shift_idx_sorted r (len orig) (len_nonneg orig)
                (AbstractedUtterance._abstr_idxs self) [] Hsorted)
      as (st & Hst & Hfinal).
    cbn [AbstractedUtterance.from_utterance AbstractedUtterance._abstr_idxs
         AbstractedUtterance.base Utterance.set_utterance Utterance._utterance].
    rewrite Hst, Hfinal. reflexivity.
Qed.



(** X8.  When one word replaces the phrase and every abstracted index
    pointed into the utterance, every index of the utterance returned points
    into it too. *)
Theorem abstracted_replace_in_range (self self' ret : AbstractedUtterance.t)
    (orig replacement : list word) :
  Utterance.wf (AbstractedUtterance.base self) ->
  orig <> [] ->
  length replacement = 1%nat ->
  StronglySorted Z.lt (AbstractedUtterance._abstr_idxs self) ->
  Forall (fun i => 0 <= i < len (Utterance._utterance (AbstractedUtterance.base self)))
         (AbstractedUtterance._abstr_idxs self) ->
  AbstractedUtterance.replace self orig replacement = Ok (self', ret) ->
  Forall (fun i => 0 <= i < len (Utterance._utterance (AbstractedUtterance.base ret)))
         (AbstractedUtterance._abstr_idxs ret).
Proof.
  intros Hwf Hne Hone Hsorted Hrange Hrun.
  destruct (abstracted_replace_returns self orig replacement Hwf Hne Hsorted)
    as (r & Hleft & Hmiss & Hhit).
  destruct Hleft as [[-> _]|(Hpos & Hocc & _)].
  { rewrite (Hmiss eq_refl) in Hrun. by injection Hrun as <- <-. }
  rewrite (Hhit Hpos) in Hrun. injection Hrun as <- <-.
  cbn [AbstractedUtterance._abstr_idxs AbstractedUtterance.base
       Utterance.set_utterance Utterance._utterance].
  pose proof (occurs_at_bound _ _ _ Hne Hocc) as Hbound.
  set (utt := Utterance._utterance (AbstractedUtterance.base self)) in *.
  assert (len (take (Z.to_nat r) utt ++ replacement
               ++ drop (Z.to_nat r + length orig) utt)
          = len utt - len orig + 1) as ->.
  { unfold len. rewrite !length_app, length_take, length_drop, Hone. lia. }
  rewrite Forall_forall in Hrange.
  apply Forall_forall. intros i Hi. unfold collapsed in Hi.
  rewrite !elem_of_app in Hi. destruct Hi as [Hi|[Hi|Hi]].
  - apply list_elem_of_filter in Hi as [Hlt Hi]. specialize (Hrange i Hi).
    unfold len in *. lia.
  - apply list_elem_of_singleton in Hi as ->. unfold len. lia.
  - unfold shifted in Hi. apply list_elem_of_fmap in Hi as (j & -> & Hj).
    apply list_elem_of_filter in Hj as [Hlt Hj]. specialize (Hrange j Hj).
    unfold len in *. lia.
Qed.

Lemma abstracted_replace_in_range_witness :
  Forall (fun i => 0 <= i < len ["a"; "x"; "d"; "e"]%string) [0; 1; 3].
Proof.
  apply (abstracted_replace_in_range
           {| AbstractedUtterance.base := Utterance.init "a b c d e";
              AbstractedUtterance._abstr_idxs := [0; 2; 3; 4] |}
           {| AbstractedUtterance.base := Utterance.init "a b c d e";
              AbstractedUtterance._abstr_idxs := [0; 1; 3] |}
           {| AbstractedUtterance.base :=
                Utterance.set_utterance ["a"; "x"; "d"; "e"]%string;
              AbstractedUtterance._abstr_idxs := [0; 1; 3] |}
           ["b"; "c"]%string ["x"]%string).
  - reflexivity.
  - discriminate.
  - reflexivity.
  - repeat constructor.
  - repeat (apply Forall_cons; split; [split; [lia|reflexivity]|]). constructor.
  - reflexivity.
Defined.

(** ** [add] *)

(** X9.  [add] over exact arithmetic.  When the probabilities given sum to
    zero, as they do for an empty list, the call raises
    [ZeroDivisionError].  Otherwise it appends one slot with the same words
    in the same order whose probabilities sum to one, appends an empty list
    of long links beside it, leaves the slots that were there as they were,
    and adds the words to the word set. *)
Theorem add_normalised_slot (c : UtteranceConfusionNetwork.t Q)
    (hyps : list (Q * word)) :
  ((py_sum (map fst hyps) == 0)%Q -> add c hyps = Raise ZeroDivisionError)
  /\ (~ (py_sum (map fst hyps) == 0)%Q ->
      exists slot,
        add c hyps
        = Ok {| _abstr_idxs := _abstr_idxs c;
                _cn := _cn c ++ [slot];
                _wordset := _wordset c ∪ list_to_set (map snd hyps);
                _long_links := _long_links c ++ [[]] |}
        /\ map snd slot = map snd hyps
        /\ (py_sum (map fst slot) == 1)%Q)
  /\ add c [] = Raise ZeroDivisionError.
Proof.
  unfold add, py_div. cbn [r_eqb r_zero r_one r_div r_mul Q_arith].
  split; [|split; [|reflexivity]].
  - intros Hzero. apply Qeq_bool_iff in Hzero. by rewrite Hzero.
  - intros Hpos.
    destruct (Qeq_bool (py_sum (map fst hyps)) 0) eqn:E.
    { by apply Qeq_bool_iff in E. }
    simpl_result. eexists. split; [reflexivity|]. split.
    + rewrite <- list_fmap_compose. by apply map_ext.
    + set (n := (1 / py_sum (map fst hyps))%Q).
      transitivity (py_sum (map fst hyps) * n)%Q; [|unfold n; field; exact Hpos].
      rewrite <- py_sum_scaled. rewrite <- !list_fmap_compose. reflexivity.
Qed.

Lemma add_normalised_slot_witness :
  ((py_sum (map fst [(1%Q, "a"%string); (3%Q, "b"%string)]) == 0)%Q ->
   add only_a [(1%Q, "a"%string); (3%Q, "b"%string)] = Raise ZeroDivisionError)
  /\ (~ (py_sum (map fst [(1%Q, "a"%string); (3%Q, "b"%string)]) == 0)%Q ->
      exists slot,
        add only_a [(1%Q, "a"%string); (3%Q, "b"%string)]
        = Ok {| _abstr_idxs := _abstr_idxs only_a;
                _cn := _cn only_a ++ [slot];
                _wordset := _wordset only_a
                            ∪ list_to_set (map snd [(1%Q, "a"%string); (3%Q, "b"%string)]);
                _long_links := _long_links only_a ++ [[]] |}
        /\ map snd slot = map snd [(1%Q, "a"%string); (3%Q, "b"%string)]
        /\ (py_sum (map fst slot) == 1)%Q)
  /\ add only_a [] = Raise ZeroDivisionError.
Proof.
  apply (add_normalised_slot only_a [(1%Q, "a"%string); (3%Q, "b"%string)]).
Defined.

(** ** What [prune] and [normalise] leave alone *)

Lemma sublist_same_length {A} (l1 l2 : list A) :
  sublist l1 l2 -> length l1 = length l2 -> l1 = l2.
Proof.
  induction 1 as [|x l1 l2 Hsub IH|x l1 l2 Hsub IH]; simpl; intros Hlen.
  - done.
  - f_equal. apply IH. lia.
  - apply sublist_length in Hsub. lia.
Qed.

(** X10.  [prune] works on the slots only.  It keeps or drops whole slots,
    in order, recomputes the word set from the slots it kept, and leaves the
    table of long links as it was; so, on a confusion network whose two
    tables ran in parallel, they still do afterwards only if no slot was
    dropped. *)
Theorem prune_leaves_long_links {R : Type} `{Arith R}
    (c c' : UtteranceConfusionNetwork.t R) (prune_prob : R) :
  prune c prune_prob = Ok c' ->
  sublist (_cn c') (_cn c)
  /\ _long_links c' = _long_links c
  /\ _abstr_idxs c' = _abstr_idxs c
  /\ _wordset c' = cn_words (_cn c')
  /\ (wf c -> (wf c' <-> _cn c' = _cn c)).
Proof.
  intros Hrun. pose proof (prune_keeps_whole_slots c prune_prob c' Hrun) as Hsub.
  unfold prune in Hrun. apply bind_Ok_inv in Hrun as (pruned_cn & _ & [= <-]).
  cbn [_cn _long_links _abstr_idxs _wordset set_wordset set_cn] in *.
  do 4 (split; [done|]). unfold wf, links_wf.
  cbn [_cn _long_links set_wordset set_cn]. intros [Hlen Hne]. split.
  - intros [Hlen' _]. apply sublist_same_length; [done|]. congruence.
  - intros Heq. split; [congruence|done].
Qed.

Lemma prune_leaves_long_links_witness :
  sublist (_cn two_slots) (_cn two_slots)
  /\ _long_links (set_wordset two_slots (cn_words (_cn two_slots)))
     = _long_links two_slots
  /\ _abstr_idxs (set_wordset two_slots (cn_words (_cn two_slots)))
     = _abstr_idxs two_slots
  /\ _wordset (set_wordset two_slots (cn_words (_cn two_slots)))
     = cn_words (_cn two_slots)
  /\ (wf two_slots ->
      (wf (set_wordset two_slots (cn_words (_cn two_slots)))
       <-> _cn two_slots = _cn two_slots)).
Proof.
  apply (prune_leaves_long_links two_slots
           (set_wordset two_slots (cn_words (_cn two_slots))) (1 # 1000)).
  reflexivity.
Defined.

Section NormaliseFrame.
Context {R : Type} `{Arith R}.

Lemma scale_link_frame (normaliser : R) (ll ll' : list (list (LongLink R)))
    (x : link_idx) :
  scale_link normaliser ll x = Ok ll' ->
  map (map link_frame) ll' = map (map link_frame) ll.
Proof.
  unfold scale_link. intros Hrun.
  apply bind_Ok_inv in Hrun as (links & Hlinks & Hrun).
  apply bind_Ok_inv in Hrun as (link & Hlink & Hrun).
  apply bind_Ok_inv in Hrun as (p & Hp & [= <-]).
  unfold getnat in *.
  destruct (ll !! x.1.1) eqn:Es; [|done]. injection Hlinks as ->.
  destruct (links !! x.1.2) eqn:Ea; [|done]. injection Hlink as ->.
  rewrite list_fmap_insert. apply list_insert_id.
  rewrite list_lookup_fmap, Es. cbn [fmap option_fmap option_map]. f_equal.
  rewrite list_fmap_insert. symmetry. apply list_insert_id.
  rewrite list_lookup_fmap, Ea. cbn [fmap option_fmap option_map]. f_equal.
  unfold link_frame. cbn [end_ hyp orig_probs set_orig_probs].
  by rewrite length_insert.
Qed.

Lemma scale_links_frame (normaliser : R) (idxs : list link_idx)
    (ll ll' : list (list (LongLink R))) :
  scale_links normaliser ll idxs = Ok ll' ->
  map (map link_frame) ll' = map (map link_frame) ll.
Proof.
  revert ll. induction idxs as [|x idxs IH]; intros ll; cbn [scale_links].
  - by intros [= <-].
  - intros Hrun. apply bind_Ok_inv in Hrun as (ll1 & Hll1 & Hrun).
    rewrite (IH _ Hrun). by eapply scale_link_frame.
Qed.

Lemma normalise_step_frame (i : nat) (st st' : list link_idx * UtteranceConfusionNetwork.t R) :
  normalise_step i st = Ok st' ->
  frame st'.2 = frame st.2
  /\ forall j, j <> i -> _cn st'.2 !! j = _cn st.2 !! j.
Proof.
  unfold normalise_step. intros Hrun.
  apply bind_Ok_inv in Hrun as (new_link_idxs & _ & Hrun).
  apply bind_Ok_inv in Hrun as (here & _ & Hrun).
  apply bind_Ok_inv in Hrun as (alts & Halts & Hrun).
  apply bind_Ok_inv in Hrun as (link_probs & _ & Hrun).
  apply bind_Ok_inv in Hrun as (normaliser & _ & Hrun).
  apply bind_Ok_inv in Hrun as (ll' & Hll' & [= <-]).
  cbn [fst snd]. unfold frame.
  cbn [_cn _long_links _wordset _abstr_idxs set_long_links set_cn].
  split.
  - rewrite (scale_links_frame _ _ _ _ Hll'). do 3 f_equal.
    unfold getnat in Halts. destruct (_cn st.2 !! i) eqn:Ei; [|done].
    injection Halts as ->.
    rewrite list_fmap_insert. apply list_insert_id.
    rewrite list_lookup_fmap, Ei. cbn [fmap option_fmap option_map]. f_equal.
    rewrite <- list_fmap_compose. by apply map_ext.
  - intros j Hj. by rewrite list_lookup_insert_ne.
Qed.

Lemma normalise_loop_frame (slots : list nat)
    (st st' : list link_idx * UtteranceConfusionNetwork.t R) :
  normalise_loop slots st = Ok st' ->
  frame st'.2 = frame st.2
  /\ forall j, j ∉ slots -> _cn st'.2 !! j = _cn st.2 !! j.
Proof.
  revert st. induction slots as [|i slots IH]; intros st; cbn [normalise_loop].
  - by intros [= <-].
  - intros Hrun. apply bind_Ok_inv in Hrun as (st1 & Hstep & Hrun).
    apply normalise_step_frame in Hstep as [Hframe1 Hcn1].
    apply IH in Hrun as [Hframe Hcn]. split; [congruence|].
    intros j Hj. apply not_elem_of_cons in Hj as [Hji Hj].
    rewrite Hcn by done. by apply Hcn1.
Qed.

End NormaliseFrame.

(** X11.  [normalise] changes probabilities and nothing else: the words of
    every slot and their order, the ends, phrases and hop counts of the long
    links, the word set and the abstracted indices are what they were.  In
    particular the probability a long link carries with its phrase is not
    rescaled; only its per-slot hops are. *)
Theorem normalise_keeps_frame {R : Type} `{Arith R}
    (c c' : UtteranceConfusionNetwork.t R) (end_ : option Z) :
  normalise c end_ = Ok c' -> frame c' = frame c.
Proof.
  unfold normalise. intros Hrun.
  apply bind_Ok_inv in Hrun as (st & Hloop & [= <-]).
  by apply normalise_loop_frame in Hloop as [Hframe _].
Qed.

Lemma normalise_keeps_frame_witness :
  frame {| _abstr_idxs := [];
           _cn := [[(1 * (1 / (0 + 1 + (0 + 1))), "b")];
                   [(3 * (1 / (0 + 3 + (0 + 1))), "y")]]%string%Q;
           _wordset := {["b"; "y"; "ax"]}%string;
           _long_links :=
             [[{| end_ := 2;
                  orig_probs := [1 * (1 / (0 + 1 + (0 + 1)));
                                 1 * (1 / (0 + 3 + (0 + 1)))]%Q;
                  hyp := (1%Q, ["ax"%string]) |}]; []] |}
  = frame linked.
Proof.
  apply (normalise_keeps_frame linked _ None). reflexivity.
Defined.

(** X12.  [normalise(end=e)] with [e >= 0] leaves the slots from [e] on as
    they were. *)
Theorem normalise_stops_at_end {R : Type} `{Arith R}
    (c c' : UtteranceConfusionNetwork.t R) (e : Z) :
  0 <= e ->
  normalise c (Some e) = Ok c' ->
  forall i, (Z.to_nat e <= i)%nat -> _cn c' !! i = _cn c !! i.
Proof.
  unfold normalise. intros He Hrun i Hi.
  apply bind_Ok_inv in Hrun as (st & Hloop & [= <-]).
  apply normalise_loop_frame in Hloop as [_ Hcn]. apply Hcn.
  rewrite elem_of_seq. intros [_ Hlt]. simpl in Hlt.
  destruct (Z.leb_spec (len (_cn c)) e) as [Hshort|Hlong].
  - unfold len in Hshort. lia.
  - rewrite slice_prefix in Hlt by done. rewrite length_take in Hlt. lia.
Qed.

Lemma normalise_stops_at_end_witness :
  _cn {| _abstr_idxs := [];
         _cn := [[((6 # 10) * (1 / (0 + (6 # 10) + (4 # 10) + 0)), "a");
                  ((4 # 10) * (1 / (0 + (6 # 10) + (4 # 10) + 0)), "b")];
                 [(7 # 10, "x"); (3 # 10, "y")]]%string%Q;
         _wordset := {["a"; "b"; "x"; "y"]}%string;
         _long_links := [[]; []] |} !! 1%nat
  = _cn two_slots !! 1%nat.
Proof.
  apply (normalise_stops_at_end two_slots _ 1).
  - lia.
  - reflexivity.
  - simpl. lia.
Defined.

(** ** The size of the n-best table *)

Section ClosedTable.
Context {R : Type} `{Arith R}.

Lemma expand_loop_closed (todo : nat) (c : UtteranceConfusionNetwork.t R)
    (open_hyp : list (R * hyp_index)) (closed_hyp out : list (hyp_index * R)) :
  expand_loop todo c open_hyp closed_hyp = Ok out ->
  NoDup (map fst closed_hyp) ->
  NoDup (map fst out)
  /\ (length out <= length closed_hyp + todo)%nat
  /\ closed_hyp `prefix_of` out.
Proof.
  revert open_hyp closed_hyp.
  induction todo as [|todo IH]; intros open_hyp closed_hyp; cbn [expand_loop].
  - intros [= <-] Hnodup. split; [done|]. split; [lia|done].
  - destruct open_hyp as [|[current_prob current_hyp_index] open_hyp'].
    { intros [= <-] Hnodup. split; [done|]. split; [lia|done]. }
    unfold is_closed. case_bool_decide as Hclosed.
    + intros Hrun Hnodup. destruct (IH _ _ Hrun Hnodup) as (Hn & Hlen & Hpre).
      split; [done|]. split; [lia|done].
    + intros Hrun Hnodup.
      apply bind_Ok_inv in Hrun as (cands & _ & Hrun).
      apply bind_Ok_inv in Hrun as (new & _ & Hrun).
      destruct (IH _ _ Hrun) as (Hn & Hlen & Hpre).
      { rewrite map_app. simpl. apply NoDup_app. split; [done|]. split.
        - intros x Hx Hx'. apply list_elem_of_singleton in Hx' as ->. done.
        - apply NoDup_singleton. }
      split; [done|]. rewrite length_app in Hlen. simpl in Hlen. split; [lia|].
      etransitivity; [|exact Hpre]. by apply prefix_app_r.
Qed.

End ClosedTable.

(** X13.  The search of [get_utterance_nblist] on a confusion network whose
    slots are non-empty, with non-negative probabilities in non-increasing
    order: it returns; it closes at most [n] index vectors, no vector twice;
    and for [n >= 1] the first vector closed is the all-zero one, the first
    alternative of every slot, with its probability. *)
Theorem nblist_at_most_n (c : UtteranceConfusionNetwork.t Q) (n : Z) :
  sorted_confnet c ->
  Forall (fun alts => alts <> []) (_cn c) ->
  exists closed,
    get_utterance_nblist_closed c n = Ok closed
    /\ len closed <= Z.max 0 n
    /\ NoDup (map fst closed)
    /\ (1 <= n ->
        exists best_prob,
          closed !! 0%nat = Some (replicate (length (_cn c)) 0, best_prob)
          /\ get_prob c (replicate (length (_cn c)) 0) = Ok best_prob).
Proof.
  intros Hsorted Hnonempty. unfold get_utterance_nblist_closed.
  pose proof (best_hyp_valid c Hnonempty) as Hbest.
  destruct (valid_index_prob c Hsorted _ Hbest) as (best_prob & Hprob & _).
  rewrite Hprob. simpl_result.
  destruct (expand_loop_inv c Hsorted (Z.to_nat n)
              [(best_prob, replicate (length (_cn c)) 0)] [])
    as (closed & Hrun & _ & _).
  { constructor.
    - constructor; [by split|constructor].
    - repeat constructor.
    - constructor.
    - constructor.
    - intros hp ph Hhp. by apply elem_of_nil in Hhp. }
  exists closed. split; [exact Hrun|].
  destruct (expand_loop_closed _ _ _ _ _ Hrun) as (Hnodup & Hlen & _).
  { constructor. }
  split; [unfold len; simpl in Hlen; lia|]. split; [done|].
  intros Hn. exists best_prob. split; [|done].
  destruct (Z.to_nat n) as [|todo] eqn:En; [lia|].
  cbn [expand_loop] in Hrun. unfold is_closed in Hrun. cbn [map] in Hrun.
  rewrite bool_decide_eq_false_2 in Hrun by apply not_elem_of_nil.
  apply bind_Ok_inv in Hrun as (cands & _ & Hrun).
  apply bind_Ok_inv in Hrun as (new & _ & Hrun).
  destruct (expand_loop_closed _ _ _ _ _ Hrun) as (_ & _ & Hpre).
  { simpl. apply NoDup_singleton. }
  destruct Hpre as [rest ->]. reflexivity.
Qed.

Lemma nblist_at_most_n_witness :
  exists closed,
    get_utterance_nblist_closed two_slots 3 = Ok closed
    /\ len closed <= Z.max 0 3
    /\ NoDup (map fst closed)
    /\ (1 <= 3 ->
        exists best_prob,
          closed !! 0%nat = Some (replicate (length (_cn two_slots)) 0, best_prob)
          /\ get_prob two_slots (replicate (length (_cn two_slots)) 0) = Ok best_prob).
Proof.
  apply (nblist_at_most_n two_slots 3).
  - apply sorted_confnetb_correct. reflexivity.
  - repeat constructor; discriminate.
Defined.

(** ** [get_next_worse_candidates] *)

Lemma mapM_Raise {A B} (f : A -> result B) (l1 l2 : list A) (x : A) (e : exn) :
  Forall (fun y => exists b, f y = Ok b) l1 ->
  f x = Raise e ->
  mapM f (l1 ++ x :: l2) = Raise e.
Proof.
  intros Hl1 Hx. induction Hl1 as [|y l1 [b Hb] _ IH]; simpl.
  - by rewrite Hx.
  - rewrite Hb. simpl_result. by rewrite IH.
Qed.

Lemma elem_of_concat {A} (x : A) (ls : list (list A)) :
  x ∈ concat ls <-> exists l, x ∈ l /\ l ∈ ls.
Proof.
  induction ls as [|l ls IH]; simpl.
  - split; [by intros ?%elem_of_nil|by intros (l & _ & ?%elem_of_nil)].
  - rewrite elem_of_app, IH. split.
    + intros [Hx|(l' & Hx & Hl')].
      * exists l. split; [done|apply list_elem_of_here].
      * exists l'. split; [done|by apply list_elem_of_further].
    + intros (l' & Hx & Hl'). apply elem_of_cons in Hl' as [->|Hl']; eauto.
Qed.

(** X14.  [get_next_worse_candidates] on an index vector no longer than the
    confusion network returns exactly the vectors that differ from it in one
    slot, where the index is one higher and still points to an alternative
    of that slot; they come in the order of the slots.  On a vector longer
    than the confusion network it raises [IndexError]. *)
Theorem next_worse_candidates_spec {R : Type} `{Arith R}
    (c : UtteranceConfusionNetwork.t R) (hi : hyp_index) :
  ((length hi <= length (_cn c))%nat ->
   exists cands,
     get_next_worse_candidates c hi = Ok cands
     /\ forall hi', hi' ∈ cands <->
          exists (i : nat) (x : Z) (alts : list (R * word)),
            hi !! i = Some x /\ _cn c !! i = Some alts
            /\ x + 1 < len alts /\ hi' = <[i := x + 1]> hi)
  /\ ((length (_cn c) < length hi)%nat ->
      get_next_worse_candidates c hi = Raise IndexError).
Proof.
  unfold get_next_worse_candidates. split.
  - intros Hlen.
    destruct (mapM_Ok (next_worse_at c hi)
                (fun i cands => forall hi', hi' ∈ cands <->
                   exists x alts, hi !! i = Some x /\ _cn c !! i = Some alts
                     /\ x + 1 < len alts /\ hi' = <[i := x + 1]> hi)
                (seq 0 (length hi))) as (cs & -> & Hcs).
    { apply Forall_forall. intros i Hi. apply elem_of_seq in Hi.
      unfold next_worse_at.
      destruct (lookup_lt_is_Some_2 hi i) as [x Hx]; [lia|].
      destruct (lookup_lt_is_Some_2 (_cn c) i) as [alts Halts]; [lia|].
      rewrite (getnat_Ok _ _ _ Hx). simpl_result.
      rewrite (getnat_Ok _ _ _ Halts). simpl_result.
      destruct (Z.leb_spec (len alts) (x + 1)) as [Hle|Hgt].
      - eexists. split; [reflexivity|]. intros hi'. split.
        + intros Hin. by apply elem_of_nil in Hin.
        + intros (x' & alts' & Hx' & Halts' & Hlt & _).
          assert (x' = x) as -> by (unfold hyp_index in *; congruence).
          assert (alts' = alts) as -> by congruence. lia.
      - eexists. split; [reflexivity|]. intros hi'.
        rewrite list_elem_of_singleton. split.
        + intros ->. by exists x, alts.
        + intros (x' & alts' & Hx' & _ & _ & ->).
          by assert (x' = x) as -> by (unfold hyp_index in *; congruence). }
    simpl_result. eexists. split; [reflexivity|]. intros hi'.
    rewrite elem_of_concat. split.
    + intros (cands & Hin & Hcands).
      apply list_elem_of_lookup in Hcands as [k Hk].
      destruct (Forall2_lookup_r _ _ _ _ _ Hcs Hk) as (i & Hi & Hspec).
      apply Hspec in Hin as (x & alts & Hrest). by exists i, x, alts.
    + intros (i & x & alts & Hx & Halts & Hlt & ->).
      assert (seq 0 (length hi) !! i = Some i) as Hi.
      { apply lookup_seq. split; [done|]. by eapply lookup_lt_Some. }
      destruct (Forall2_lookup_l _ _ _ _ _ Hcs Hi) as (cands & Hcands & Hspec).
      exists cands. split; [|by eapply list_elem_of_lookup_2].
      apply Hspec. by exists x, alts.
  - intros Hlen.
    replace (length hi) with (length (_cn c) + S (length hi - S (length (_cn c))))%nat
      by lia.
    rewrite seq_app. cbn [seq].
    erewrite mapM_Raise; [reflexivity| |].
    + apply Forall_forall. intros i Hi. apply elem_of_seq in Hi.
      unfold next_worse_at.
      destruct (lookup_lt_is_Some_2 hi i) as [x Hx]; [lia|].
      destruct (lookup_lt_is_Some_2 (_cn c) i) as [alts Halts]; [lia|].
      rewrite (getnat_Ok _ _ _ Hx). simpl_result.
      rewrite (getnat_Ok _ _ _ Halts). simpl_result.
      destruct (_ <=? _); eauto.
    + unfold next_worse_at. rewrite Nat.add_0_l.
      destruct (lookup_lt_is_Some_2 hi (length (_cn c))) as [x Hx]; [lia|].
      rewrite (getnat_Ok _ _ _ Hx). simpl_result.
      unfold getnat. rewrite lookup_ge_None_2 by lia. reflexivity.
Qed.

(** ** [sort] *)

Lemma alt_ltb_true (a b : Q * word) : alt_ltb a b = true -> (a.1 <= b.1)%Q.
Proof.
  unfold alt_ltb. simpl. destruct (Qeq_bool a.1 b.1) eqn:E.
  - intros _. apply Qeq_bool_iff in E. rewrite E. apply Qle_refl.
  - intros Hlt. apply negb_true_iff in Hlt.
    apply Qlt_le_weak, Qnot_le_lt. intros Hle.
    apply Qle_bool_iff in Hle. congruence.
Qed.

Lemma alt_ltb_false (a b : Q * word) : alt_ltb a b = false -> (b.1 <= a.1)%Q.
Proof.
  unfold alt_ltb. simpl. destruct (Qeq_bool a.1 b.1) eqn:E.
  - intros _. apply Qeq_bool_iff in E. rewrite E. apply Qle_refl.
  - intros Hlt. apply negb_false_iff in Hlt. by apply Qle_bool_iff.
Qed.

Lemma insert_alt_perm {R : Type} `{Arith R} (x : R * word) (l : list (R * word)) :
  insert_alt x l ≡ₚ x :: l.
Proof.
  induction l as [|y l IH]; simpl; [done|].
  destruct (alt_ltb x y); [|done].
  rewrite IH. apply Permutation_swap.
Qed.

Lemma sort_alts_perm {R : Type} `{Arith R} (l : list (R * word)) :
  sort_alts l ≡ₚ l.
Proof.
  unfold sort_alts. induction l as [|x l IH]; simpl; [done|].
  by rewrite insert_alt_perm, IH.
Qed.

Lemma insert_alt_sorted (x : Q * word) (l : list (Q * word)) :
  StronglySorted (fun a b : Q * word => (b.1 <= a.1)%Q) l ->
  StronglySorted (fun a b : Q * word => (b.1 <= a.1)%Q) (insert_alt x l).
Proof.
  induction 1 as [|y l Hl IH Hall]; simpl.
  - repeat constructor.
  - destruct (alt_ltb x y) eqn:E.
    + constructor; [exact IH|].
      rewrite insert_alt_perm. constructor; [|exact Hall].
      by apply alt_ltb_true.
    + apply alt_ltb_false in E.
      constructor; [by constructor|]. constructor; [exact E|].
      eapply Forall_impl; [exact Hall|]. intros z Hz. simpl in *.
      by eapply Qle_trans.
Qed.

Lemma sort_alts_sorted (l : list (Q * word)) : slot_sorted (sort_alts l).
Proof.
  assert (StronglySorted (fun a b : Q * word => (b.1 <= a.1)%Q) (sort_alts l))
    as Hsorted.
  { unfold sort_alts. induction l as [|x l IH]; simpl; [constructor|].
    by apply insert_alt_sorted. }
  intros i j p q Hij Hi Hj.
  destruct (decide (i = j)) as [->|Hne].
  - assert (p = q) as -> by congruence. apply Qle_refl.
  - apply (StronglySorted_lookup _ _ i j p q Hsorted); [lia|done|done].
Qed.

(** X15.  [sort] over exact arithmetic puts every slot in non-increasing
    order of probability and changes nothing else: each slot keeps its
    alternatives, as many of each as before, and the long links, the word
    set and the abstracted indices stay.  With non-negative probabilities
    the result meets the precondition of the n-best search. *)
Theorem sort_orders_every_slot (c : UtteranceConfusionNetwork.t Q) :
  Forall2 (fun alts alts' => alts' ≡ₚ alts) (_cn c) (_cn (sort c))
  /\ Forall slot_sorted (_cn (sort c))
  /\ _long_links (sort c) = _long_links c
  /\ _wordset (sort c) = _wordset c
  /\ _abstr_idxs (sort c) = _abstr_idxs c
  /\ (Forall slot_nonneg (_cn c) -> sorted_confnet (sort c)).
Proof.
  unfold sort. cbn [_cn _long_links _wordset _abstr_idxs set_cn].
  assert (Forall slot_sorted (map sort_alts (_cn c))) as Hsorted.
  { apply Forall_fmap, Forall_forall. intros alts _. apply sort_alts_sorted. }
  split; [|split; [done|]]; [|do 3 (split; [done|])].
  - apply Forall2_fmap_r, Forall_Forall2_diag, Forall_forall.
    intros alts _. apply sort_alts_perm.
  - intros Hnonneg. unfold sorted_confnet. cbn [_cn set_cn].
    apply Forall_fmap, Forall_forall. intros alts Halts. split.
    + apply sort_alts_sorted.
    + rewrite Forall_forall in Hnonneg. intros pw Hpw.
      apply (Hnonneg alts Halts). by rewrite <- (sort_alts_perm alts).
Qed.

(** ** [find_unaware] *)

Lemma enumerate_cons {A} (start : Z) (x : A) (l : list A) :
  enumerate start (x :: l) = (start, x) :: enumerate (start + 1) l.
Proof.
  unfold enumerate. cbn [imap]. rewrite Z.add_0_r. f_equal.
  apply imap_ext. intros k y _. simpl. f_equal. lia.
Qed.

Lemma getitem_last {A} (l : list A) (x : A) : getitem (l ++ [x]) (-1) = Ok x.
Proof.
  unfold getitem, len. rewrite length_app. simpl.
  set (n := length l).
  replace ((0 <=? -1 + Z.of_nat (n + 1))
           && (-1 + Z.of_nat (n + 1) <? Z.of_nat (n + 1)))
    with true.
  2:{ symmetry. apply andb_true_iff. split; [apply Z.leb_le|apply Z.ltb_lt]; lia. }
  replace (Z.to_nat (-1 + Z.of_nat (n + 1))) with n by lia.
  unfold n. by rewrite lookup_app_r, Nat.sub_diag by lia.
Qed.

Section AdvanceStates.
Context {R : Type} `{Arith R}.
Variable alt_words : list word.

Local Abbreviation f := (fun (s : bool) (w : word) => s && bool_decide (w ∈ alt_words)).
Local Abbreviation body phrase :=
  (fun (new_states : list bool) (ps : Z * bool) =>
     if ps.2 then
       w ← getitem phrase ps.1;
       if bool_decide (w ∈ alt_words)
       then setitem new_states (ps.1 + 1) true
       else Ok new_states
     else Ok new_states).

Lemma advance_states_go (pre_p suf_p : list word) (pre_s suf_s : list bool) :
  length pre_s = length pre_p ->
  length suf_s = length suf_p ->
  fold_result (body (pre_p ++ suf_p))
    (enumerate (len pre_s) (suf_s ++ [false]))
    (true :: zip_with f pre_s pre_p ++ replicate (length suf_p) false)
  = Ok (true :: zip_with f (pre_s ++ suf_s) (pre_p ++ suf_p)).
Proof.
  revert pre_p pre_s suf_s.
  induction suf_p as [|w suf_p IH]; intros pre_p pre_s suf_s Hpre Hsuf.
  - destruct suf_s; [|done]. simpl. rewrite !app_nil_r. reflexivity.
  - destruct suf_s as [|s suf_s]; [done|]. simpl in Hsuf.
    rewrite <- app_comm_cons, enumerate_cons. cbn [fold_result fst snd].
    assert (getitem (pre_p ++ w :: suf_p) (len pre_s) = Ok w) as Hw.
    { destruct (getitem_in_range (pre_p ++ w :: suf_p) (len pre_s))
        as (w' & Hw' & ->).
      - unfold len. rewrite length_app. simpl. lia.
      - unfold len in Hw'. rewrite Nat2Z.id, Hpre in Hw'.
        rewrite lookup_app_r, Nat.sub_diag in Hw' by lia. by injection Hw' as ->. }
    assert (len pre_s + 1 = len (pre_s ++ [s])) as Hlen.
    { unfold len. rewrite length_app. simpl. lia. }
    assert (zip_with f (pre_s ++ [s]) (pre_p ++ [w])
            = zip_with f pre_s pre_p ++ [f s w]) as Hzip.
    { by rewrite zip_with_app by done. }
    replace (pre_p ++ w :: suf_p) with ((pre_p ++ [w]) ++ suf_p)
      by (by rewrite <- app_assoc).
    replace (pre_s ++ s :: suf_s) with ((pre_s ++ [s]) ++ suf_s)
      by (by rewrite <- app_assoc).
    rewrite <- (IH (pre_p ++ [w]) (pre_s ++ [s]) suf_s);
      [|rewrite !length_app; simpl; lia|lia].
    rewrite Hzip, <- Hlen.
    replace ((pre_p ++ [w]) ++ suf_p) with (pre_p ++ w :: suf_p)
      by (by rewrite <- app_assoc).
    destruct s; cbn [andb].
    + rewrite Hw. simpl_result. case_bool_decide.
      * unfold setitem.
        replace (len pre_s + 1 <? 0) with false by (unfold len; lia).
        replace ((0 <=? len pre_s + 1) && (len pre_s + 1 <? len _)) with true.
        2:{ symmetry. apply andb_true_iff. unfold len. simpl.
            rewrite length_app, length_zip_with. simpl. rewrite length_replicate.
            split; [apply Z.leb_le|apply Z.ltb_lt]; lia. }
        simpl_result. f_equal.
        replace (Z.to_nat (len pre_s + 1)) with (S (length pre_s))
          by (unfold len; lia).
        match goal with
        | |- <[S ?i := true]> (true :: ?l) = _ =>
            change (<[S i := true]> (true :: l)) with (true :: <[i := true]> l)
        end. f_equal.
        rewrite insert_app_r_alt by (rewrite length_zip_with; lia).
        rewrite length_zip_with.
        replace (length pre_s - length pre_s `min` length pre_p)%nat with 0%nat by lia.
        simpl. by rewrite <- app_assoc.
      * f_equal. f_equal. by rewrite <- app_assoc.
    + f_equal. f_equal. by rewrite <- app_assoc.
Qed.

Lemma advance_states_step (phrase : list word) (states : list bool) :
  length states = length phrase ->
  advance_states phrase alt_words (states ++ [false])
  = Ok (step_states phrase alt_words (states ++ [false])).
Proof.
  intros Hlen. unfold advance_states, step_states.
  etransitivity; [exact (advance_states_go [] phrase [] states eq_refl Hlen)|].
  do 2 f_equal. cbn [app].
  rewrite <- (app_nil_r phrase) at 2.
  rewrite zip_with_app by done. simpl. by rewrite app_nil_r.
Qed.

End AdvanceStates.

Lemma getitem_minus_one {A} (l : list A) (x : A) :
  last l = Some x -> getitem l (-1) = Ok x.
Proof. intros Hlast. apply last_Some in Hlast as [l' ->]. apply getitem_last. Qed.

Section FindUnaware.
Context {R : Type} `{Arith R}.
Variable win : list (list (R * word)).
Variable phrase : list word.
Variable start : Z.
Hypothesis phrase_nonempty : phrase <> [].

Local Abbreviation n := (length phrase).

Lemma fits_at_snoc (l : list word) (w : word) (i : nat) :
  fits_at win (l ++ [w]) i <->
  fits_at win l i
  /\ exists alts, win !! (i + length l)%nat = Some alts /\ w ∈ map snd alts.
Proof.
  unfold fits_at. split.
  - intros Hfit. split.
    + intros m v Hm. apply Hfit. by apply lookup_app_l_Some.
    + apply Hfit. by rewrite lookup_app_r, Nat.sub_diag by lia.
  - intros [Hfit Hw] m v Hm.
    apply lookup_app_Some in Hm as [Hm|[Hge Hm]]; [by apply Hfit|].
    apply list_lookup_singleton_Some in Hm as [Hm ->].
    by replace m with (length l) by lia.
Qed.

Lemma prefix_fits_0 (k : nat) : prefix_fits win phrase k 0.
Proof.
  split; [lia|]. rewrite take_0. intros m w Hm. by rewrite lookup_nil in Hm.
Qed.

Lemma prefix_fits_S (k j : nat) (alts : list (R * word)) (w : word) :
  win !! k = Some alts ->
  phrase !! j = Some w ->
  prefix_fits win phrase (S k) (S j)
  <-> prefix_fits win phrase k j /\ w ∈ map snd alts.
Proof.
  intros Halts Hw. unfold prefix_fits.
  rewrite (take_S_r _ _ _ Hw), fits_at_snoc.
  pose proof (lookup_lt_Some _ _ _ Hw) as Hj.
  rewrite length_take, Nat.min_l by lia.
  replace (S k - S j)%nat with (k - j)%nat by lia.
  split.
  - intros (Hle & Hfit & alts' & Halts' & Hin).
    replace (k - j + j)%nat with k in Halts' by lia.
    assert (alts' = alts) as -> by congruence.
    repeat split; [lia|done|done].
  - intros ((Hle & Hfit) & Hin). repeat split; [lia|done|].
    exists alts. by replace (k - j + j)%nat with k by lia.
Qed.

Lemma prefix_fits_full (i : nat) :
  prefix_fits win phrase (i + n) n <-> fits_at win phrase i.
Proof.
  unfold prefix_fits. rewrite firstn_all.
  replace (i + n - n)%nat with i by lia. split; [by intros [_ ?]|].
  intros Hfit. split; [lia|done].
Qed.

Lemma fits_at_bound (i : nat) : fits_at win phrase i -> (i + n <= length win)%nat.
Proof.
  intros Hfit.
  destruct (lookup_lt_is_Some_2 phrase (n - 1)) as [w Hw].
  { destruct phrase; [done|simpl; lia]. }
  destruct (Hfit _ _ Hw) as (alts & Halts & _).
  apply lookup_lt_Some in Halts. lia.
Qed.

(** The invariant of the loop over the slots, before slot [k]. *)
Local Abbreviation inv k states :=
  (length states = S n
   /\ (forall j b, states%list !! j = Some b ->
         (b = true <-> prefix_fits win phrase k j))
   /\ (forall k', (k' <= k)%nat -> ~ prefix_fits win phrase k' n)).

Local Abbreviation body :=
  (fun (widx_alts : Z * list (R * word)) (states : list bool) =>
     new_states ← advance_states phrase (map snd widx_alts.2) states;
     last ← getitem new_states (-1);
     if last : bool then Ok (Return (widx_alts.1 - len phrase + 1))
     else Ok (Continue new_states)).

Lemma inv_last_false (k : nat) (states : list bool) :
  inv k states -> exists st, states = st ++ [false] /\ length st = n.
Proof.
  intros (Hlen & Hstates & Hnone).
  destruct (lookup_lt_is_Some_2 states n) as [b Hb]; [lia|].
  assert (b = false) as ->.
  { destruct b; [|done]. destruct (Hnone k); [done|]. by apply (Hstates n true). }
  exists (take n states). split; [|rewrite length_take; lia].
  rewrite <- (take_drop n states) at 1. f_equal.
  rewrite (drop_S _ _ _ Hb). rewrite drop_ge by lia. done.
Qed.

Lemma inv_step (k : nat) (states : list bool) (alts : list (R * word)) :
  win !! k = Some alts ->
  inv k states ->
  forall j b, step_states phrase (map snd alts) states !! j = Some b ->
    (b = true <-> prefix_fits win phrase (S k) j).
Proof.
  intros Halts (Hlen & Hstates & Hnone) j b Hb. unfold step_states in Hb.
  destruct j as [|j].
  - injection Hb as <-. split; [intros _; apply prefix_fits_0|done].
  - cbn [lookup list_lookup] in Hb.
    change (list_lookup j ?l) with (l !! j) in Hb.
    apply lookup_zip_with_Some in Hb as (s & w & -> & Hs & Hw).
    rewrite (prefix_fits_S k j alts w Halts Hw).
    rewrite andb_true_iff, bool_decide_eq_true.
    by rewrite (Hstates j s Hs).
Qed.

Lemma find_unaware_loop (rest pre : list (list (R * word))) (states : list bool) :
  win = pre ++ rest ->
  inv (length pre) states ->
  exists c,
    for_each (enumerate (start + len pre) rest) states body = Ok c
    /\ match c with
       | Return r =>
           exists k, r = start + Z.of_nat k - len phrase + 1
             /\ prefix_fits win phrase (S k) n
             /\ forall k', (k' <= k)%nat -> ~ prefix_fits win phrase k' n
       | Continue states' => inv (length win) states'
       end.
Proof.
  revert pre states. induction rest as [|alts rest IH]; intros pre states Hwin Hinv.
  - exists (Continue states). split; [done|].
    assert (length win = length pre) as ->; [|exact Hinv].
    rewrite Hwin, length_app. simpl. lia.
  - rewrite enumerate_cons. cbn [for_each fst snd].
    destruct (inv_last_false _ _ Hinv) as (st & -> & Hst).
    rewrite advance_states_step by done. simpl_result.
    assert (win !! length pre = Some alts) as Halts.
    { rewrite Hwin. by rewrite lookup_app_r, Nat.sub_diag by lia. }
    pose proof (inv_step _ _ _ Halts Hinv) as Hstep.
    set (ns := step_states phrase (map snd alts) (st ++ [false])) in *.
    assert (length ns = S n) as Hns.
    { unfold ns, step_states. simpl. rewrite length_zip_with, length_app. simpl. lia. }
    destruct (lookup_lt_is_Some_2 ns n) as [b Hb]; [lia|].
    assert (last ns = Some b) as Hlast.
    { rewrite last_lookup, Hns. exact Hb. }
    rewrite (getitem_minus_one _ _ Hlast). simpl_result.
    destruct Hinv as (Hlen & Hstates & Hnone).
    destruct b.
    + eexists. split; [reflexivity|]. exists (length pre).
      split; [unfold len; lia|]. split; [|done].
      by apply (Hstep n true).
    + destruct (IH (pre ++ [alts]) ns) as (c & Hc & Hspec).
      * by rewrite <- app_assoc.
      * rewrite length_app. simpl. replace (length pre + 1)%nat with (S (length pre)) by lia.
        split; [done|]. split; [done|].
        intros k' Hk'. destruct (decide (k' = S (length pre))) as [->|Hne].
        -- intros Hfit. by apply (Hstep n false) in Hfit.
        -- apply Hnone. lia.
      * exists c. split; [|done]. rewrite <- Hc.
        replace (start + len (pre ++ [alts])) with (start + len pre + 1); [done|].
        unfold len. rewrite length_app. simpl. lia.
Qed.

End FindUnaware.

Lemma slice_lookup {A} (l : list A) (lo hi : Z) (m : nat) :
  0 <= lo -> 0 <= hi ->
  slice l (Some lo) (Some hi) !! m
  = if decide (lo + Z.of_nat m < Z.min hi (len l))
    then l !! (Z.to_nat lo + m)%nat else None.
Proof.
  intros Hlo Hhi. unfold slice, slice_bound, len.
  replace (lo <? 0) with false by lia. replace (hi <? 0) with false by lia.
  destruct (decide (lo + Z.of_nat m < Z.min hi (Z.of_nat (length l)))) as [Hlt|Hge].
  - rewrite lookup_take_lt by lia. rewrite lookup_drop. f_equal. lia.
  - destruct (decide (m < Z.to_nat (Z.min hi (Z.of_nat (length l))
                                   - Z.min lo (Z.of_nat (length l))))%nat).
    + rewrite lookup_take_lt by done. rewrite lookup_drop.
      apply lookup_ge_None_2. lia.
    + by rewrite lookup_take_ge by lia.
Qed.

Lemma find_unaware_window {R : Type} `{Arith R}
    (c : UtteranceConfusionNetwork.t R) (phrase : list word) (start : Z)
    (end_ : option Z) :
  phrase <> [] ->
  all_in_wordset (_wordset c) phrase = true ->
  let endw := match end_ with None => len (_cn c) | Some e => e end in
  let win := slice (_cn c) (Some start) (Some endw) in
  exists r,
    find_unaware c phrase start end_ = Ok r
    /\ ((r = -1 /\ forall i, ~ fits_at win phrase i)
        \/ exists i : nat,
             r = start + Z.of_nat i /\ fits_at win phrase i
             /\ forall i', (i' < i)%nat -> ~ fits_at win phrase i').
Proof.
  intros Hne Hall endw win. unfold find_unaware. rewrite Hall. cbn [negb].
  fold endw. fold win.
  destruct (find_unaware_loop win phrase start win []
              (true :: replicate (length phrase) false)) as (ctl & Hrun & Hspec).
  { done. }
  { split; [simpl; by rewrite length_replicate|]. split.
    - intros [|j] b Hb.
      + injection Hb as <-. split; [intros _; apply prefix_fits_0|done].
      + cbn [lookup list_lookup] in Hb.
        change (list_lookup j ?l) with (l !! j) in Hb.
        apply lookup_replicate in Hb as [-> _].
        split; [done|]. intros [Hle _]. simpl in Hle. lia.
    - intros k' Hk' [Hle _]. simpl in Hk'.
      destruct phrase; [done|]. simpl in Hle. lia. }
  replace (start + len []) with start in Hrun by (unfold len; simpl; lia).
  rewrite Hrun. simpl_result. destruct ctl as [states|r].
  - destruct Hspec as (Hlen & Hstates & Hnone).
    destruct (inv_last_false win phrase (length win) states)
      as (st & -> & _); [done|].
    rewrite getitem_last. simpl_result. exists (-1). split; [done|]. left.
    split; [done|]. intros i Hfit.
    pose proof (fits_at_bound win phrase Hne i Hfit) as Hbound.
    apply (Hnone (i + length phrase)%nat); [lia|].
    by apply prefix_fits_full.
  - destruct Hspec as (k & -> & Hfit & Hnone). eexists. split; [reflexivity|].
    right. destruct Hfit as [Hle Hfit]. rewrite firstn_all in Hfit.
    exists (S k - length phrase)%nat. split; [unfold len; lia|]. split; [done|].
    intros i' Hi' Hfit'. apply (Hnone (i' + length phrase)%nat); [lia|].
    by apply prefix_fits_full.
Qed.

Lemma fits_at_window {R : Type} `{Arith R} (cn : list (list (R * word)))
    (phrase : list word) (start endw : Z) (i : nat) :
  phrase <> [] -> 0 <= start -> 0 <= endw ->
  fits_at (slice cn (Some start) (Some endw)) phrase i
  <-> fits_at cn phrase (Z.to_nat start + i)
      /\ start + Z.of_nat i + len phrase <= Z.min endw (len cn).
Proof.
  intros Hne Hstart Hend.
  destruct (lookup_lt_is_Some_2 phrase (length phrase - 1)) as [wl Hwl].
  { destruct phrase; [done|simpl; lia]. }
  split.
  - intros Hfit. split.
    + intros m w Hw. destruct (Hfit m w Hw) as (alts & Halts & Hin).
      rewrite slice_lookup in Halts by done.
      destruct (decide _); [|done].
      exists alts. split; [|done]. rewrite <- Halts. f_equal. lia.
    + destruct (Hfit _ _ Hwl) as (alts & Halts & _).
      rewrite slice_lookup in Halts by done.
      destruct (decide _) as [Hlt|]; [|done].
      apply lookup_lt_Some in Hwl. unfold len in *. lia.
  - intros [Hfit Hbound] m w Hw. destruct (Hfit m w Hw) as (alts & Halts & Hin).
    exists alts. split; [|done]. rewrite slice_lookup by done.
    apply lookup_lt_Some in Hw.
    rewrite decide_True by (unfold len in *; lia).
    rewrite <- Halts. f_equal. lia.
Qed.

Lemma fits_at_words {R : Type} `{Arith R} (cn : list (list (R * word)))
    (phrase : list word) (i : nat) (w : word) :
  fits_at cn phrase i -> w ∈ phrase -> w ∈ cn_words cn.
Proof.
  intros Hfit Hw. apply list_elem_of_lookup in Hw as [m Hm].
  destruct (Hfit m w Hm) as (alts & Halts & Hin).
  unfold cn_words. apply elem_of_list_to_set.
  apply list_elem_of_fmap in Hin as (pw & -> & Hpw).
  apply list_elem_of_fmap. exists pw. split; [done|].
  apply elem_of_concat. exists alts. split; [done|].
  by eapply list_elem_of_lookup_2.
Qed.

(** X16.  [find_unaware] looks at the one-word alternatives only.  For a
    non-empty phrase, [start >= 0] and [end] absent or non-negative, on a
    confusion network whose word set holds the words of its slots, it
    returns the leftmost position [r] between [start] and the end of the
    range such that each word of the phrase is among the alternatives of
    the slot it falls on, and [-1] when the range has no such position. *)
Theorem find_unaware_leftmost {R : Type} `{Arith R}
    (c : UtteranceConfusionNetwork.t R) (phrase : list word) (start : Z)
    (end_ : option Z) :
  phrase <> [] ->
  0 <= start ->
  (forall e, end_ = Some e -> 0 <= e) ->
  cn_words (_cn c) ⊆ _wordset c ->
  let hi := match end_ with
            | None => len (_cn c)
            | Some e => Z.min e (len (_cn c))
            end in
  exists r,
    find_unaware c phrase start end_ = Ok r
    /\ ((r = -1
         /\ forall i : nat,
              start <= Z.of_nat i -> Z.of_nat i + len phrase <= hi ->
              ~ fits_at (_cn c) phrase i)
        \/ (start <= r /\ r + len phrase <= hi
            /\ fits_at (_cn c) phrase (Z.to_nat r)
            /\ forall i : nat,
                 start <= Z.of_nat i < r -> ~ fits_at (_cn c) phrase i)).
Proof.
  intros Hne Hstart Hend Hwords hi.
  set (endw := match end_ with None => len (_cn c) | Some e => e end).
  assert (0 <= endw) as Hendw.
  { unfold endw. destruct end_ as [e|]; [by apply Hend|apply len_nonneg]. }
  assert (hi = Z.min endw (len (_cn c))) as Hhi.
  { unfold hi, endw. destruct end_; [done|]. by rewrite Z.min_id. }
  destruct (all_in_wordset (_wordset c) phrase) eqn:Hall.
  - destruct (find_unaware_window c phrase start end_ Hne Hall)
      as (r & Hrun & Hspec).
    fold endw in Hspec. exists r. split; [done|].
    destruct Hspec as [[-> Hnone]|(i & -> & Hfit & Hmin)].
    + left. split; [done|]. intros i Hi Hbound Hfit.
      apply (Hnone (i - Z.to_nat start)%nat).
      apply fits_at_window; [done..|].
      replace (Z.to_nat start + (i - Z.to_nat start))%nat with i by lia.
      split; [done|]. lia.
    + right. apply fits_at_window in Hfit as [Hfit Hbound]; [|done..].
      split; [lia|]. split; [lia|]. split.
      * by replace (Z.to_nat (start + Z.of_nat i)) with (Z.to_nat start + i)%nat
          by lia.
      * intros i' Hi' Hfit'. apply (Hmin (i' - Z.to_nat start)%nat); [lia|].
        apply fits_at_window; [done..|].
        replace (Z.to_nat start + (i' - Z.to_nat start))%nat with i' by lia.
        split; [done|]. lia.
  - exists (-1). split; [unfold find_unaware; by rewrite Hall|].
    left. split; [done|]. intros i _ _ Hfit.
    assert (all_in_wordset (_wordset c) phrase = true) as Habs; [|congruence].
    apply all_in_wordset_true. intros w Hw. apply Hwords.
    by eapply fits_at_words.
Qed.

Lemma find_unaware_leftmost_witness :
  let hi := len (_cn two_slots) in
  exists r,
    find_unaware two_slots ["b"; "x"]%string 0 None = Ok r
    /\ ((r = -1
         /\ forall i : nat,
              0 <= Z.of_nat i -> Z.of_nat i + len ["b"; "x"]%string <= hi ->
              ~ fits_at (_cn two_slots) ["b"; "x"]%string i)
        \/ (0 <= r /\ r + len ["b"; "x"]%string <= hi
            /\ fits_at (_cn two_slots) ["b"; "x"]%string (Z.to_nat r)
            /\ forall i : nat,
                 0 <= Z.of_nat i < r -> ~ fits_at (_cn two_slots) ["b"; "x"]%string i)).
Proof.
  apply (find_unaware_leftmost two_slots ["b"; "x"]%string 0 None).
  - discriminate.
  - lia.
  - discriminate.
  - apply (bool_decide_unpack _). vm_compute. exact I.
Defined.

(** X17.  [find_unaware] with the empty phrase: when the range searched
    holds no slot it returns the end of the range, whatever the start; when
    the range holds a slot it raises [IndexError]. *)
Theorem find_unaware_empty_phrase {R : Type} `{Arith R}
    (c : UtteranceConfusionNetwork.t R) (start : Z) (end_ : option Z) :
  let endw := match end_ with None => len (_cn c) | Some e => e end in
  (slice (_cn c) (Some start) (Some endw) = [] ->
   find_unaware c [] start end_ = Ok endw)
  /\ (slice (_cn c) (Some start) (Some endw) <> [] ->
      find_unaware c [] start end_ = Raise IndexError).
Proof.
  intros endw. unfold find_unaware. cbn [all_in_wordset forallb negb].
  fold endw. split.
  - intros ->. simpl. unfold len. simpl. f_equal. lia.
  - destruct (slice _ _ _) as [|alts win]; [done|]. intros _.
    rewrite enumerate_cons. cbn [for_each]. reflexivity.
Qed.

(** ** [find] on a confusion network without long links *)

Lemma get_phrase_idxs_unfold {R : Type} `{Arith R} (depth : nat)
    (self : UtteranceConfusionNetwork.t R) (word0 : word) (rest : list word)
    (start : Z) (end_ : option Z) (start_in_midlinks : bool) :
  get_phrase_idxs depth self (word0 :: rest) start end_ start_in_midlinks
  = let sub := fun p s e =>
      match depth with
      | O => OutOfFuel
      | S depth' => get_phrase_idxs depth' self p s (Some e) false
      end in
    let endw := match end_ with None => len (_cn self) | Some e => e end in
    if endw <=? start then Ok []
    else if negb (all_in_wordset (_wordset self) (word0 :: rest)) then Ok []
    else
      c ← match_from sub self (word0 :: rest) word0 endw start;
      match c with
      | Return found => Ok found
      | Continue l_idx =>
          if start_in_midlinks then
            c' ← match_midlinks sub self (word0 :: rest) endw start l_idx;
            match c' with
            | Return found => Ok found
            | Continue _ => Ok []
            end
          else Ok []
      end.
Proof. by destruct depth. Qed.

Section GapSearch.
Context {R : Type} `{Arith R}.
Variable c : UtteranceConfusionNetwork.t R.
Hypothesis no_links : _long_links c = replicate (length (_cn c)) [].
Hypothesis words_known : cn_words (_cn c) ⊆ _wordset c.

Lemma embeds_words (phrase : list word) (start : nat) (w : word) :
  embeds (_cn c) phrase start -> w ∈ phrase -> w ∈ _wordset c.
Proof.
  revert start. induction phrase as [|v phrase IH]; intros start Hemb Hw.
  - by apply elem_of_nil in Hw.
  - destruct Hemb as (i & _ & (alts & Halts & Hin) & Hrest).
    apply elem_of_cons in Hw as [->|Hw]; [|by eapply IH].
    apply words_known. unfold cn_words. apply elem_of_list_to_set.
    apply list_elem_of_fmap in Hin as (pw & -> & Hpw).
    apply list_elem_of_fmap. exists pw. split; [done|].
    apply elem_of_concat. exists alts. split; [done|].
    by eapply list_elem_of_lookup_2.
Qed.

Lemma matching_hyps_spec (word0 : word) (alts : list (R * word)) (s : Z) :
  match filter (fun aidx_hyp : Z * (R * word) => aidx_hyp.2.2 = word0)
               (enumerate s alts) with
  | [] => word0 ∉ map snd alts
  | _ :: _ => word0 ∈ map snd alts
  end.
Proof.
  revert s. induction alts as [|h alts IH]; intros s.
  - simpl. apply not_elem_of_nil.
  - rewrite enumerate_cons. destruct (decide (h.2 = word0)) as [Hh|Hh].
    + rewrite filter_cons_True by done. simpl. rewrite <- Hh. apply list_elem_of_here.
    + rewrite filter_cons_False by done. specialize (IH (s + 1)).
      destruct (filter _ _).
      * simpl. rewrite not_elem_of_cons. split; [by intros ->|done].
      * simpl. by apply list_elem_of_further.
Qed.

Lemma match_links_none (sub : list word -> Z -> Z -> result (list idx))
    (phrase : list word) (endw : Z) (i : nat) (l_idx : option Z) :
  (i < length (_cn c))%nat ->
  match_links sub c phrase endw (Z.of_nat i) l_idx = Ok (Continue l_idx).
Proof.
  intros Hi. unfold match_links.
  destruct (getitem_in_range (_long_links c) (Z.of_nat i)) as (links & Hlinks & ->).
  { rewrite no_links. unfold len. rewrite length_replicate. lia. }
  rewrite no_links, Nat2Z.id in Hlinks.
  apply lookup_replicate in Hlinks as [-> _]. reflexivity.
Qed.

Lemma phrase_links_nil (endw start : Z) : phrase_links c endw start = [].
Proof.
  unfold phrase_links.
  assert (Forall (fun links : list (LongLink R) => links = [])
            (slice (_long_links c) (Some start) (Some endw))) as Hall.
  { rewrite no_links. unfold slice. apply Forall_take, Forall_drop.
    by apply Forall_replicate. }
  revert Hall. generalize (slice (_long_links c) (Some start) (Some endw)).
  intros ll Hall.
  assert (forall s,
    flat_map (fun start_idx_links : Z * list (LongLink R) =>
                map (fun link => (start_idx_links.1, link))
                    (filter (fun link => start < end_ link) start_idx_links.2))
             (enumerate s ll) = []) as Hnil; [|apply Hnil].
  induction Hall as [|links ll -> _ IH]; intros s; [done|].
  rewrite enumerate_cons. simpl. apply IH.
Qed.

Section Loop.
Variable sub : list word -> Z -> Z -> result (list idx).
Variable word0 : word.
Variable rest : list word.

Local Abbreviation phrase := (word0 :: rest).
Local Abbreviation good i :=
  (slot_offers (_cn c) i word0 /\ embeds (_cn c) rest (S i)).

Hypothesis sub_spec : forall s : nat,
  rest <> [] ->
  exists res,
    sub rest (Z.of_nat s) (len (_cn c)) = Ok res
    /\ (res <> [] <-> embeds (_cn c) rest s).

Lemma match_arcs_spec (i : nat) :
  (i < length (_cn c))%nat ->
  exists arcs,
    match_arcs sub c phrase word0 (len (_cn c)) (Z.of_nat i) = Ok arcs
    /\ match arcs with
       | Some found => (exists aidx tl, found = (Z.of_nat i, aidx, 0) :: tl) /\ good i
       | None => ~ good i
       end.
Proof.
  intros Hi. unfold match_arcs.
  destruct (getitem_in_range (_cn c) (Z.of_nat i)) as (alts & Halts & ->).
  { unfold len. lia. }
  rewrite Nat2Z.id in Halts. simpl_result.
  pose proof (matching_hyps_spec word0 alts 0) as Hmatch.
  destruct (filter _ (enumerate 0 alts)) as [|[aidx hyp0] more].
  - exists None. split; [done|]. intros [(alts' & Halts' & Hin) _].
    by assert (alts' = alts) as -> by congruence.
  - assert (slot_offers (_cn c) i word0) as Hoffer by by exists alts.
    destruct rest as [|w1 rest'] eqn:Hrest.
    + change (len [word0] =? 1) with true. cbn iota.
      eexists. split; [reflexivity|]. split; [eauto|]. by split.
    + replace (len (word0 :: w1 :: rest') =? 1) with false
        by (symmetry; apply Z.eqb_neq; pose proof (len_nonneg rest');
            rewrite !len_cons; lia).
      cbn [drop].
      destruct (sub_spec (S i)) as (res & Hres & Hiff); [done|].
      replace (Z.of_nat i + 1) with (Z.of_nat (S i)) by lia.
      rewrite Hres. simpl_result.
      destruct res as [|x res]; cbn [nonempty].
      * exists None. split; [done|]. intros [_ Hemb]. by apply Hiff in Hemb.
      * eexists. split; [reflexivity|]. split; [eauto|]. split; [done|].
        by apply Hiff.
Qed.

Lemma match_from_loop (k s : nat) (l_idx : option Z) :
  (s + k)%nat = length (_cn c) ->
  exists res,
    for_each (seqZ (Z.of_nat s) (Z.of_nat k)) l_idx (fun start_idx l_idx =>
      arcs ← match_arcs sub c phrase word0 (len (_cn c)) start_idx;
      match arcs with
      | Some found => Ok (Return found)
      | None => match_links sub c phrase (len (_cn c)) start_idx l_idx
      end) = Ok res
    /\ match res with
       | Return found =>
           exists i aidx tl,
             found = (Z.of_nat i, aidx, 0) :: tl /\ (s <= i)%nat /\ good i
             /\ forall j, (s <= j < i)%nat -> ~ good j
       | Continue _ => forall j, (s <= j)%nat -> ~ good j
       end.
Proof.
  revert s l_idx. induction k as [|k IH]; intros s l_idx Hlen.
  - exists (Continue l_idx). split; [done|].
    intros j Hj [(alts & Halts & _) _]. apply lookup_lt_Some in Halts. lia.
  - rewrite seqZ_cons by lia. cbn [for_each].
    destruct (match_arcs_spec s) as (arcs & -> & Harcs); [lia|]. simpl_result.
    destruct arcs as [found|].
    + destruct Harcs as [(aidx & tl & ->) Hgood]. eexists. split; [reflexivity|].
      exists s, aidx, tl. split; [done|]. split; [lia|]. split; [done|].
      intros j Hj. lia.
    + rewrite match_links_none by lia. simpl_result.
      replace (Z.succ (Z.of_nat s)) with (Z.of_nat (S s)) by lia.
      replace (Z.pred (Z.of_nat (S k))) with (Z.of_nat k) by lia.
      destruct (IH (S s) l_idx) as (res & Hres & Hspec); [lia|].
      exists res. split; [done|]. destruct res as [l|found].
      * intros j Hj. destruct (decide (j = s)) as [->|Hne]; [done|].
        apply Hspec. lia.
      * destruct Hspec as (i & aidx & tl & -> & Hi & Hgood & Hmin).
        exists i, aidx, tl. split; [done|]. split; [lia|]. split; [done|].
        intros j Hj. destruct (decide (j = s)) as [->|Hne]; [done|].
        apply Hmin. lia.
Qed.

End Loop.
End GapSearch.

Lemma get_phrase_idxs_default_end {R : Type} `{Arith R} (depth : nat)
    (self : UtteranceConfusionNetwork.t R) (phrase : list word) (start : Z)
    (start_in_midlinks : bool) :
  get_phrase_idxs depth self phrase start None start_in_midlinks
  = get_phrase_idxs depth self phrase start (Some (len (_cn self)))
      start_in_midlinks.
Proof. by destruct depth, phrase. Qed.

Lemma get_phrase_idxs_embeds {R : Type} `{Arith R}
    (c : UtteranceConfusionNetwork.t R) :
  _long_links c = replicate (length (_cn c)) [] ->
  cn_words (_cn c) ⊆ _wordset c ->
  forall (depth : nat) (word0 : word) (rest : list word) (start : nat)
         (start_in_midlinks : bool),
    (length rest <= depth)%nat ->
    exists idxs,
      get_phrase_idxs depth c (word0 :: rest) (Z.of_nat start)
        (Some (len (_cn c))) start_in_midlinks = Ok idxs
      /\ match idxs with
         | [] => ~ embeds (_cn c) (word0 :: rest) start
         | first :: _ =>
             exists i,
               first.1.1 = Z.of_nat i /\ (start <= i)%nat
               /\ slot_offers (_cn c) i word0 /\ embeds (_cn c) rest (S i)
               /\ forall j, (start <= j < i)%nat ->
                    ~ (slot_offers (_cn c) j word0 /\ embeds (_cn c) rest (S j))
         end.
Proof.
  intros Hlinks Hwords depth.
  induction depth as [|depth IH]; intros word0 rest start mid Hlen.
  all: rewrite get_phrase_idxs_unfold; cbv zeta.
  all: destruct (Z.leb_spec (len (_cn c)) (Z.of_nat start)) as [Hend|Hend];
    [ exists []; split; [done|];
      intros (i & Hi & (alts & Halts & _) & _);
      apply lookup_lt_Some in Halts; unfold len in Hend; lia |].
  all: destruct (all_in_wordset (_wordset c) (word0 :: rest)) eqn:Hall; cbn [negb];
    [| exists []; split; [done|]; intros Hemb;
       assert (all_in_wordset (_wordset c) (word0 :: rest) = true) as Habs;
         [|congruence];
       apply all_in_wordset_true; intros w Hw;
       by eapply (embeds_words c Hwords) ].
  all: unfold match_from, xrange;
    replace (len (_cn c) - Z.of_nat start)
      with (Z.of_nat (length (_cn c) - start)) by (unfold len in *; lia).
  - destruct (match_from_loop c Hlinks (fun _ _ _ => OutOfFuel) word0 rest)
      with (k := (length (_cn c) - start)%nat) (s := start) (l_idx := @None Z)
      as (res & Hres & Hspec).
    { intros s Hne. destruct rest; [done|simpl in Hlen; lia]. }
    { unfold len in Hend. lia. }
    match goal with
    | |- exists idxs, (?m ≫= _) = _ /\ _ =>
        replace m with (Ok res : result (ctl (option Z) (list idx)))
          by (symmetry; exact Hres)
    end.
    simpl_result. destruct res as [l_idx|found].
    + assert (~ embeds (_cn c) (word0 :: rest) start) as Hnone.
      { intros (i & Hi & Hgood). by apply (Hspec i Hi). }
      destruct mid; [|by exists []].
      unfold match_midlinks. rewrite (phrase_links_nil c Hlinks). by exists [].
    + destruct Hspec as (i & aidx & tl & -> & Hi & [Hoffer Hemb] & Hmin).
      eexists. split; [reflexivity|]. by exists i.
  - destruct (match_from_loop c Hlinks
                (fun p s e => get_phrase_idxs depth c p s (Some e) false) word0 rest)
      with (k := (length (_cn c) - start)%nat) (s := start) (l_idx := @None Z)
      as (res & Hres & Hspec).
    { intros s Hne. destruct rest as [|w1 rest']; [done|].
      destruct (IH w1 rest' s false) as (idxs & Hidxs & Hres);
        [simpl in Hlen; lia|].
      exists idxs. split; [done|]. destruct idxs as [|first idxs].
      - split; [done|]. intros Hemb. by destruct Hres.
      - split; [|done]. intros _.
        destruct Hres as (i & _ & Hi & Hoffer & Hemb & _). by exists i. }
    { unfold len in Hend. lia. }
    match goal with
    | |- exists idxs, (?m ≫= _) = _ /\ _ =>
        replace m with (Ok res : result (ctl (option Z) (list idx)))
          by (symmetry; exact Hres)
    end.
    simpl_result. destruct res as [l_idx|found].
    + assert (~ embeds (_cn c) (word0 :: rest) start) as Hnone.
      { intros (i & Hi & Hgood). by apply (Hspec i Hi). }
      destruct mid; [|by exists []].
      unfold match_midlinks. rewrite (phrase_links_nil c Hlinks). by exists [].
    + destruct Hspec as (i & aidx & tl & -> & Hi & [Hoffer Hemb] & Hmin).
      eexists. split; [reflexivity|]. by exists i.
Qed.

(** X18.  On a confusion network without long links whose word set holds
    the words of its slots, [find] does not ask the words of the phrase to
    stand in adjacent slots.  It returns a position exactly when the words
    are offered, in order, by slots at increasing positions: the position
    returned is the first slot that offers the first word and is followed
    by such slots for the remaining words.  It returns [-1] when there are
    no such slots.  The recursion depth needed is the length of the phrase
    less one. *)
Theorem find_accepts_gaps {R : Type} `{Arith R}
    (c : UtteranceConfusionNetwork.t R) (depth : nat) (word0 : word)
    (rest : list word) :
  _long_links c = replicate (length (_cn c)) [] ->
  cn_words (_cn c) ⊆ _wordset c ->
  (length rest <= depth)%nat ->
  exists r,
    find depth c (word0 :: rest) 0 None = Ok r
    /\ ((r = -1 /\ ~ embeds (_cn c) (word0 :: rest) 0)
        \/ (0 <= r
            /\ slot_offers (_cn c) (Z.to_nat r) word0
            /\ embeds (_cn c) rest (S (Z.to_nat r))
            /\ forall j, (j < Z.to_nat r)%nat ->
                 ~ (slot_offers (_cn c) j word0 /\ embeds (_cn c) rest (S j)))).
Proof.
  intros Hlinks Hwords Hdepth. unfold find.
  rewrite get_phrase_idxs_default_end.
  destruct (get_phrase_idxs_embeds c Hlinks Hwords depth word0 rest 0 true Hdepth)
    as (idxs & Hidxs & Hspec).
  change (Z.of_nat 0) with 0 in Hidxs. rewrite Hidxs. simpl_result.
  destruct idxs as [|first idxs].
  - exists (-1). split; [done|]. by left.
  - destruct Hspec as (i & Hfirst & _ & Hoffer & Hemb & Hmin).
    eexists. split; [reflexivity|]. right. rewrite Hfirst.
    rewrite Z.abs_eq by lia. rewrite Nat2Z.id.
    split; [lia|]. split; [done|]. split; [done|].
    intros j Hj. apply Hmin. lia.
Qed.

Lemma find_accepts_gaps_witness :
  exists r,
    find 1 three_words ["a"; "c"]%string 0 None = Ok r
    /\ ((r = -1 /\ ~ embeds (_cn three_words) ["a"; "c"]%string 0)
        \/ (0 <= r
            /\ slot_offers (_cn three_words) (Z.to_nat r) "a"%string
            /\ embeds (_cn three_words) ["c"]%string (S (Z.to_nat r))
            /\ forall j, (j < Z.to_nat r)%nat ->
                 ~ (slot_offers (_cn three_words) j "a"%string
                    /\ embeds (_cn three_words) ["c"]%string (S j)))).
Proof.
  apply (find_accepts_gaps three_words 1 "a"%string ["c"%string]).
  - reflexivity.
  - apply (bool_decide_unpack _). vm_compute. exact I.
  - simpl. lia.
Defined.

(** In "a b c" the phrase "a c" is found at 0 by [find], and not found by
    [find_unaware]. *)
Example find_and_find_unaware_differ :
  find 1 three_words ["a"; "c"]%string 0 None = Ok 0
  /\ find_unaware three_words ["a"; "c"]%string 0 None = Ok (-1).
Proof. split; vm_compute; reflexivity. Qed.

(** ** Joining and splitting *)

Lemma split_go_blank (ch : ascii) (s : string) (cur : list ascii) :
  is_space ch = true ->
  split_go (String ch s) cur = split_go EmptyString cur ++ split_go s [].
Proof. intros Hch. cbn [split_go]. by rewrite Hch. Qed.

Lemma split_go_append (a b : string) (cur : list ascii) :
  split_go (a ++ String " " b) cur = split_go a cur ++ split_go b [].
Proof.
  revert cur. induction a as [|ch a IH]; intros cur.
  - reflexivity.
  - change (String ch a ++ String " " b)%string
      with (String ch (a ++ String " " b)%string).
    cbn [split_go]. destruct (is_space ch).
    + by rewrite IH, app_assoc.
    + apply IH.
Qed.

Lemma split_str_join (ws : list string) :
  split (str_join " " ws) = flat_map split ws.
Proof.
  unfold split. induction ws as [|w ws IH]; [done|].
  destruct ws as [|w' ws].
  - simpl. by rewrite app_nil_r.
  - change (str_join " " (w :: w' :: ws))
      with (w ++ String " " (str_join " " (w' :: ws)))%string.
    rewrite split_go_append, IH. reflexivity.
Qed.

Lemma split_go_lstrip (l : list ascii) :
  split_go (string_of_list_ascii (lstrip l)) [] = split_go (string_of_list_ascii l) [].
Proof.
  induction l as [|ch l IH]; [done|].
  cbn [lstrip]. destruct (is_space ch) eqn:Hch; [|done].
  cbn [string_of_list_ascii split_go]. by rewrite Hch.
Qed.

Lemma lstrip_blanks (l : list ascii) :
  exists blanks, l = blanks ++ lstrip l /\ Forall (fun ch => is_space ch = true) blanks.
Proof.
  induction l as [|ch l (blanks & Hl & Hblanks)].
  - by exists [].
  - cbn [lstrip]. destruct (is_space ch) eqn:Hch.
    + exists (ch :: blanks). split; [simpl; congruence|by constructor].
    + by exists [].
Qed.

Lemma split_go_blanks (blanks : list ascii) (cur : list ascii) :
  Forall (fun ch => is_space ch = true) blanks ->
  split_go (string_of_list_ascii blanks) cur = split_go EmptyString cur.
Proof.
  intros Hblanks. revert cur.
  induction Hblanks as [|ch blanks Hch _ IH]; intros cur; [done|].
  cbn [string_of_list_ascii]. rewrite split_go_blank by done.
  rewrite IH. simpl. by rewrite app_nil_r.
Qed.

Lemma split_go_trailing (l blanks : list ascii) (cur : list ascii) :
  Forall (fun ch => is_space ch = true) blanks ->
  split_go (string_of_list_ascii (l ++ blanks)) cur
  = split_go (string_of_list_ascii l) cur.
Proof.
  intros Hblanks. revert cur. induction l as [|ch l IH]; intros cur.
  - by apply split_go_blanks.
  - cbn [app string_of_list_ascii split_go]. destruct (is_space ch).
    + by rewrite IH.
    + apply IH.
Qed.

Lemma split_str_strip (s : string) : split (str_strip s) = split s.
Proof.
  unfold split, str_strip.
  set (l := lstrip (list_ascii_of_string s)).
  destruct (lstrip_blanks (rev l)) as (blanks & Hrev & Hblanks).
  assert (l = rev (lstrip (rev l)) ++ rev blanks) as Hl.
  { rewrite <- rev_app_distr, <- Hrev. by rewrite rev_involutive. }
  transitivity (split_go (string_of_list_ascii l) []).
  - rewrite Hl at 2. symmetry. apply split_go_trailing.
    apply Forall_forall. intros ch Hch. rewrite Forall_forall in Hblanks.
    apply Hblanks. apply list_elem_of_In. apply in_rev. by apply list_elem_of_In.
  - unfold l. rewrite split_go_lstrip. by rewrite string_of_list_ascii_of_string.
Qed.

Lemma split_go_plain (l cur : list ascii) :
  Forall (fun ch => is_space ch = false) l ->
  l ++ cur <> [] ->
  split_go (string_of_list_ascii l) cur = [string_of_list_ascii (rev cur ++ l)].
Proof.
  intros Hl. revert cur. induction Hl as [|ch l Hch _ IH]; intros cur Hne.
  - simpl in *. rewrite app_nil_r. by destruct cur.
  - cbn [string_of_list_ascii split_go]. rewrite Hch.
    rewrite IH by (by destruct l).
    simpl. by rewrite <- app_assoc.
Qed.

Lemma split_plain_word (w : word) : plain_word w -> split w = [w].
Proof.
  intros [Hne Hplain]. unfold split.
  rewrite <- (string_of_list_ascii_of_string w) at 1.
  rewrite split_go_plain; [|done|].
  - simpl. by rewrite string_of_list_ascii_of_string.
  - rewrite app_nil_r. intros Hnil. apply Hne.
    rewrite <- (string_of_list_ascii_of_string w). by rewrite Hnil.
Qed.

Lemma flat_map_split_plain (ws : list word) :
  Forall plain_word ws -> flat_map split ws = ws.
Proof.
  induction 1 as [|w ws Hw _ IH]; [done|].
  simpl. by rewrite split_plain_word, IH.
Qed.

(** ** The best hypothesis and the utterance of an index vector *)

Section BestPath.
Context {R : Type} `{Arith R}.

Lemma best_path_from (cn : list (list (R * word))) (ws : list word) (p : R) :
  (Forall (fun alts => alts <> []) cn ->
   exists p',
     fold_result (fun (st : list word * R) (alts : list (R * word)) =>
         h ← getitem alts 0; Ok (st.1 ++ [h.2], r_mul st.2 h.1)) cn (ws, p)
     = Ok (ws ++ first_words cn, p')
     /\ get_prob_from p (zip (replicate (length cn) 0) cn) = Ok p')
  /\ (~ Forall (fun alts => alts <> []) cn ->
      fold_result (fun (st : list word * R) (alts : list (R * word)) =>
          h ← getitem alts 0; Ok (st.1 ++ [h.2], r_mul st.2 h.1)) cn (ws, p)
      = Raise IndexError).
Proof.
  revert ws p. induction cn as [|alts cn IH]; intros ws p.
  - split.
    + intros _. exists p. simpl. by rewrite app_nil_r.
    + intros Hnot. destruct Hnot. constructor.
  - destruct alts as [|h alts].
    + split.
      * intros Hall. apply Forall_cons in Hall as [Hne _]. done.
      * intros _. cbn [fold_result]. by rewrite getitem_nil.
    + cbn [fold_result length replicate zip zip_with get_prob_from].
      rewrite getitem_0_cons. simpl_result. cbn [fst snd].
      destruct (IH (ws ++ [h.2]) (r_mul p h.1)) as [Hok Hraise]. split.
      * intros Hall. apply Forall_cons in Hall as [_ Hall].
        destruct (Hok Hall) as (p' & Hrun & Hprob).
        exists p'. split; [|done]. rewrite Hrun.
        unfold first_words. cbn [omap list_omap head fmap option_fmap option_map].
        by rewrite <- app_assoc.
      * intros Hnot. apply Hraise. intros Hall. apply Hnot.
        by constructor.
Qed.

End BestPath.

(** X19.  [get_best_hyp] takes the first alternative of every slot.  When
    no slot is empty it returns the probability [get_prob] gives for the
    all-zero index vector, and an utterance made by joining the first words
    with blanks and splitting the result again at white space: empty words
    disappear, a word with white space inside falls apart, and only when
    every first word is non-empty and free of white space (the unicode
    white space below U+0100, [is_space]) are the words of the utterance the
    first words of the slots.  The utterance is the one made from the string
    [get_best_utterance] returns.  When some slot is empty both methods
    raise [IndexError]. *)
Theorem get_best_hyp_spec {R : Type} `{Arith R}
    (c : UtteranceConfusionNetwork.t R) :
  (Forall (fun alts => alts <> []) (_cn c) ->
   exists p u,
     get_best_hyp c = Ok (p, u)
     /\ get_prob c (replicate (length (_cn c)) 0) = Ok p
     /\ Utterance.wf u
     /\ Utterance._utterance u = flat_map split (first_words (_cn c))
     /\ (Forall plain_word (first_words (_cn c)) ->
         Utterance._utterance u = first_words (_cn c))
     /\ exists s, get_best_utterance c = Ok s /\ u = Utterance.init s)
  /\ (~ Forall (fun alts => alts <> []) (_cn c) ->
      get_best_hyp c = Raise IndexError
      /\ get_best_utterance c = Raise IndexError).
Proof.
  unfold get_best_hyp, get_best_utterance, best_path, get_prob.
  destruct (best_path_from (_cn c) [] r_one) as [Hok Hraise]. split.
  - intros Hall. destruct (Hok Hall) as (p & -> & Hprob). simpl_result.
    eexists _, _. split; [reflexivity|]. split; [done|]. split; [done|].
    cbn [fst app Utterance.init Utterance._utterance].
    rewrite split_str_strip, split_str_join. split; [done|].
    split; [apply flat_map_split_plain|]. by eexists.
  - intros Hnot. by rewrite (Hraise Hnot).
Qed.

(** X20.  [get_hyp_index_utterence] on an index vector that points to an
    alternative in every slot: it returns the utterance made by joining the
    words picked with blanks and splitting the result again at white space;
    its words are the words picked when these are non-empty and free of
    white space (the unicode white space below U+0100, [is_space]). *)
Theorem get_hyp_index_utterence_spec {R : Type} `{Arith R}
    (c : UtteranceConfusionNetwork.t R) (hi : hyp_index) :
  Forall2 (fun x (alts : list (R * word)) => 0 <= x < len alts) hi (_cn c) ->
  exists u picked,
    get_hyp_index_utterence c hi = Ok u
    /\ Forall2 (fun (h : R * word) (xa : Z * list (R * word)) =>
                  xa.2 !! Z.to_nat xa.1 = Some h) picked (zip hi (_cn c))
    /\ Utterance.wf u
    /\ Utterance._utterance u = flat_map split (map snd picked)
    /\ (Forall plain_word (map snd picked) ->
        Utterance._utterance u = map snd picked).
Proof.
  intros Hvalid. unfold get_hyp_index_utterence.
  assert (exists picked,
    mapM (fun i_alts : Z * list (R * word) =>
            h ← getitem i_alts.2 i_alts.1; Ok h.2) (zip hi (_cn c))
    = Ok (map snd picked)
    /\ Forall2 (fun (h : R * word) (xa : Z * list (R * word)) =>
                  xa.2 !! Z.to_nat xa.1 = Some h) picked (zip hi (_cn c)))
    as (picked & -> & Hpicked).
  { induction Hvalid as [|x alts hi cn Hx _ (picked & Hrun & Hpicked)].
    - exists []. split; [done|constructor].
    - destruct (getitem_in_range alts x Hx) as (h & Hh & Hget).
      exists (h :: picked). cbn [zip zip_with mapM fst snd].
      rewrite Hget. simpl_result. rewrite Hrun. simpl_result.
      split; [done|]. by constructor. }
  simpl_result. eexists _, picked. split; [reflexivity|]. split; [done|].
  split; [done|]. cbn [Utterance.init Utterance._utterance].
  rewrite split_str_join. split; [done|]. apply flat_map_split_plain.
Qed.

Lemma get_hyp_index_utterence_spec_witness :
  exists u picked,
    get_hyp_index_utterence two_slots [1; 0] = Ok u
    /\ Forall2 (fun (h : Q * word) (xa : Z * list (Q * word)) =>
                  xa.2 !! Z.to_nat xa.1 = Some h) picked (zip [1; 0] (_cn two_slots))
    /\ Utterance.wf u
    /\ Utterance._utterance u = flat_map split (map snd picked)
    /\ (Forall plain_word (map snd picked) ->
        Utterance._utterance u = map snd picked).
Proof.
  apply (get_hyp_index_utterence_spec two_slots [1; 0]).
  repeat (constructor; [split; [lia|reflexivity]|]). constructor.
Defined.

(** ** N-grams that ignore long links *)

Lemma mapM_app {A B} (f : A -> result B) (l1 l2 : list A) :
  mapM f (l1 ++ l2) = (a ← mapM f l1; b ← mapM f l2; Ok (a ++ b)).
Proof.
  induction l1 as [|x l1 IH]; simpl.
  - by destruct (mapM f l2).
  - destruct (f x); [|done..]. simpl_result. rewrite IH.
    destruct (mapM f l1); [|done..]. simpl_result.
    by destruct (mapM f l2).
Qed.

Lemma mapM_bind_ret {A B C} (g : A -> result B) (f : B -> C) (l : list A) :
  mapM (fun x => y ← g x; Ok (f y)) l = (ys ← mapM g l; Ok (map f ys)).
Proof.
  induction l as [|x l IH]; [done|]. simpl.
  destruct (g x); [|done..]. simpl_result. rewrite IH.
  by destruct (mapM g l).
Qed.

Lemma xrange_getitem {A} (l : list A) :
  Forall2 (fun i x => getitem l i = Ok x) (xrange 0 (len l)) l.
Proof.
  apply Forall2_same_length_lookup_2.
  - unfold xrange, len. rewrite length_seqZ. lia.
  - intros k i x Hi Hx. unfold xrange in Hi.
    apply lookup_seqZ in Hi as [-> Hk].
    destruct (getitem_in_range l (0 + Z.of_nat k)) as (y & Hy & ->); [lia|].
    replace (Z.to_nat (0 + Z.of_nat k)) with k in Hy by lia. congruence.
Qed.

Section Product.
Context {R : Type} `{Arith R}.

Local Abbreviation pick cn_splice :=
  (fun option_seq : list Z =>
     mapM (fun ao : list (R * word) * Z => getitem ao.1 ao.2)
          (zip cn_splice option_seq)).

Lemma pick_cons (alts : list (R * word)) (rest : list (list (R * word)))
    (i : Z) (h : R * word) (seqs : list (list Z))
    (picked : list (list (R * word))) :
  getitem alts i = Ok h ->
  mapM (pick rest) seqs = Ok picked ->
  mapM (pick (alts :: rest)) (map (cons i) seqs) = Ok (map (cons h) picked).
Proof.
  intros Hh. revert picked. induction seqs as [|os seqs IH]; intros picked.
  - by intros [= <-].
  - cbn [mapM map]. intros Hrun.
    apply bind_Ok_inv in Hrun as (hs & Hhs & Hrun).
    apply bind_Ok_inv in Hrun as (picked' & Hpicked' & [= <-]).
    cbn [zip zip_with mapM fst snd] in *. rewrite Hh. simpl_result.
    rewrite Hhs. simpl_result.
    by rewrite (IH picked' Hpicked').
Qed.

Lemma pick_product (cn_splice : list (list (R * word))) :
  mapM (pick cn_splice)
       (product (map (fun alts : list (R * word) => xrange 0 (len alts)) cn_splice))
  = Ok (product cn_splice).
Proof.
  induction cn_splice as [|alts rest IH]; [done|].
  cbn [map product].
  assert (forall (idxs : list Z) (hs : list (R * word)),
    Forall2 (fun i h => getitem alts i = Ok h) idxs hs ->
    mapM (pick (alts :: rest))
      (flat_map (fun x => map (cons x)
         (product (map (fun alts : list (R * word) => xrange 0 (len alts)) rest)))
         idxs)
    = Ok (flat_map (fun h => map (cons h) (product rest)) hs)) as Hgen.
  { intros idxs hs Hpairs.
    induction Hpairs as [|i h idxs hs Hh _ IHp]; [done|].
    cbn [flat_map]. rewrite mapM_app.
    rewrite (pick_cons alts rest i h _ _ Hh IH). simpl_result.
    rewrite IHp. by simpl_result. }
  apply Hgen, xrange_getitem.
Qed.

End Product.

Lemma iter_ngrams_fromto_run {R : Type} `{Arith R}
    (c : UtteranceConfusionNetwork.t R) (from_ to : option Z) :
  iter_ngrams_fromto c from_ to
  = Ok (map path_hyp (product (slice (_cn c) from_ to))).
Proof.
  unfold iter_ngrams_fromto.
  etransitivity;
    [exact (mapM_bind_ret
              (fun option_seq =>
                 mapM (fun ao : list (R * word) * Z => getitem ao.1 ao.2)
                      (zip (slice (_cn c) from_ to) option_seq)) path_hyp _)|].
  by rewrite pick_product.
Qed.

(** X21.  [iter_ngrams_fromto] never fails, and what it yields is the
    Cartesian product of the slots of [self._cn[from_:to]], the last slot
    varying fastest: one hypothesis for each way of picking one alternative
    per slot, with the words picked and the product of their probabilities.
    An empty range yields the single hypothesis [(1.0, [])]; a range with an
    empty slot in it yields nothing. *)
Theorem iter_ngrams_fromto_product {R : Type} `{Arith R}
    (c : UtteranceConfusionNetwork.t R) (from_ to : option Z) :
  iter_ngrams_fromto c from_ to
  = Ok (map path_hyp (product (slice (_cn c) from_ to)))
  /\ (slice (_cn c) from_ to = [] ->
      iter_ngrams_fromto c from_ to = Ok [(r_one, [])])
  /\ ([] ∈ slice (_cn c) from_ to -> iter_ngrams_fromto c from_ to = Ok []).
Proof.
  rewrite iter_ngrams_fromto_run. split; [done|]. split.
  - by intros ->.
  - intros Hin. f_equal.
    assert (product (slice (_cn c) from_ to) = []) as ->; [|done].
    induction (slice (_cn c) from_ to) as [|alts cn IH]; [by apply elem_of_nil in Hin|].
    cbn [product]. apply elem_of_cons in Hin as [<-|Hin]; [done|].
    rewrite (IH Hin). clear. by induction alts.
Qed.

Lemma mapM_total {A B} (f : A -> result B) (g : A -> B) (l : list A) :
  (forall x, f x = Ok (g x)) -> mapM f l = Ok (map g l).
Proof.
  intros Hf. induction l as [|x l IH]; [done|].
  simpl. rewrite Hf. simpl_result. rewrite IH. by simpl_result.
Qed.

Lemma slice_fmap {A B} (f : A -> B) (l : list A) (lo hi : option Z) :
  slice (map f l) lo hi = map f (slice l lo hi).
Proof.
  unfold slice, len. rewrite length_map.
  by rewrite <- fmap_drop, <- fmap_take.
Qed.

Lemma slice_from_zero {A} (l : list A) (hi : option Z) :
  slice l (Some 0) hi = slice l None hi.
Proof.
  unfold slice, slice_bound. simpl. pose proof (len_nonneg l).
  by rewrite Z.min_l by done.
Qed.

Lemma product_length {A} (pools : list (list A)) :
  Forall (fun xs => length xs = length pools) (product pools).
Proof.
  induction pools as [|pool pools IH]; [by repeat constructor|].
  cbn [product]. apply Forall_forall. intros xs Hxs.
  apply list_elem_of_In, in_flat_map in Hxs as (x & _ & Hxs).
  apply in_map_iff in Hxs as (xs' & <- & Hxs').
  rewrite Forall_forall in IH. simpl. f_equal. apply IH. by apply list_elem_of_In.
Qed.

Lemma product_singletons {A} (xs : list A) :
  product (map (fun x => [x]) xs) = [xs].
Proof.
  induction xs as [|x xs IH]; [done|].
  cbn [map product]. rewrite IH. reflexivity.
Qed.

Section Unaware.
Context {R : Type} `{Arith R}.
Variable c : UtteranceConfusionNetwork.t R.

Lemma fromto_lengths (from_ to : option Z) :
  Forall (fun pn : R * list word => length pn.2 = length (slice (_cn c) from_ to))
         (map path_hyp (product (slice (_cn c) from_ to))).
Proof.
  apply Forall_fmap. eapply Forall_impl; [apply product_length|].
  intros hs Hhs. simpl. by rewrite length_map.
Qed.

Lemma iter_ngrams_unaware_run (n : Z) (with_boundaries : bool) :
  let min_len := n - (if with_boundaries then 1 else 0) * 2 in
  let fromto := fun from_ to => map path_hyp (product (slice (_cn c) from_ to)) in
  iter_ngrams_unaware c n with_boundaries
  = Ok (if len (_cn c) <=? min_len then
          if len (_cn c) =? min_len then
            if with_boundaries
            then map (fun pn : R * list word =>
                        (pn.1, [SENTENCE_START] ++ pn.2 ++ [SENTENCE_END]))
                     (fromto None None)
            else fromto None None
          else []
        else
          (if with_boundaries && (min_len <? len (_cn c))
           then map (fun pn : R * list word => (pn.1, [SENTENCE_START] ++ pn.2))
                    (fromto (Some 0) (Some (n - 1)))
           else [])
          ++ concat (map (fun start_idx =>
                            fromto (Some start_idx) (Some (start_idx + n)))
                         (xrange 0 (len (_cn c) - n + 1)))
          ++ (if with_boundaries
              then map (fun pn : R * list word => (pn.1, pn.2 ++ [SENTENCE_END]))
                       (fromto (Some (- (n - 1))) None)
              else [])).
Proof.
  intros min_len fromto. unfold iter_ngrams_unaware. fold min_len.
  destruct (len (_cn c) <=? min_len).
  - destruct (len (_cn c) =? min_len); [|done].
    rewrite iter_ngrams_fromto_run. simpl_result. by destruct with_boundaries.
  - rewrite (mapM_total _ (fun start_idx =>
               fromto (Some start_idx) (Some (start_idx + n))))
      by (intros; apply iter_ngrams_fromto_run).
    destruct with_boundaries; cbn [andb].
    + destruct (min_len <? len (_cn c));
        rewrite ?iter_ngrams_fromto_run; by simpl_result.
    + by simpl_result.
Qed.

End Unaware.

(** X22.  With [n >= 2], or [n >= 1] and no boundaries,
    [iter_ngrams_unaware] never fails and every hypothesis it yields has
    exactly [n] tokens, boundary marks included. *)
Theorem iter_ngrams_unaware_lengths {R : Type} `{Arith R}
    (c : UtteranceConfusionNetwork.t R) (n : Z) (with_boundaries : bool) :
  (if with_boundaries then 2 <= n else 1 <= n) ->
  exists hyps,
    iter_ngrams_unaware c n with_boundaries = Ok hyps
    /\ Forall (fun pn : R * list word => len pn.2 = n) hyps.
Proof.
  intros Hn. rewrite iter_ngrams_unaware_run. cbv zeta.
  eexists. split; [reflexivity|].
  pose proof (len_nonneg (_cn c)) as Hcn.
  assert (forall lo hi k,
            len (slice (_cn c) lo hi) = k ->
            Forall (fun pn : R * list word => len pn.2 = k)
                   (map path_hyp (product (slice (_cn c) lo hi)))) as Hwin.
  { intros lo hi k Hk. eapply Forall_impl; [apply fromto_lengths|].
    intros pn Hpn. simpl in Hpn. unfold len in *. lia. }
  destruct with_boundaries; cbn [andb].
  - destruct (Z.leb_spec (len (_cn c)) (n - 1 * 2)) as [Hshort|Hlong].
    + destruct (Z.eqb_spec (len (_cn c)) (n - 1 * 2)) as [Heq|]; [|constructor].
      apply Forall_fmap. eapply Forall_impl; [apply (Hwin None None (n - 2))|].
      * unfold slice. rewrite Z.sub_0_r. unfold len in *.
        rewrite length_take, length_drop. lia.
      * intros pn Hpn. unfold compose. cbn [fst snd app]. unfold len in *.
        rewrite ?length_cons, ?length_app. cbn [length]. lia.
    + replace (n - 1 * 2 <? len (_cn c)) with true by lia.
      apply Forall_app. split; [|apply Forall_app; split].
      * apply Forall_fmap. eapply Forall_impl; [apply (Hwin _ _ (n - 1))|].
        -- replace (n - 1) with (0 + (n - 1)) at 1 by lia.
           rewrite slice_window by lia. unfold len in *.
           rewrite length_take, length_drop. lia.
        -- intros pn Hpn. unfold compose. cbn [fst snd app]. unfold len in *.
           rewrite ?length_cons, ?length_app. cbn [length]. lia.
      * apply Forall_concat, Forall_fmap, Forall_forall. intros start_idx Hin.
        apply elem_of_seqZ in Hin. apply Hwin.
        replace n with (start_idx + n - start_idx) at 2 by lia.
        apply length_slice; lia.
      * apply Forall_fmap. eapply Forall_impl; [apply (Hwin _ _ (n - 1))|].
        -- unfold slice, slice_bound, len in *.
           rewrite length_take, length_drop.
           destruct (Z.ltb_spec (- (n - 1)) 0); lia.
        -- intros pn Hpn. unfold compose. cbn [fst snd app]. unfold len in *.
           rewrite ?length_cons, ?length_app. cbn [length]. lia.
  - destruct (Z.leb_spec (len (_cn c)) (n - 0 * 2)) as [Hshort|Hlong].
    + destruct (Z.eqb_spec (len (_cn c)) (n - 0 * 2)) as [Heq|]; [|constructor].
      apply Hwin. unfold slice. rewrite Z.sub_0_r. unfold len in *.
      rewrite length_take, length_drop. lia.
    + simpl. rewrite app_nil_r.
      apply Forall_concat, Forall_fmap, Forall_forall. intros start_idx Hin.
      apply elem_of_seqZ in Hin. apply Hwin.
      replace n with (start_idx + n - start_idx) at 2 by lia.
      apply length_slice; lia.
Qed.

Lemma iter_ngrams_unaware_lengths_witness :
  exists hyps,
    iter_ngrams_unaware two_slots 2 true = Ok hyps
    /\ Forall (fun pn : Q * list word => len pn.2 = 2) hyps.
Proof.
  apply (iter_ngrams_unaware_lengths two_slots 2 true). lia.
Defined.

Lemma slice_all {A} (l : list A) : slice l None None = l.
Proof.
  unfold slice. rewrite Z.sub_0_r. change (Z.to_nat 0) with 0%nat.
  rewrite drop_0. apply take_ge. unfold len. lia.
Qed.

Lemma concat_singletons {A B} (g : A -> B) (xs : list A) :
  concat (map (fun x => [g x]) xs) = map g xs.
Proof. induction xs as [|x xs IH]; [done|]. simpl. by rewrite IH. Qed.

Lemma single_alternatives {A} (cn : list (list A)) :
  Forall (fun alts => length alts = 1%nat) cn ->
  exists hs, cn = map (fun h => [h]) hs.
Proof.
  induction 1 as [|alts cn Halts _ (hs & ->)]; [by exists []|].
  destruct alts as [|h [|h' alts]]; try done. by exists (h :: hs).
Qed.

(** X23.  On a confusion network with exactly one alternative in every
    slot, the word sequences [iter_ngrams_unaware] yields are the n-grams
    [Utterance.iter_ngrams] yields for the utterance made of these words,
    in the same order, for every [n], with or without boundaries. *)
Theorem iter_ngrams_unaware_single_path {R : Type} `{Arith R}
    (c : UtteranceConfusionNetwork.t R) (n : Z) (with_boundaries : bool) :
  Forall (fun alts => length alts = 1%nat) (_cn c) ->
  exists hyps,
    iter_ngrams_unaware c n with_boundaries = Ok hyps
    /\ map snd hyps
       = Utterance.iter_ngrams (Utterance.set_utterance (first_words (_cn c)))
           n with_boundaries.
Proof.
  intros Hsingle. destruct (single_alternatives _ Hsingle) as (hs & Hcn).
  rewrite iter_ngrams_unaware_run. cbv zeta. eexists. split; [reflexivity|].
  rewrite Hcn.
  assert (first_words (map (fun h : R * word => [h]) hs) = map snd hs) as ->.
  { unfold first_words. clear. induction hs as [|h hs IH]; [done|].
    cbn [map omap list_omap head fmap option_fmap option_map]. by rewrite IH. }
  assert (forall lo hi,
            map path_hyp (product (slice (map (fun h : R * word => [h]) hs) lo hi))
            = [path_hyp (slice hs lo hi)]) as Hone.
  { intros lo hi. by rewrite slice_fmap, product_singletons. }
  assert (len (map (fun h : R * word => [h]) hs) = len (map snd hs)) as ->.
  { unfold len. by rewrite !length_map. }
  unfold Utterance.iter_ngrams.
  cbn [Utterance._utterance Utterance.set_utterance].
  set (utt := map snd hs).
  assert (forall lo hi, map snd (slice hs lo hi) = slice utt lo hi) as Hslice.
  { intros lo hi. unfold utt. by rewrite slice_fmap. }
  destruct (len utt <=? _).
  - destruct (len utt =? _); [|done].
    rewrite Hone. destruct with_boundaries; simpl.
    + rewrite Hslice, slice_all. done.
    + by rewrite Hslice.
  - rewrite !map_app. f_equal; [|f_equal].
    + destruct (with_boundaries && _); [|done].
      rewrite Hone. simpl. by rewrite Hslice, slice_from_zero.
    + rewrite (map_ext _ (fun start_idx =>
                 [path_hyp (slice hs (Some start_idx) (Some (start_idx + n)))]))
        by (intros start_idx; apply Hone).
      rewrite concat_singletons, map_map. apply map_ext. intros start_idx.
      simpl. apply Hslice.
    + destruct with_boundaries; [|done].
      rewrite Hone. simpl. by rewrite Hslice.
Qed.

Lemma iter_ngrams_unaware_single_path_witness :
  exists hyps,
    iter_ngrams_unaware three_words 2 true = Ok hyps
    /\ map snd hyps
       = Utterance.iter_ngrams (Utterance.set_utterance (first_words (_cn three_words)))
           2 true.
Proof.
  apply (iter_ngrams_unaware_single_path three_words 2 true).
  repeat constructor.
Defined.

(** ** [UtteranceFeatures.parse] *)

Lemma fold_result_total {A X} (f : A -> X -> result A) (xs : list X) (a : A) :
  (forall a x, x ∈ xs -> exists a', f a x = Ok a') ->
  exists a', fold_result f xs a = Ok a'.
Proof.
  revert a. induction xs as [|x xs IH]; intros a Hf; [by exists a|].
  cbn [fold_result].
  destruct (Hf a x) as [a1 ->]; [apply list_elem_of_here|]. simpl_result.
  apply IH. intros a2 y Hy. apply Hf. by apply list_elem_of_further.
Qed.

(** X24.  [UtteranceFeatures.parse] with the type ['ngram'] never raises,
    whatever the size, the utterance and the boundary setting: the skip
    n-grams of sizes 3 and 4 read the first and the last word of windows
    that always have 3 and 4 tokens.  The type and the size stay as they
    were. *)
Theorem parse_ngram_never_raises {R : Type} `{Arith R}
    (self : UtteranceFeatures.t R) (u : Utterance.t) (with_boundaries : bool) :
  UtteranceFeatures.type self = "ngram"%string ->
  exists self',
    UtteranceFeatures.parse self u with_boundaries = Ok self'
    /\ UtteranceFeatures.type self' = UtteranceFeatures.type self
    /\ UtteranceFeatures.size self' = UtteranceFeatures.size self.
Proof.
  intros Hty. unfold UtteranceFeatures.parse.
  destruct (Utterance.isempty u); [by eexists|].
  rewrite bool_decide_eq_true_2 by done.
  assert (forall n m,
            exists m',
              UtteranceFeatures.each_ngram u n with_boundaries
                (fun m ngram => Ok (incr (FTuple ngram) r_one m)) m = Ok m') as Hplain.
  { intros n m. unfold UtteranceFeatures.each_ngram.
    apply fold_result_total. intros; by eexists. }
  assert (forall (n k : Z) (mark : string) m,
            2 <= n -> 0 <= k < n ->
            exists m',
              UtteranceFeatures.each_ngram u n with_boundaries
                (fun m ngram =>
                   a ← getitem ngram 0;
                   b ← getitem ngram k;
                   Ok (incr (FTuple [a; mark; b]) r_one
                         (incr (FTuple ngram) r_one m))) m = Ok m') as Hskip.
  { intros n k mark m Hn Hk. unfold UtteranceFeatures.each_ngram.
    apply fold_result_total. intros m0 ngram Hngram.
    destruct (iter_ngrams_windows u n with_boundaries) as [Hlen _].
    { destruct with_boundaries; lia. }
    rewrite Forall_forall in Hlen. specialize (Hlen ngram Hngram).
    destruct (getitem_in_range ngram 0) as (a & _ & ->); [lia|]. simpl_result.
    destruct (getitem_in_range ngram k) as (b & _ & ->); [lia|]. simpl_result.
    by eexists. }
  set (m1 := fold_left _ _ _).
  assert (exists m2,
    (if 2 <=? UtteranceFeatures.size self
     then UtteranceFeatures.each_ngram u 2 with_boundaries
            (fun m ngram => Ok (incr (FTuple ngram) r_one m)) m1
     else Ok m1) = Ok m2) as [m2 ->].
  { destruct (2 <=? _); [apply Hplain|by eexists]. }
  simpl_result.
  assert (exists m3,
    (if 3 <=? UtteranceFeatures.size self
     then UtteranceFeatures.each_ngram u 3 with_boundaries
            (fun m ngram =>
               a ← getitem ngram 0; b ← getitem ngram 2;
               Ok (incr (FTuple [a; "*1"%string; b]) r_one
                     (incr (FTuple ngram) r_one m))) m2
     else Ok m2) = Ok m3) as [m3 ->].
  { destruct (3 <=? _); [apply Hskip; lia|by eexists]. }
  simpl_result.
  assert (exists m4,
    (if 4 <=? UtteranceFeatures.size self
     then UtteranceFeatures.each_ngram u 4 with_boundaries
            (fun m ngram =>
               a ← getitem ngram 0; b ← getitem ngram 3;
               Ok (incr (FTuple [a; "*2"%string; b]) r_one
                     (incr (FTuple ngram) r_one m))) m3
     else Ok m3) = Ok m4) as [m4 ->].
  { destruct (4 <=? _); [apply Hskip; lia|by eexists]. }
  simpl_result.
  destruct (fold_result_total
              (fun m length =>
                 UtteranceFeatures.each_ngram u length with_boundaries
                   (fun m ngram => Ok (incr (FTuple ngram) r_one m)) m)
              (xrange 5 (UtteranceFeatures.size self + 1)) m4) as [m5 ->].
  { intros m length _. apply Hplain. }
  simpl_result. by eexists.
Qed.

Lemma parse_ngram_never_raises_witness :
  exists self',
    UtteranceFeatures.parse
      {| UtteranceFeatures.type := "ngram"; UtteranceFeatures.size := 4;
         UtteranceFeatures.features := (∅ : gmap feature Q) |}
      (Utterance.init "a b") true = Ok self'
    /\ UtteranceFeatures.type self' = "ngram"%string
    /\ UtteranceFeatures.size self' = 4.
Proof.
  apply (parse_ngram_never_raises
           {| UtteranceFeatures.type := "ngram"; UtteranceFeatures.size := 4;
              UtteranceFeatures.features := (∅ : gmap feature Q) |}
           (Utterance.init "a b") true).
  reflexivity.
Defined.

(** ** [normalise] and slots without mass *)

Lemma normalise_step_zero (c : UtteranceConfusionNetwork.t Q) (i : nat) :
  length (_long_links c) = length (_cn c) ->
  first_hops (_long_links c) ->
  (i < length (_cn c))%nat ->
  (slot_mass c i == 0)%Q ->
  normalise_step i (held_before (_long_links c) i, c) = Raise ZeroDivisionError.
Proof.
  intros Hlen Hhops Hi Hmass.
  destruct (lookup_lt_is_Some_2 (_long_links c) i) as [here Hhere]; [lia|].
  destruct (lookup_lt_is_Some_2 (_cn c) i Hi) as [alts Halts].
  destruct (held_at (_long_links c) i here Hhops Hhere) as (adv & Hadv & Hheld).
  unfold normalise_step. cbn [fst snd].
  rewrite Hadv. simpl_result.
  rewrite (getnat_Ok _ _ _ Hhere). simpl_result.
  rewrite (getnat_Ok _ _ _ Halts). simpl_result.
  rewrite Hheld.
  assert (forall x, x ∈ covering (_long_links c) i -> is_Some (entry (_long_links c) x))
    as Hsome.
  { intros x Hx. by apply elem_of_covering in Hx as [_ Hx]. }
  rewrite (mapM_link_prob _ _ Hsome). simpl_result.
  assert (r_add (py_sum (map fst alts))
            (py_sum (omap (entry (_long_links c)) (covering (_long_links c) i)))
          = slot_mass c i) as Htot.
  { unfold slot_mass. by rewrite Halts. }
  rewrite Htot. unfold py_div.
  assert (r_eqb (slot_mass c i) r_zero = true) as ->; [|done].
  by apply Qeq_bool_iff.
Qed.

Lemma normalise_loop_zero (k i : nat) (c : UtteranceConfusionNetwork.t Q) :
  (i + k <= length (_cn c))%nat ->
  length (_long_links c) = length (_cn c) ->
  first_hops (_long_links c) ->
  (exists z, (i <= z < i + k)%nat /\ (slot_mass c z == 0)%Q) ->
  normalise_loop (seq i k) (held_before (_long_links c) i, c)
  = Raise ZeroDivisionError.
Proof.
  revert i c. induction k as [|k IH]; intros i c Hik Hlen Hhops (z & Hz & Hzero).
  - lia.
  - cbn [seq normalise_loop].
    destruct (Qeq_dec (slot_mass c i) 0) as [Hi|Hi].
    + by rewrite normalise_step_zero by (done || lia).
    + destruct (normalise_step_spec c i Hlen Hhops)
        as (c' & -> & Hcn & Hshape & _ & Hother); [lia|done|].
      simpl_result. apply IH.
      * lia.
      * destruct Hshape as [Hl _]. congruence.
      * by eapply same_shape_first_hops.
      * exists z. assert (z <> i) as Hne by (intros ->; done).
        split; [lia|]. by rewrite Hother.
Qed.

(** X25.  [normalise] and division by zero, over exact arithmetic: on a
    confusion network whose two tables run in parallel, [normalise()]
    raises [ZeroDivisionError] exactly when some slot has total mass zero,
    its alternatives and the long-link hops over it taken together; an
    empty slot that no long link crosses is such a slot. *)
Theorem normalise_raises_iff_zero_mass (c : UtteranceConfusionNetwork.t Q) :
  wf c ->
  normalise c None = Raise ZeroDivisionError
  <-> exists z, (z < length (_cn c))%nat /\ (slot_mass c z == 0)%Q.
Proof.
  intros Hwf. unfold normalise. split.
  - intros Hraise.
    assert (forall n,
              (exists z, (z < n)%nat /\ (slot_mass c z == 0)%Q)
              \/ (forall z, (z < n)%nat -> ~ (slot_mass c z == 0)%Q)) as Hdec.
    { induction n as [|n [(z & Hz & Hzero)|Hnone]].
      - right. intros z Hz. lia.
      - left. exists z. split; [lia|done].
      - destruct (Qeq_dec (slot_mass c n) 0) as [Hn|Hn].
        + left. exists n. split; [lia|done].
        + right. intros z Hz. destruct (decide (z = n)) as [->|Hne]; [done|].
          apply Hnone. lia. }
    destruct (Hdec (length (_cn c))) as [Hex|Hnone]; [done|].
    destruct (normalise_loop_spec (length (_cn c)) 0 c) as (st & Hst & _).
    + done.
    + apply Hwf.
    + eapply links_wf_first_hops, Hwf.
    + intros j Hj. apply Hnone. lia.
    + intros j Hj. lia.
    + simpl in Hst. by rewrite Hst in Hraise.
  - intros (z & Hz & Hzero).
    pose proof (normalise_loop_zero (length (_cn c)) 0 c) as Hloop.
    simpl in Hloop. rewrite Hloop; [done|lia|apply Hwf| |].
    + eapply links_wf_first_hops, Hwf.
    + exists z. split; [lia|done].
Qed.

Lemma normalise_raises_iff_zero_mass_witness :
  normalise {| _abstr_idxs := []; _cn := [[(1%Q, "a"%string)]; []];
               _wordset := {["a"%string]}; _long_links := [[]; []] |} None
  = Raise ZeroDivisionError
  <-> exists z,
        (z < length (_cn {| _abstr_idxs := []; _cn := [[(1%Q, "a"%string)]; []];
                            _wordset := {["a"%string]};
                            _long_links := [[]; []] |}))%nat
        /\ (slot_mass {| _abstr_idxs := []; _cn := [[(1%Q, "a"%string)]; []];
                        _wordset := {["a"%string]}; _long_links := [[]; []] |} z
            == 0)%Q.
Proof.
  apply (normalise_raises_iff_zero_mass
           {| _abstr_idxs := []; _cn := [[(1%Q, "a"%string)]; []];
              _wordset := {["a"%string]}; _long_links := [[]; []] |}).
  split; [reflexivity|].
  intros [|[|s]] a links link Hs Ha; simpl in Hs; try discriminate.
  - injection Hs as <-. by destruct a.
  - injection Hs as <-. by destruct a.
Defined.

(** * Rounding and shared lists *)

(** ** White space *)

(** [split()] breaks at the unicode white space U+001C, U+0085 and U+00A0 as
    it does at a blank. *)
Example split_unicode_space :
  split (String "a" (String (ascii_of_nat 28) (String "b" (String (ascii_of_nat 133)
          (String "c" (String (ascii_of_nat 160) (String "d" " ")))))))
  = ["a"; "b"; "c"; "d"]%string.
Proof. vm_compute. reflexivity. Qed.

(** ** [normalise] in binary64 *)

(** The slot of [tiny_mass] has a positive mass, 2^-1074; its inverse
    overflows, and the mass after [normalise()] is infinite. *)
Example tiny_mass_positive : r_ltb r_zero (slot_mass tiny_mass 0) = true.
Proof. vm_compute. reflexivity. Qed.

Example tiny_mass_normalised :
  (c ← normalise tiny_mass None; Ok (slot_mass c 0)) = Ok infinity.
Proof. vm_compute. reflexivity. Qed.

(** The mass of the slot of [huge_mass], 2^1023 + 2^1023, overflows; its
    inverse is 0, and so is the mass after [normalise()]. *)
Example huge_mass_positive : r_ltb r_zero (slot_mass huge_mass 0) = true.
Proof. vm_compute. reflexivity. Qed.

Example huge_mass_normalised :
  (c ← normalise huge_mass None; Ok (slot_mass c 0)) = Ok 0%float.
Proof. vm_compute. reflexivity. Qed.

(** ** The n-best search in binary64 *)

(** In exact arithmetic "a y" is more probable than "b x" in [near_tie_exact]
    and is closed first. *)
Example near_tie_exact_sorted : sorted_confnet near_tie_exact.
Proof. apply sorted_confnetb_correct. reflexivity. Qed.

Example near_tie_exact_closed :
  (closed ← get_utterance_nblist_closed near_tie_exact 3; Ok (map fst closed))
  = Ok [[0; 0]; [0; 1]; [1; 0]].
Proof. vm_compute. reflexivity. Qed.

(** In binary64 the two products round to the same number, 1/4, and the
    vectors are closed in the other order. *)
Example near_tie_float_probs :
  get_prob near_tie_float [0; 1] = Ok 0x1p-2%float
  /\ get_prob near_tie_float [1; 0] = Ok 0x1p-2%float.
Proof. split; vm_compute; reflexivity. Qed.

Example near_tie_float_closed :
  (closed ← get_utterance_nblist_closed near_tie_float 3; Ok (map fst closed))
  = Ok [[0; 0]; [1; 0]; [0; 1]].
Proof. vm_compute. reflexivity. Qed.

(** ** [lower] and an utterance that shares the list *)

Section SharedList.
Variable str_lower : word -> word.

Lemma lower_items_loop (rest pre : list word) :
  fold_left (fun l widx =>
               match l !! widx with
               | Some w => <[widx := str_lower w]> l
               | None => l
               end)
            (seq (length pre) (length rest)) (map str_lower pre ++ rest)
  = map str_lower (pre ++ rest).
Proof.
  revert pre. induction rest as [|w rest IH]; intros pre.
  - simpl. by rewrite !app_nil_r.
  - cbn [length seq fold_left].
    assert (length (map str_lower pre) = length pre) as Hlen by apply length_map.
    rewrite lookup_app_r by lia. rewrite Hlen, Nat.sub_diag. cbn [lookup list_lookup].
    rewrite insert_app_r_alt by lia. rewrite Hlen, Nat.sub_diag. cbn [insert list_insert].
    specialize (IH (pre ++ [w])).
    rewrite length_app, Nat.add_1_r, map_app, <- !app_assoc in IH. exact IH.
Qed.

Lemma lower_items_map (ws : list word) :
  UtteranceInPlace.lower_items str_lower ws = map str_lower ws.
Proof. exact (lower_items_loop ws []). Qed.

(** X26.  [lower] rewrites the list itself, so an utterance made by
    [from_utterance] sees it.  Let [a] hold the words [ws], its word set
    being their set.  [from_utterance a] returns [b], which holds the very
    list of [a] and the word set of [ws].  After [a.lower()] the one list
    holds the lowered words, for [b] as for [a]; the word set of [a] is
    their set, the word set of [b] is still the set of [ws].  So [b] has the
    word set of its words only if lowering leaves the set of words as it
    was; and where a word [w] of [ws] has a lowered form that is none of
    [ws], [b.find] misses that form, returning -1, though it is among the
    words of [b], and [a.find] returns a position of it.  An utterance with
    a list of its own stays as it was. *)
Theorem lower_reaches_sharing_utterance
    (st : UtteranceInPlace.lists) (a : UtteranceInPlace.t) (ws : list word) :
  st !! UtteranceInPlace._utterance a = Some ws ->
  UtteranceInPlace._wordset a = list_to_set ws ->
  exists (b a' : UtteranceInPlace.t) (st1 st2 : UtteranceInPlace.lists),
    UtteranceInPlace.from_utterance a st = (st1, Ok b)
    /\ UtteranceInPlace.lower str_lower a st1 = (st2, Ok a')
    /\ UtteranceInPlace._utterance b = UtteranceInPlace._utterance a
    /\ UtteranceInPlace._utterance a' = UtteranceInPlace._utterance a
    /\ in_step st1 b
    /\ st2 !! UtteranceInPlace._utterance a = Some (map str_lower ws)
    /\ in_step st2 a'
    /\ UtteranceInPlace._wordset b = list_to_set ws
    /\ (in_step st2 b
        <-> list_to_set (map str_lower ws) =@{gset word} list_to_set ws)
    /\ (forall w, w ∈ ws -> str_lower w ∉ ws ->
          UtteranceInPlace.find b [str_lower w] st2 = Ok (-1)
          /\ exists r, UtteranceInPlace.find a' [str_lower w] st2 = Ok r
                       /\ 0 <= r < len ws)
    /\ (forall c ws',
          UtteranceInPlace._utterance c <> UtteranceInPlace._utterance a ->
          st !! UtteranceInPlace._utterance c = Some ws' ->
          st2 !! UtteranceInPlace._utterance c = Some ws').
Proof.
  intros Hws Hset.
  set (l := fresh (dom st)).
  assert (st !! l = None) as Hfresh.
  { apply not_elem_of_dom. apply is_fresh. }
  assert (l <> UtteranceInPlace._utterance a) as Hne.
  { intros Heq. rewrite Heq in Hfresh. congruence. }
  set (st1 := <[l := split ""]> st).
  assert (st1 !! UtteranceInPlace._utterance a = Some ws) as Hws1.
  { unfold st1. by rewrite lookup_insert_ne. }
  set (b := {| UtteranceInPlace._utterance := UtteranceInPlace._utterance a;
               UtteranceInPlace._wordset := list_to_set ws;
               UtteranceInPlace._abstr_idxs := [] |}).
  set (a' := {| UtteranceInPlace._utterance := UtteranceInPlace._utterance a;
                UtteranceInPlace._wordset := list_to_set (map str_lower ws);
                UtteranceInPlace._abstr_idxs := UtteranceInPlace._abstr_idxs a |}).
  set (st2 := <[UtteranceInPlace._utterance a := map str_lower ws]> st1).
  assert (st2 !! UtteranceInPlace._utterance a = Some (map str_lower ws)) as Hws2.
  { unfold st2. by rewrite lookup_insert_eq. }
  exists b, a', st1, st2.
  split.
  { unfold UtteranceInPlace.from_utterance, UtteranceInPlace.init.
    cbn [fst snd]. fold l. fold st1.
    unfold UtteranceInPlace.set_utterance. by rewrite Hws1. }
  split.
  { unfold UtteranceInPlace.lower. rewrite Hws1. by rewrite lower_items_map. }
  split; [done|]. split; [done|].
  split. { exists ws. by split. }
  split; [exact Hws2|].
  split. { exists (map str_lower ws). by split. }
  split; [done|].
  split.
  { split.
    - intros (ws' & Hl & Hs). cbn in Hl, Hs. rewrite Hws2 in Hl.
      injection Hl as <-. by rewrite Hs.
    - intros Heq. exists (map str_lower ws). split; [exact Hws2|].
      cbn. by rewrite Heq. }
  split.
  { intros w Hw Hnot. split.
    - unfold UtteranceInPlace.find.
      replace (UtteranceInPlace.view b st2)
        with (Some {| Utterance._utterance := map str_lower ws;
                      Utterance._wordset := list_to_set ws |}).
      2:{ unfold UtteranceInPlace.view.
          change (UtteranceInPlace._utterance b) with (UtteranceInPlace._utterance a).
          by rewrite Hws2. }
      unfold Utterance.find. cbn [Utterance._wordset].
      rewrite (all_in_wordset_false _ [str_lower w]); [done|].
      exists (str_lower w). split; [apply list_elem_of_singleton; done|].
      by rewrite elem_of_list_to_set.
    - unfold UtteranceInPlace.find.
      replace (UtteranceInPlace.view a' st2)
        with (Some {| Utterance._utterance := map str_lower ws;
                      Utterance._wordset := list_to_set (map str_lower ws) |}).
      2:{ unfold UtteranceInPlace.view.
          change (UtteranceInPlace._utterance a') with (UtteranceInPlace._utterance a).
          by rewrite Hws2. }
      destruct (find_wf_leftmost
                  {| Utterance._utterance := map str_lower ws;
                     Utterance._wordset := list_to_set (map str_lower ws) |}
                  [str_lower w]) as (r & Hr & Hleft); [done|done|].
      exists r. split; [exact Hr|].
      cbn in Hleft. destruct Hleft as [[-> Hnone]|(Hr0 & Hocc & _)].
      + exfalso. apply list_elem_of_lookup in Hw as [i Hi].
        apply (Hnone i). apply occurs_at_lookup. intros [|k] Hk; simpl in Hk; [|lia].
        rewrite Nat.add_0_r. rewrite list_lookup_fmap, Hi. done.
      + split; [done|].
        pose proof (proj1 (occurs_at_lookup _ _ _) Hocc 0%nat) as Hfirst.
        rewrite Nat.add_0_r in Hfirst. specialize (Hfirst ltac:(simpl; lia)).
        apply lookup_lt_Some in Hfirst. rewrite length_map in Hfirst.
        unfold len. lia. }
  intros c ws' Hc Hl. unfold st2, st1.
  rewrite lookup_insert_ne by done.
  rewrite lookup_insert_ne; [done|].
  intros Heq. rewrite <- Heq in Hl. congruence.
Qed.

End SharedList.

Lemma lower_reaches_sharing_utterance_witness :
  exists (b a' : UtteranceInPlace.t) (st1 st2 : UtteranceInPlace.lists),
    UtteranceInPlace.from_utterance new_york new_york_lists = (st1, Ok b)
    /\ UtteranceInPlace.lower lower_new_york new_york st1 = (st2, Ok a')
    /\ UtteranceInPlace._utterance b = UtteranceInPlace._utterance new_york
    /\ UtteranceInPlace._utterance a' = UtteranceInPlace._utterance new_york
    /\ in_step st1 b
    /\ st2 !! UtteranceInPlace._utterance new_york
       = Some (map lower_new_york ["New"; "York"]%string)
    /\ in_step st2 a'
    /\ UtteranceInPlace._wordset b = list_to_set ["New"; "York"]%string
    /\ (in_step st2 b
        <-> list_to_set (map lower_new_york ["New"; "York"]%string)
            =@{gset word} list_to_set ["New"; "York"]%string)
    /\ (forall w, w ∈ ["New"; "York"]%string ->
          lower_new_york w ∉ ["New"; "York"]%string ->
          UtteranceInPlace.find b [lower_new_york w] st2 = Ok (-1)
          /\ exists r, UtteranceInPlace.find a' [lower_new_york w] st2 = Ok r
                       /\ 0 <= r < len ["New"; "York"]%string)
    /\ (forall c ws',
          UtteranceInPlace._utterance c <> UtteranceInPlace._utterance new_york ->
          new_york_lists !! UtteranceInPlace._utterance c = Some ws' ->
          st2 !! UtteranceInPlace._utterance c = Some ws').
Proof.
  apply (lower_reaches_sharing_utterance lower_new_york new_york_lists new_york
           ["New"; "York"]%string).
  - reflexivity.
  - reflexivity.
Defined.

(** The run on "New York": after [a.lower()] the list of [b] reads
    "new york", and [b.find] returns -1 for "new" and for "New". *)
Example new_york_shared :
  let made := UtteranceInPlace.from_utterance new_york new_york_lists in
  let lowered := UtteranceInPlace.lower lower_new_york new_york made.1 in
  (b ← made.2;
   Ok (lowered.1 !! UtteranceInPlace._utterance b,
       UtteranceInPlace.find b ["new"%string] lowered.1,
       UtteranceInPlace.find b ["New"%string] lowered.1))
  = Ok (Some ["new"; "york"]%string, Ok (-1), Ok (-1)).
Proof. vm_compute. reflexivity. Qed.

(** ** [lower] on a confusion network *)

Lemma set_map_fixed (str_lower : word -> word) (wordset : gset word) (w : word) :
  (forall v, str_lower (str_lower v) = str_lower v) ->
  w ∈ (set_map str_lower wordset : gset word) -> str_lower w = w.
Proof.
  intros Hidem Hw. apply elem_of_map in Hw as (v & -> & _). apply Hidem.
Qed.

(** X27.  [UtteranceConfusionNetwork.lower] lowers the words of the slots
    and of the word set and leaves the long links as they are.  Where
    lowering a lowered word changes nothing, a phrase holding a word that
    lowering changes is found nowhere in the lowered network, whatever the
    slots and the long links hold: [find] returns -1 and [index] raises
    [ValueError], for every range.  The phrase of a long link that has such
    a word stays in [_long_links] and can no longer be found. *)
Theorem lower_hides_cased_phrases {R : Type} `{Arith R}
    (str_lower : word -> word) (depth : nat) (c : UtteranceConfusionNetwork.t R)
    (phrase : list word) (start : Z) (end_ : option Z) :
  (forall w, str_lower (str_lower w) = str_lower w) ->
  (exists w, w ∈ phrase /\ str_lower w <> w) ->
  _long_links (lower str_lower c) = _long_links c
  /\ find depth (lower str_lower c) phrase start end_ = Ok (-1)
  /\ index depth (lower str_lower c) phrase start end_ = Raise ValueError.
Proof.
  intros Hidem (w & Hw & Hcased).
  split; [done|].
  assert (all_in_wordset (_wordset (lower str_lower c)) phrase = false) as Hall.
  { apply all_in_wordset_false. exists w. split; [done|].
    intros Hin. apply Hcased.
    exact (set_map_fixed str_lower (_wordset c) w Hidem Hin). }
  assert (forall s e, find depth (lower str_lower c) phrase s e = Ok (-1)) as Hfind.
  { intros s e. unfold find. destruct phrase as [|word0 rest].
    { exfalso. by eapply not_elem_of_nil. }
    rewrite get_phrase_idxs_unfold. cbv zeta.
    destruct (_ <=? s); [reflexivity|]. rewrite Hall. reflexivity. }
  split; [apply Hfind|].
  unfold index. by rewrite Hfind.
Qed.

Lemma lower_hides_cased_phrases_witness :
  _long_links (lower lower_new_york capital_link) = _long_links capital_link
  /\ find 2 (lower lower_new_york capital_link) ["New"; "York"]%string 0 None
     = Ok (-1)
  /\ index 2 (lower lower_new_york capital_link) ["New"; "York"]%string 0 None
     = Raise ValueError.
Proof.
  apply (lower_hides_cased_phrases lower_new_york 2 capital_link
           ["New"; "York"]%string 0 None).
  - intros w. unfold lower_new_york.
    destruct (String.eqb w "New") eqn:Hnew; [reflexivity|].
    destruct (String.eqb w "York") eqn:Hyork; [reflexivity|].
    by rewrite Hnew, Hyork.
  - exists "New"%string. split; [by left|]. discriminate.
Defined.

(** The phrase "New York" of the long link of [capital_link] is found at 0;
    after [lower()] neither it nor "new york" is found. *)
Example capital_link_found :
  find 2 capital_link ["New"; "York"]%string 0 None = Ok 0.
Proof. vm_compute. reflexivity. Qed.

Example capital_link_lowered :
  find 2 (lower lower_new_york capital_link) ["new"; "york"]%string 0 None
  = Ok (-1).
Proof. vm_compute. reflexivity. Qed.
